(** * pubmed_network: the co-author network engine

    A shallow embedding of [src/pubmed_network/network_builder.py] and of the
    parts of [src/pubmed_network/visualizer.py] that read the graph, together
    with the [networkx] routines they call.

    Conventions.
    - A Python [str] is a Rocq [string]; each [ascii] stands for one code
      point (so the model covers text whose code points are below 256).
    - A Python [dict] whose iteration order matters (the node and adjacency
      tables of [nx.Graph]) is an association list kept in insertion order,
      with unique keys; a dict that is only looked up is a [gmap].
    - Python floats are modelled by exact rationals ([Qc]); [round(x, 4)] is
      rounding of the exact value to four decimals, ties to even. *)

From Stdlib Require Import ZArith QArith Qcanon String Ascii List Lia.
From stdpp Require Import base decidable option list gmap strings pretty.

Open Scope string_scope.
Open Scope list_scope.
Open Scope Z_scope.
Set Warnings "-clear-no-such-hyp,-level-tolerance".

(* ================================================================== *)
(** ** Insertion-ordered dictionaries *)

Module OD.
Section Ops.
Context {V : Type}.

(** [d.get(k)] *)
Fixpoint get (k : string) (d : list (string * V)) : option V :=
  match d with
  | [] => None
  | (k', v) :: d' => if decide (k' = k) then Some v else get k d'
  end.

(** [d[k] = v]: an existing key keeps its place, a new one goes last. *)
Fixpoint set (k : string) (v : V) (d : list (string * V)) : list (string * V) :=
  match d with
  | [] => [(k, v)]
  | (k', v') :: d' =>
      if decide (k' = k) then (k', v) :: d' else (k', v') :: set k v d'
  end.

(** [k in d] *)
Definition mem (k : string) (d : list (string * V)) : bool :=
  bool_decide (is_Some (get k d)).

(** [list(d)]: the keys in insertion order. *)
Definition keys (d : list (string * V)) : list string := d.*1.
End Ops.
End OD.

(* ================================================================== *)
(** ** Data model *)

(** An author entry of an article, as [pubmed_client._parse_single_article]
    builds it. *)
Record Author := mkAuthor {
  last_name : string;
  first_name : string;
  a_affiliation : string
}.

Record Article := mkArticle {
  pmid : string;
  title : string;
  authors : list Author;
  year : string;
  journal : string
}.

(** Node attribute dict: the keys ["paper_count"] and ["affiliation"], each
    possibly absent (the code reads them with [.get(key, default)]). *)
Record NodeAttrs := mkNodeAttrs {
  paper_count : option Z;
  affiliation : option string
}.

(** Edge attribute dict.  [build_coauthor_network] is the only code that
    creates edges and it always sets ["weight"]. *)
Record EdgeAttrs := mkEdgeAttrs { weight : Z }.

(** [nx.Graph]: [_node] maps a node to its attributes, [_adj] maps a node to
    its neighbours and the data of the connecting edge.  In Python the dict
    stored at [_adj[u][v]] and at [_adj[v][u]] is one shared object; here the
    two entries are copies and every write goes to both. *)
Record Graph := mkGraph {
  _node : list (string * NodeAttrs);
  _adj : list (string * list (string * EdgeAttrs))
}.

#[global] Instance NodeAttrs_eq_dec : EqDecision NodeAttrs.
Proof. solve_decision. Defined.
#[global] Instance EdgeAttrs_eq_dec : EqDecision EdgeAttrs.
Proof. solve_decision. Defined.
#[global] Instance Graph_eq_dec : EqDecision Graph.
Proof. solve_decision. Defined.

Definition empty_graph : Graph := mkGraph [] [].

(** [list(G.nodes)], [len(G.nodes)] *)
Definition nodes (G : Graph) : list string := OD.keys (_node G).
Definition number_of_nodes (G : Graph) : Z := Z.of_nat (length (_node G)).

(** [G[v]]: the neighbour table of [v] ([{}] stands in for the KeyError of a
    node that is not in the graph). *)
Definition nbrs (G : Graph) (v : string) : list (string * EdgeAttrs) :=
  default [] (OD.get v (_adj G)).

Definition neighbors (G : Graph) (v : string) : list string := OD.keys (nbrs G v).

(** [G.has_node(n)] *)
Definition has_node (G : Graph) (n : string) : bool := OD.mem n (_node G).

(** [G.has_edge(u, v)]: [v in self._adj[u]], False on KeyError. *)
Definition has_edge (G : Graph) (u v : string) : bool := OD.mem v (nbrs G u).

(** [G.nodes[n]] *)
Definition node_attrs (G : Graph) (n : string) : NodeAttrs :=
  default (mkNodeAttrs None None) (OD.get n (_node G)).

(** [G[u][v]["weight"]] *)
Definition edge_weight (G : Graph) (u v : string) : option Z :=
  weight <$> OD.get v (nbrs G u).

(** [G.add_node(n, paper_count=pc, affiliation=aff)] *)
Definition add_node (G : Graph) (n : string) (pc : Z) (aff : string) : Graph :=
  if has_node G n then
    mkGraph (OD.set n (mkNodeAttrs (Some pc) (Some aff)) (_node G)) (_adj G)
  else
    mkGraph (OD.set n (mkNodeAttrs (Some pc) (Some aff)) (_node G))
            (OD.set n [] (_adj G)).

(** [add_edge] creates a missing endpoint with no attributes. *)
Definition ensure_node (G : Graph) (n : string) : Graph :=
  if has_node G n then G
  else mkGraph (OD.set n (mkNodeAttrs None None) (_node G)) (OD.set n [] (_adj G)).

(** Store one edge dict at [_adj[u][v]] and [_adj[v][u]]. *)
Definition put_edge (G : Graph) (u v : string) (d : EdgeAttrs) : Graph :=
  let a1 := OD.set u (OD.set v d (default [] (OD.get u (_adj G)))) (_adj G) in
  let a2 := OD.set v (OD.set u d (default [] (OD.get v a1))) a1 in
  mkGraph (_node G) a2.

(** [G.add_edge(u, v, weight=w)] *)
Definition add_edge (G : Graph) (u v : string) (w : Z) : Graph :=
  let G := ensure_node (ensure_node G u) v in
  put_edge G u v (mkEdgeAttrs w).

(** [G[u][v]["weight"] += 1] on an existing edge: one write to the shared
    edge dict, seen from both endpoints. *)
Definition incr_weight (G : Graph) (u v : string) : Graph :=
  match OD.get v (nbrs G u) with
  | Some d => put_edge G u v (mkEdgeAttrs (weight d + 1))
  | None => G
  end.

(* ================================================================== *)
(** ** Author Key Resolver: [_author_key] *)

(** [str.isspace] on one character. *)
Definition is_space (c : ascii) : bool :=
  let n := nat_of_ascii c in
  bool_decide (n ∈ [9; 10; 11; 12; 13; 28; 29; 30; 31; 32; 133; 160]%nat).

(** [first.split()]: maximal runs of non-space characters.  [cur] is the
    token being read, reversed. *)
Fixpoint split_ws (cur : list ascii) (s : string) : list string :=
  let flush (rest : list string) :=
    match cur with
    | [] => rest
    | _ => string_of_list_ascii (rev cur) :: rest
    end in
  match s with
  | EmptyString => flush []
  | String c s' =>
      if is_space c then flush (split_ws [] s') else split_ws (c :: cur) s'
  end.

Definition split (s : string) : list string := split_ws [] s.

(** [part[0]] as a one-character string (parts of [split] are non-empty). *)
Definition first_char (part : string) : string :=
  match part with
  | EmptyString => ""
  | String c _ => String c EmptyString
  end.

Definition _author_key (author : Author) : string :=
  let last := last_name author in
  let first := first_name author in
  if bool_decide (first ≠ "") then
    let initials :=
      String.concat "" (map first_char (filter (λ part, part ≠ "") (split first))) in
    last +:+ " " +:+ initials
  else last.

(* ================================================================== *)
(** ** Graph Builder: [build_coauthor_network] *)

(** [itertools.combinations(l, 2)] *)
Fixpoint combinations2 {A} (l : list A) : list (A * A) :=
  match l with
  | [] => []
  | x :: l' => map (pair x) l' ++ combinations2 l'
  end.

(** Python truthiness of [d.get("affiliation")]. *)
Definition truthy_str (o : option string) : bool :=
  match o with
  | Some s => bool_decide (s ≠ "")
  | None => false
  end.

Definition set_node_attrs (G : Graph) (n : string) (a : NodeAttrs) : Graph :=
  mkGraph (OD.set n a (_node G)) (_adj G).

(** Body of [for a in authors] (lines 24-31); the state is the graph and
    the list [author_keys]. *)
Definition visit_author (st : Graph * list string) (a : Author) : Graph * list string :=
  let '(G, author_keys) := st in
  let key := _author_key a in
  let author_keys := author_keys ++ [key] in
  let G := if negb (has_node G key) then add_node G key 0 (a_affiliation a) else G in
  let at1 := node_attrs G key in
  let G := set_node_attrs G key
             (mkNodeAttrs (Some (default 0 (paper_count at1) + 1)) (affiliation at1)) in
  let at2 := node_attrs G key in
  let G :=
    if bool_decide (a_affiliation a ≠ "") && negb (truthy_str (affiliation at2))
    then set_node_attrs G key (mkNodeAttrs (paper_count at2) (Some (a_affiliation a)))
    else G in
  (G, author_keys).

(** Body of [for a1, a2 in combinations(author_keys, 2)] (lines 33-37). *)
Definition visit_pair (G : Graph) (p : string * string) : Graph :=
  let '(a1, a2) := p in
  if has_edge G a1 a2 then incr_weight G a1 a2 else add_edge G a1 a2 1.

(** Body of [for article in articles] (lines 21-37). *)
Definition visit_article (G : Graph) (article : Article) : Graph :=
  let '(G, author_keys) := foldl visit_author (G, []) (authors article) in
  foldl visit_pair G (combinations2 author_keys).

Definition build_coauthor_network (articles : list Article) : Graph :=
  foldl visit_article empty_graph articles.

(* ================================================================== *)
(** ** Numbers *)

Definition Z2Qc (z : Z) : Qc := Q2Qc (inject_Z z).

(** The integer nearest to [q], ties to the even one. *)
Definition round_half_even (q : Q) : Z :=
  let n := Qnum q in
  let d := Zpos (Qden q) in
  let fl := n / d in
  let r2 := 2 * (n mod d) in
  if Z.ltb r2 d then fl
  else if Z.ltb d r2 then fl + 1
  else if Z.even fl then fl else fl + 1.

(** [round(x, 4)], on the exact value.  Python rounds the binary float
    nearest to the value, so at a value that lies exactly on a 4-decimal tie
    the two may differ by one unit in the last place.  The theorems use only
    that rounding keeps a value between 0 and 1 there, never makes a
    non-negative value negative, and fixes 0 and 1. *)
Definition round4 (x : Qc) : Qc :=
  Q2Qc (round_half_even (this x * inject_Z 10000) # 10000).

Definition sumQc (l : list Qc) : Qc := foldr Qcplus (0%Qc) l.
Definition sumZ (l : list Z) : Z := foldr Z.add 0 l.

(* ================================================================== *)
(** ** networkx: degrees, edges, density *)

(** [G.degree(v)]: a self-loop counts twice. *)
Definition degree (G : Graph) (v : string) : Z :=
  Z.of_nat (length (nbrs G v)) + (if OD.mem v (nbrs G v) then 1 else 0).

(** [G.number_of_edges()]: [sum(d for v, d in G.degree()) // 2]. *)
Definition number_of_edges (G : Graph) : Z :=
  sumZ (map (degree G) (nodes G)) / 2.

(** [G.edges(data=True)]: every edge once, from the endpoint met first. *)
Fixpoint edges_from (a : list (string * list (string * EdgeAttrs))) (seen : list string)
  : list (string * string * EdgeAttrs) :=
  match a with
  | [] => []
  | (n, ns) :: a' =>
      map (λ '(nbr, dd), (n, nbr, dd)) (filter (λ '(nbr, _), nbr ∉ seen) ns)
      ++ edges_from a' (n :: seen)
  end.

Definition edges (G : Graph) : list (string * string * EdgeAttrs) :=
  edges_from (_adj G) [].

(** [nx.degree_centrality(G)] *)
Definition degree_centrality (G : Graph) : list (string * Qc) :=
  if bool_decide (number_of_nodes G ≤ 1) then
    map (λ n, (n, 1%Qc)) (nodes G)
  else
    let s := (1%Qc / (Z2Qc (number_of_nodes G) - 1%Qc))%Qc in
    map (λ n, (n, (Z2Qc (degree G n) * s)%Qc)) (nodes G).

(** [nx.density(G)] *)
Definition density (G : Graph) : Qc :=
  let n := number_of_nodes G in
  let m := number_of_edges G in
  if bool_decide (m = 0 ∨ n ≤ 1) then 0%Qc
  else (Z2Qc m / Z2Qc (n * (n - 1)) * Z2Qc 2)%Qc.

(* ================================================================== *)
(** ** networkx: breadth-first search *)

(** Scan of [adj[v]] inside one level: unseen neighbours are marked and
    queued for the next level. *)
Definition bfs_scan (G : Graph) (st : gset string * list string) (v : string)
  : gset string * list string :=
  foldl (λ '(seen, next) w,
           if decide (w ∈ seen) then (seen, next) else ({[w]} ∪ seen, next ++ [w]))
        st (neighbors G v).

(** The [while nextlevel] loop of [_single_shortest_path_length] and of
    [_plain_bfs]; [acc] collects the yielded [(node, level)] pairs.  The
    early exit on [len(seen) == n] only saves scans that find nothing. *)
Fixpoint bfs_levels (fuel : nat) (G : Graph) (seen : gset string)
    (thislevel : list string) (level : Z) (acc : list (string * Z)) : list (string * Z) :=
  match fuel with
  | O => acc
  | S fuel' =>
      match thislevel with
      | [] => acc
      | _ =>
          let '(seen', next) := foldl (bfs_scan G) (seen, []) thislevel in
          bfs_levels fuel' G seen' next (level + 1)
                     (acc ++ map (λ w, (w, level + 1)) next)
      end
  end.

(** [nx.single_source_shortest_path_length(G, source)] *)
Definition single_source_shortest_path_length (G : Graph) (source : string)
  : list (string * Z) :=
  bfs_levels (length (_node G)) G {[source]} [source] 0 [(source, 0)].

(** [_plain_bfs(G, source)]: the set of nodes reached. *)
Definition _plain_bfs (G : Graph) (source : string) : list string :=
  (single_source_shortest_path_length G source).*1.

(** [nx.connected_components(G)]: [for v in G: if v not in seen: ...]. *)
Fixpoint cc_loop (G : Graph) (vs : list string) (seen : gset string) : list (list string) :=
  match vs with
  | [] => []
  | v :: vs' =>
      if decide (v ∈ seen) then cc_loop G vs' seen
      else
        let c := _plain_bfs G v in
        c :: cc_loop G vs' (seen ∪ list_to_set c)
  end.

Definition connected_components (G : Graph) : list (list string) :=
  cc_loop G (nodes G) ∅.

(** [nx.closeness_centrality(G)] with its defaults ([distance=None],
    [wf_improved=True]). *)
Definition closeness_of (G : Graph) (n : string) : Qc :=
  let sp := single_source_shortest_path_length G n in
  let totsp := sumZ sp.*2 in
  let len_G := number_of_nodes G in
  if bool_decide (0 < totsp ∧ 1 < len_G) then
    let c := (Z2Qc (Z.of_nat (length sp) - 1) / Z2Qc totsp)%Qc in
    let s := (Z2Qc (Z.of_nat (length sp) - 1) / Z2Qc (len_G - 1))%Qc in
    (c * s)%Qc
  else 0%Qc.

Definition closeness_centrality (G : Graph) : list (string * Qc) :=
  map (λ n, (n, closeness_of G n)) (nodes G).

(* ================================================================== *)
(** ** networkx: clustering *)

(** [set(G[v]) - {v}] *)
Definition nbrs_proper (G : Graph) (v : string) : list string :=
  filter (λ w, w ≠ v) (neighbors G v).

(** [_triangles_and_degree_iter]: the degree without self-loop and twice
    the number of triangles through [v]. *)
Definition triangles2 (G : Graph) (v : string) : Z :=
  let vs := nbrs_proper G v in
  sumZ (map (λ w, Z.of_nat (length (filter (λ x, x ∈ nbrs_proper G w) vs))) vs).

(** [nx.clustering(G)] (no weight) at one node. *)
Definition clustering_of (G : Graph) (v : string) : Qc :=
  let d := Z.of_nat (length (nbrs_proper G v)) in
  let t := triangles2 G v in
  if bool_decide (t = 0) then 0%Qc else (Z2Qc t / Z2Qc (d * (d - 1)))%Qc.

(** [nx.average_clustering(G)]: [sum(c) / len(c)]. *)
Definition average_clustering (G : Graph) : Qc :=
  (sumQc (map (clustering_of G) (nodes G)) / Z2Qc (number_of_nodes G))%Qc.

Section WeightedClustering.
(** [numpy.cbrt], the real cube root: not a rational function, so it is
    a parameter of the model. *)
Variable cbrt : Qc → Qc.

Definition max_weight (G : Graph) : Z :=
  if bool_decide (number_of_edges G = 0) then 1
  else foldr Z.max 0 (map (λ e, weight e.2) (edges G)).

(** [wt(u, v)]: the edge weight over the largest weight of the graph. *)
Definition wt_norm (G : Graph) (u v : string) : Qc :=
  (Z2Qc (default 1%Z (edge_weight G u v)) / Z2Qc (max_weight G))%Qc.

(** The [for j in inbrs] loop of [_weighted_triangles_and_degree_iter]. *)
Fixpoint weighted_triangles (G : Graph) (i : string) (inbrs js seen : list string) : Qc :=
  match js with
  | [] => 0%Qc
  | j :: js' =>
      let seen := j :: seen in
      let jnbrs := filter (λ k, k ∉ seen) (neighbors G j) in
      let wij := wt_norm G i j in
      (sumQc (map (λ k, cbrt (wij * wt_norm G j k * wt_norm G k i))
                  (filter (λ k, k ∈ jnbrs) inbrs))
       + weighted_triangles G i inbrs js' seen)%Qc
  end.

(** [nx.clustering(G, weight="weight")] *)
Definition clustering_weighted (G : Graph) : list (string * Qc) :=
  map (λ v,
         let inbrs := nbrs_proper G v in
         let d := Z.of_nat (length inbrs) in
         let t := (Z2Qc 2 * weighted_triangles G v inbrs inbrs [])%Qc in
         (v, if bool_decide (t = 0%Qc) then 0%Qc
             else (t / Z2Qc (d * (d - 1)))%Qc))
      (nodes G).
End WeightedClustering.

(* ================================================================== *)
(** ** networkx: betweenness centrality (Brandes, with Dijkstra) *)

(** A heap entry [(dist, count, pred, v)]. *)
Record HeapEntry := mkEntry {
  e_dist : Z;
  e_count : nat;
  e_pred : string;
  e_node : string
}.

#[global] Instance HeapEntry_eq_dec : EqDecision HeapEntry.
Proof. solve_decision. Defined.

(** Tuple order; the counter is unique, so the names are never compared. *)
Definition entry_lt (a b : HeapEntry) : bool :=
  (e_dist a <? e_dist b) || ((e_dist a =? e_dist b) && (e_count a <? e_count b)%nat).

Fixpoint heap_min (e : HeapEntry) (q : list HeapEntry) : HeapEntry :=
  match q with
  | [] => e
  | x :: q' => heap_min (if entry_lt x e then x else e) q'
  end.

Fixpoint remove_first (e : HeapEntry) (q : list HeapEntry) : list HeapEntry :=
  match q with
  | [] => []
  | x :: q' => if decide (x = e) then q' else x :: remove_first e q'
  end.

(** [heappop(Q)] on the heap seen as a bag of entries. *)
Definition heappop (Q : list HeapEntry) : option (HeapEntry * list HeapEntry) :=
  match Q with
  | [] => None
  | e :: q => let m := heap_min e q in Some (m, remove_first m Q)
  end.

(** The local variables of [_single_source_dijkstra_path_basic]. *)
Record DState := mkDState {
  dS : list string;
  dP : gmap string (list string);
  dsigma : gmap string Qc;
  dD : gmap string Z;
  dseen : gmap string Z;
  dcount : nat;
  dQ : list HeapEntry
}.

(** Body of [for w, edgedata in G[v].items()]. *)
Definition relax (v : string) (dist : Z) (st : DState) (we : string * EdgeAttrs) : DState :=
  let '(w, edgedata) := we in
  let vw_dist := dist + weight edgedata in
  if bool_decide (dD st !! w = None)
     && match dseen st !! w with None => true | Some x => vw_dist <? x end
  then
    mkDState (dS st) (<[w := [v]]> (dP st)) (<[w := 0%Qc]> (dsigma st)) (dD st)
             (<[w := vw_dist]> (dseen st)) (S (dcount st))
             (mkEntry vw_dist (dcount st) v w :: dQ st)
  else if bool_decide (dseen st !! w = Some vw_dist) then
    mkDState (dS st)
             (<[w := default [] (dP st !! w) ++ [v]]> (dP st))
             (<[w := (default (0%Qc) (dsigma st !! w)
                      + default (0%Qc) (dsigma st !! v))%Qc]> (dsigma st))
             (dD st) (dseen st) (dcount st) (dQ st)
  else st.

(** One turn of [while Q]. *)
Definition dijkstra_step (G : Graph) (st : DState) (e : HeapEntry) (Q' : list HeapEntry)
  : DState :=
  let v := e_node e in
  let st := mkDState (dS st) (dP st) (dsigma st) (dD st) (dseen st) (dcount st) Q' in
  if bool_decide (is_Some (dD st !! v)) then st
  else
    let sg := (default (0%Qc) (dsigma st !! v)
               + default (0%Qc) (dsigma st !! e_pred e))%Qc in
    let st := mkDState (dS st ++ [v]) (dP st) (<[v := sg]> (dsigma st))
                       (<[v := e_dist e]> (dD st)) (dseen st) (dcount st) (dQ st) in
    foldl (relax v (e_dist e)) st (nbrs G v).

Fixpoint dijkstra_loop (fuel : nat) (G : Graph) (st : DState) : DState :=
  match fuel with
  | O => st
  | S fuel' =>
      match heappop (dQ st) with
      | None => st
      | Some (e, Q') => dijkstra_loop fuel' G (dijkstra_step G st e Q')
      end
  end.

(** Every push happens while some node is settled, so the heap sees at most
    one entry per adjacency entry besides the first one. *)
Definition dijkstra_fuel (G : Graph) : nat :=
  S (length (concat (map snd (_adj G)))).

Definition dijkstra_init (G : Graph) (s : string) : DState :=
  mkDState []
           (list_to_map (map (λ v, (v, [])) (nodes G)))
           (<[s := 1%Qc]> (list_to_map (map (λ v, (v, 0%Qc)) (nodes G))))
           ∅
           {[s := 0]}
           1
           [mkEntry 0 0 s s].

(** [_single_source_dijkstra_path_basic(G, s, "weight")] *)
Definition _single_source_dijkstra_path_basic (G : Graph) (s : string) : DState :=
  dijkstra_loop (dijkstra_fuel G) G (dijkstra_init G s).

(** [_accumulate_basic]; [revS] is [S] read from its end ([S.pop()]). *)
Fixpoint accumulate_loop (revS : list string) (P : gmap string (list string))
    (sigma : gmap string Qc) (s : string) (betweenness delta : gmap string Qc)
  : gmap string Qc :=
  match revS with
  | [] => betweenness
  | w :: revS' =>
      let coeff := ((1%Qc + default (0%Qc) (delta !! w))
                    / default (0%Qc) (sigma !! w))%Qc in
      let delta :=
        foldl (λ delta v,
                 <[v := (default (0%Qc) (delta !! v)
                         + default (0%Qc) (sigma !! v) * coeff)%Qc]> delta)
              delta (default [] (P !! w)) in
      let betweenness :=
        if decide (w ≠ s) then
          <[w := (default (0%Qc) (betweenness !! w)
                  + default (0%Qc) (delta !! w))%Qc]> betweenness
        else betweenness in
      accumulate_loop revS' P sigma s betweenness delta
  end.

Definition _accumulate_basic (betweenness : gmap string Qc) (st : DState) (s : string)
  : gmap string Qc :=
  accumulate_loop (rev (dS st)) (dP st) (dsigma st) s betweenness
                  (list_to_map (map (λ v, (v, 0%Qc)) (dS st))).

(** [_rescale] with [normalized=True], [directed=False], [k=None],
    [endpoints=False]. *)
Definition _rescale (betweenness : gmap string Qc) (n : Z) : gmap string Qc :=
  if bool_decide (n ≤ 2) then betweenness
  else
    let scale := (1%Qc / Z2Qc ((n - 1) * (n - 2)))%Qc in
    (λ b, (b * scale)%Qc) <$> betweenness.

(** [nx.betweenness_centrality(G, weight="weight")] *)
Definition betweenness_centrality (G : Graph) : gmap string Qc :=
  let betweenness0 : gmap string Qc := list_to_map (map (λ v, (v, 0%Qc)) (nodes G)) in
  let betweenness :=
    foldl (λ b s, _accumulate_basic b (_single_source_dijkstra_path_basic G s) s)
          betweenness0 (nodes G) in
  _rescale betweenness (number_of_nodes G).

(* ================================================================== *)
(** ** Centrality Engine: [compute_centralities], [get_network_stats] *)

Record CentralityRecord := mkCentralityRecord {
  c_paper_count : Z;
  c_affiliation : string;
  c_degree_centrality : Qc;
  c_betweenness_centrality : Qc;
  c_closeness_centrality : Qc;
  c_clustering_coefficient : Qc
}.

Section ComputeCentralities.
Variable cbrt : Qc → Qc.

Definition compute_centralities (G : Graph) : list (string * CentralityRecord) :=
  if bool_decide (length (nodes G) = 0%nat) then []
  else
    let degree := degree_centrality G in
    let betweenness := betweenness_centrality G in
    let closeness := closeness_centrality G in
    let clustering := clustering_weighted cbrt G in
    foldl (λ result node,
             OD.set node
               (mkCentralityRecord
                  (default 0 (paper_count (node_attrs G node)))
                  (default "" (affiliation (node_attrs G node)))
                  (round4 (default (0%Qc) (OD.get node degree)))
                  (round4 (default (0%Qc) (betweenness !! node)))
                  (round4 (default (0%Qc) (OD.get node closeness)))
                  (round4 (default (0%Qc) (OD.get node clustering))))
               result)
          [] (nodes G).
End ComputeCentralities.

(** [max(components, key=len)]: the first of the longest. *)
Fixpoint max_by_len (best : list string) (cs : list (list string)) : list string :=
  match cs with
  | [] => best
  | c :: cs' => max_by_len (if (length best <? length c)%nat then c else best) cs'
  end.

(** The result dict of [get_network_stats]; every value is a number. *)
Definition get_network_stats (G : Graph) : gmap string Qc :=
  if bool_decide (length (nodes G) = 0%nat) then
    {[ "nodes" := 0%Qc; "edges" := 0%Qc ]}
  else
    let components := connected_components G in
    let largest_cc := max_by_len [] components in
    {[ "nodes" := Z2Qc (number_of_nodes G);
       "edges" := Z2Qc (number_of_edges G);
       "density" := round4 (density G);
       "connected_components" := Z2Qc (Z.of_nat (length components));
       "largest_component_size" := Z2Qc (Z.of_nat (length largest_cc));
       "avg_clustering" := round4 (average_clustering G) ]}.

(* ================================================================== *)
(** ** Community Detector: [detect_communities] *)

(** [G.copy()]: a new graph object with the same nodes, edges and data. *)
Definition copy (G : Graph) : Graph := mkGraph (_node G) (_adj G).

(** [G.subgraph(comp)]: the graph induced on the nodes of [comp]. *)
Definition subgraph (G : Graph) (comp : list string) : Graph :=
  mkGraph (filter (λ kv, kv.1 ∈ comp) (_node G))
          (map (λ kv, (kv.1, filter (λ we, we.1 ∈ comp) kv.2))
               (filter (λ kv, kv.1 ∈ comp) (_adj G))).

(** [for node in comm: community_map[node] = community_id] *)
Definition assign_all (community_map : gmap string Z) (comm : list string)
    (community_id : Z) : gmap string Z :=
  foldl (λ m node, <[node := community_id]> m) community_map comm.

Section DetectCommunities.
(** [nx_community.greedy_modularity_communities]: the communities of the
    graph it is given, or [None] when it raises. *)
Variable greedy_modularity_communities : Graph → option (list (list string)).

(** Body of [for comm in comms] (lines 59-62). *)
Definition visit_comm (st : gmap string Z * Z) (comm : list string) : gmap string Z * Z :=
  let '(community_map, community_id) := st in
  (assign_all community_map comm community_id, community_id + 1).

(** Body of [for comp in components] (lines 50-66). *)
Definition visit_component (undirected : Graph) (st : gmap string Z * Z)
    (comp : list string) : gmap string Z * Z :=
  let '(community_map, community_id) := st in
  let subgraph := subgraph undirected comp in
  if (length comp <? 3)%nat then
    (assign_all community_map comp community_id, community_id + 1)
  else
    match greedy_modularity_communities subgraph with
    | Some comms => foldl visit_comm (community_map, community_id) comms
    | None => (assign_all community_map comp community_id, community_id + 1)
    end.

(** Lines 46-67, on the copy. *)
Definition detect_on (undirected : Graph) : gmap string Z :=
  let components := connected_components undirected in
  (foldl (visit_component undirected) (∅, 0) components).1.

Definition detect_communities (G : Graph) : gmap string Z :=
  if bool_decide (length (nodes G) = 0%nat) then ∅
  else detect_on (copy G).
End DetectCommunities.

(* ================================================================== *)
(** ** The caller's graph as mutable state

    [G] is passed by reference.  To say what a function does to it, the
    functions that receive a graph are written once more over a state that
    holds the caller's graph object: [M A] computes an [A] or raises, and
    returns the graph as it is afterwards. *)

Inductive Exc := KeyError | ZeroDivisionError | ValueError.

Definition M (A : Type) : Type := Graph → (Exc + A) * Graph.

Definition ret {A} (a : A) : M A := λ g, (inr a, g).
Definition raise {A} (e : Exc) : M A := λ g, (inl e, g).
Definition bind {A B} (m : M A) (k : A → M B) : M B :=
  λ g, match m g with
       | (inl e, g') => (inl e, g')
       | (inr a, g') => k a g'
       end.

(** A method of the graph that only reads it. *)
Definition read {A} (f : Graph → A) : M A := λ g, (inr (f g), g).
(** A method of the graph that changes it in place. *)
Definition modify (f : Graph → Graph) : M unit := λ g, (inr tt, f g).
(** An access that raises when the key is missing. *)
Definition read_key {A} (f : Graph → option A) : M A :=
  λ g, match f g with Some a => (inr a, g) | None => (inl KeyError, g) end.

#[global] Instance M_ret : MRet M := @ret.
#[global] Instance M_bind : MBind M := λ A B k m, bind m k.

Fixpoint foldM {A B} (f : B → A → M B) (b : B) (l : list A) : M B :=
  match l with
  | [] => ret b
  | x :: l' => b' ← f b x; foldM f b' l'
  end.

Section Stateful.
Variable greedy_modularity_communities : Graph → option (list (list string)).
Variable cbrt : Qc → Qc.
(** [math.sqrt] on a non-negative argument. *)
Variable sqrt : Qc → Qc.

Definition detect_communities_st : M (gmap string Z) :=
  n ← read (λ G, length (nodes G));
  if bool_decide (n = 0%nat) then ret ∅
  else
    undirected ← read copy;
    ret (detect_on greedy_modularity_communities undirected).

Definition compute_centralities_st : M (list (string * CentralityRecord)) :=
  n ← read (λ G, length (nodes G));
  if bool_decide (n = 0%nat) then ret []
  else
    degree ← read degree_centrality;
    betweenness ← read betweenness_centrality;
    closeness ← read closeness_centrality;
    clustering ← read (clustering_weighted cbrt);
    ns ← read nodes;
    foldM (λ result node,
             attrs ← read (λ G, node_attrs G node);
             ret (OD.set node
                    (mkCentralityRecord
                       (default 0 (paper_count attrs))
                       (default "" (affiliation attrs))
                       (round4 (default 0%Qc (OD.get node degree)))
                       (round4 (default 0%Qc (betweenness !! node)))
                       (round4 (default 0%Qc (OD.get node closeness)))
                       (round4 (default 0%Qc (OD.get node clustering))))
                    result))
          [] ns.

(** *** Rendering layer: [generate_network_html] *)

Definition COMMUNITY_COLORS : list string :=
  [ "#e6194b"; "#3cb44b"; "#4363d8"; "#f58231"; "#911eb4";
    "#42d4f4"; "#f032e6"; "#bfef45"; "#fabed4"; "#469990";
    "#dcbeff"; "#9A6324"; "#800000"; "#aaffc3"; "#808000";
    "#000075"; "#a9a9a9" ].

(** What [net.add_node] and [net.add_edge] are given. *)
Record NetNode := mkNetNode {
  nn_id : string; nn_label : string; nn_size : Qc; nn_color : string; nn_title : string
}.
Record NetEdge := mkNetEdge {
  ne_from : string; ne_to : string; ne_value : Z; ne_width : Qc; ne_title : string
}.
(** The pyvis [Network] under construction. *)
Record Network := mkNetwork {
  net_height : string;
  net_nodes : list NetNode;
  net_edges : list NetEdge
}.

(** The returned string: the fixed message, or the page pyvis renders
    from the network. *)
Inductive Html :=
| NoNodesMessage
| Page (net : Network).

Definition net_add_node (net : Network) (n : NetNode) : Network :=
  if bool_decide (nn_id n ∈ map nn_id (net_nodes net)) then net
  else mkNetwork (net_height net) (net_nodes net ++ [n]) (net_edges net).

Definition net_add_edge (net : Network) (e : NetEdge) : Network :=
  if bool_decide (Exists (λ e', (ne_from e = ne_to e' ∧ ne_to e = ne_from e')
                                ∨ (ne_from e = ne_from e' ∧ ne_to e = ne_to e'))
                         (net_edges net))
  then net
  else mkNetwork (net_height net) (net_nodes net) (net_edges net ++ [e]).

(** [s.add(x)] on a set kept in insertion order. *)
Definition set_add (s : list string) (x : string) : list string :=
  if bool_decide (x ∈ s) then s else s ++ [x].

(** True division [a / b] of two ints. *)
Definition true_div (a b : Z) : M Qc :=
  if bool_decide (b = 0) then raise ZeroDivisionError
  else ret (Z2Qc a / Z2Qc b)%Qc.

Definition checked_sqrt (x : Qc) : M Qc :=
  if bool_decide (x < 0)%Qc then raise ValueError else ret (sqrt x).

Definition max_default (l : list Z) (d : Z) : Z :=
  match l with
  | [] => d
  | x :: l' => foldl Z.max x l'
  end.

(** [G.nodes[n].get("paper_count", 1)] *)
Definition get_paper_count (n : string) : M Z :=
  attrs ← read_key (λ G, OD.get n (_node G));
  ret (default 1 (paper_count attrs)).

(** [G[u][v].get("weight", 1)] *)
Definition get_weight (u v : string) : M Z :=
  nb ← read_key (λ G, OD.get u (_adj G));
  d ← read_key (λ _, OD.get v nb);
  ret (weight d).

Fixpoint mapM {A B} (f : A → M B) (l : list A) : M (list B) :=
  match l with
  | [] => ret []
  | x :: l' => y ← f x; ys ← mapM f l'; ret (y :: ys)
  end.

Definition generate_network_html (communities : gmap string Z)
    (min_coauthor : Z) (height : string) : M Html :=
  let net := mkNetwork height [] [] in
  es ← read edges;
  let filtered_edges :=
    map (λ e, (e.1.1, e.1.2)) (filter (λ e, min_coauthor ≤ weight e.2) es) in
  let nodes_in_filtered :=
    foldl (λ s '(u, v), set_add (set_add s u) v) [] filtered_edges in
  if bool_decide (nodes_in_filtered = []) then ret NoNodesMessage
  else
    pcs ← mapM get_paper_count nodes_in_filtered;
    let max_papers := max_default pcs 1 in
    net ← foldM (λ net node,
                   paper_count ← get_paper_count node;
                   attrs ← read_key (λ G, OD.get node (_node G));
                   let affiliation := default "" (affiliation attrs) in
                   let comm_id := default 0 (communities !! node) in
                   let color :=
                     default "" (COMMUNITY_COLORS
                                   !! Z.to_nat (comm_id `mod` Z.of_nat (length COMMUNITY_COLORS))) in
                   ratio ← true_div paper_count max_papers;
                   root ← checked_sqrt ratio;
                   let size := (Z2Qc 10 + Z2Qc 30 * root)%Qc in
                   let title :=
                     "<b>" +:+ node +:+ "</b><br>Papers: " +:+ pretty paper_count
                     +:+ "<br>Community: " +:+ pretty comm_id in
                   let title :=
                     if bool_decide (affiliation ≠ "")
                     then title +:+ "<br>Affiliation: " +:+ String.substring 0 100 affiliation
                     else title in
                   ret (net_add_node net (mkNetNode node node size color title)))
                net nodes_in_filtered;
    ws ← mapM (λ '(u, v), get_weight u v) filtered_edges;
    let max_weight := max_default ws 1 in
    net ← foldM (λ net '(u, v),
                   weight ← get_weight u v;
                   ratio ← true_div weight max_weight;
                   let width := (Z2Qc 1 + Z2Qc 4 * ratio)%Qc in
                   ret (net_add_edge net
                          (mkNetEdge u v weight width ("Co-authored: " +:+ pretty weight))))
                net filtered_edges;
    ret (Page net).
End Stateful.

(* ================================================================== *)
(** * Properties *)

(** Two canonical rationals are equal when their fractions are. *)
Lemma Qc_eq_this (x y : Qc) : this x = this y → x = y.
Proof. intros H. apply Qc_is_canon. rewrite H. reflexivity. Qed.

Ltac qc_compute := apply Qc_eq_this; vm_compute; reflexivity.

(* ------------------------------------------------------------------ *)
(** ** The three-article scenario *)

(** An author whose key is [k]: surname [k], no given name. *)
Definition author_named (k : string) : Author := mkAuthor k "" "".
Definition article_by (ks : list string) : Article :=
  mkArticle "" "" (map author_named ks) "" "".

Definition scenario_articles : list Article :=
  [article_by ["A"; "B"]; article_by ["B"; "C"]; article_by ["A"; "B"; "C"]].

(** C2, counterexample: in the scenario B and C share two articles, so the
    edge B-C has weight 2, not 1. *)
Lemma scenario_weight_BC :
  edge_weight (build_coauthor_network scenario_articles) "B" "C" = Some 2
  ∧ edge_weight (build_coauthor_network scenario_articles) "B" "C" ≠ Some 1.
Proof.
  assert (H : edge_weight (build_coauthor_network scenario_articles) "B" "C" = Some 2)
    by (vm_compute; reflexivity).
  rewrite H. split; [reflexivity | discriminate].
Qed.

(** C2, amended: the scenario yields the nodes A, B, C, the edges A-B of
    weight 2, A-C of weight 1 and B-C of weight 2 and no other edge, the
    paper counts 2, 3, 2, one connected component of size 3 and density 1. *)
Theorem scenario_graph :
  let G := build_coauthor_network scenario_articles in
  nodes G = ["A"; "B"; "C"]
  ∧ edges G = [("A", "B", mkEdgeAttrs 2); ("A", "C", mkEdgeAttrs 1);
               ("B", "C", mkEdgeAttrs 2)]
  ∧ edge_weight G "A" "B" = Some 2
  ∧ edge_weight G "B" "C" = Some 2
  ∧ edge_weight G "A" "C" = Some 1
  ∧ paper_count (node_attrs G "A") = Some 2
  ∧ paper_count (node_attrs G "B") = Some 3
  ∧ paper_count (node_attrs G "C") = Some 2
  ∧ connected_components G = [["A"; "B"; "C"]]
  ∧ get_network_stats G !! "connected_components" = Some (Z2Qc 1)
  ∧ get_network_stats G !! "largest_component_size" = Some (Z2Qc 3)
  ∧ get_network_stats G !! "density" = Some (Z2Qc 1).
Proof.
  cbv zeta. repeat split; try reflexivity.
  all: match goal with |- ?l = Some ?r =>
         let v := eval vm_compute in l in
         match v with Some ?x => change l with (Some x) || replace l with (Some x) by (vm_compute; reflexivity) end
       end; f_equal; qc_compute.
Qed.

(* ------------------------------------------------------------------ *)
(** ** The empty article list *)

(** C6, counterexample: on the empty graph the statistics hold no density
    (nor any field but the two counts), so that field is not zero. *)
Lemma empty_stats_no_density :
  get_network_stats (build_coauthor_network []) !! "density" = None
  ∧ get_network_stats (build_coauthor_network []) !! "density" ≠ Some 0%Qc.
Proof.
  assert (H : get_network_stats (build_coauthor_network []) !! "density" = None)
    by (vm_compute; reflexivity).
  rewrite H. split; [reflexivity | discriminate].
Qed.

(** C6, amended: the empty article list gives the graph with no node and no
    edge; on it [compute_centralities] returns the empty mapping and
    [get_network_stats] returns exactly the two entries nodes = 0 and
    edges = 0 (density, component count, largest component size and average
    clustering are absent). *)
Theorem empty_round_trip (cbrt : Qc → Qc) :
  let G := build_coauthor_network [] in
  nodes G = [] ∧ edges G = [] ∧ number_of_nodes G = 0 ∧ number_of_edges G = 0
  ∧ compute_centralities cbrt G = []
  ∧ get_network_stats G = {[ "nodes" := 0%Qc; "edges" := 0%Qc ]}
  ∧ (∀ k, k ≠ "nodes" → k ≠ "edges" → get_network_stats G !! k = None).
Proof.
  cbv zeta. repeat split; try reflexivity.
  intros k Hn He. change (get_network_stats (build_coauthor_network []))
    with (<["nodes" := 0%Qc]> (<["edges" := 0%Qc]> (∅ : gmap string Qc))).
  rewrite !lookup_insert_ne by done. apply lookup_empty.
Qed.

(* ------------------------------------------------------------------ *)
(** ** Two author entries with one key on one article *)

(** [key in {keys of the article}] *)
Definition article_has_key (k : string) (a : Article) : bool :=
  bool_decide (k ∈ map _author_key (authors a)).

(** The number of input articles on which the key appears. *)
Definition articles_with_key (k : string) (articles : list Article) : Z :=
  Z.of_nat (length (filter (λ a, article_has_key k a = true) articles)).

(** The number of input articles on which both keys appear. *)
Definition articles_with_both (a b : string) (articles : list Article) : Z :=
  Z.of_nat (length (filter (λ x, article_has_key a x = true ∧ article_has_key b x = true)
                           articles)).

(** One article whose first two authors both resolve to "Smith J". *)
Definition namesake_article : Article :=
  mkArticle "1" "T"
    [mkAuthor "Smith" "John" ""; mkAuthor "Smith" "Jane" ""; mkAuthor "Lee" "" ""]
    "2020" "J".

(** C3: on [namesake_article] the key "Smith J" appears on one article but
    its paper_count is 2: the count grows once per author entry. *)
Theorem namesake_paper_count :
  map _author_key (authors namesake_article) = ["Smith J"; "Smith J"; "Lee"]
  ∧ articles_with_key "Smith J" [namesake_article] = 1
  ∧ paper_count (node_attrs (build_coauthor_network [namesake_article]) "Smith J") = Some 2.
Proof. repeat split; reflexivity. Qed.

(** C4: on [namesake_article] the graph has the self-loop
    "Smith J"-"Smith J", and the edge "Smith J"-"Lee" has weight 2 although
    the two keys share one article. *)
Theorem namesake_self_loop :
  let G := build_coauthor_network [namesake_article] in
  has_edge G "Smith J" "Smith J" = true
  ∧ edge_weight G "Smith J" "Lee" = Some 2
  ∧ articles_with_both "Smith J" "Lee" [namesake_article] = 1.
Proof. repeat split; reflexivity. Qed.

(* ------------------------------------------------------------------ *)
(** ** Reading functions leave the caller's graph as it was *)

(** [m] returns the graph it was given, whatever it computes or raises. *)
Definition preserves {A} (m : M A) : Prop := ∀ g, (m g).2 = g.

Lemma preserves_ret {A} (a : A) : preserves (mret a).
Proof. intros g. reflexivity. Qed.

Lemma preserves_raise {A} (e : Exc) : preserves (@raise A e).
Proof. intros g. reflexivity. Qed.

Lemma preserves_read {A} (f : Graph → A) : preserves (read f).
Proof. intros g. reflexivity. Qed.

Lemma preserves_read_key {A} (f : Graph → option A) : preserves (read_key f).
Proof. intros g. unfold read_key. destruct (f g); reflexivity. Qed.

Lemma preserves_bind {A B} (m : M A) (k : A → M B) :
  preserves m → (∀ a, preserves (k a)) → preserves (m ≫= k).
Proof.
  intros Hm Hk g. unfold mbind, M_bind, bind.
  specialize (Hm g). destruct (m g) as [[e|a] g']; simpl in *; subst; [done|].
  apply Hk.
Qed.

Lemma preserves_foldM {A B} (f : B → A → M B) (l : list A) (b : B) :
  (∀ b x, preserves (f b x)) → preserves (foldM f b l).
Proof.
  intros Hf. revert b. induction l as [|x l IH]; intros b; simpl.
  - apply preserves_ret.
  - apply preserves_bind; auto.
Qed.

Lemma preserves_mapM {A B} (f : A → M B) (l : list A) :
  (∀ x, preserves (f x)) → preserves (mapM f l).
Proof.
  intros Hf. induction l as [|x l IH]; simpl.
  - apply preserves_ret.
  - apply preserves_bind; [auto|]. intros y.
    apply preserves_bind; [auto|]. intros ys. apply preserves_ret.
Qed.

(** A write does change the graph: [preserves] is not vacuous. *)
Lemma modify_not_preserved :
  ¬ preserves (modify (λ G, add_node G "A" 0 "")).
Proof. intros H. specialize (H empty_graph). vm_compute in H. discriminate H. Qed.

Create HintDb frame discriminated.
#[local] Hint Resolve preserves_ret preserves_raise preserves_read
  preserves_read_key : frame.

Ltac frame :=
  repeat first
    [ apply preserves_ret | apply preserves_raise | apply preserves_read
    | apply preserves_read_key
    | apply preserves_foldM; intros
    | apply preserves_mapM; intros
    | apply preserves_bind; [|intros]
    | match goal with
      | |- preserves (if ?b then _ else _) => destruct b
      | |- preserves (let '(_, _) := ?p in _) => destruct p
      | |- preserves (match ?p with (_, _) => _ end) => destruct p
      end ].

Section Frame.
Variable greedy_modularity_communities : Graph → option (list (list string)).
Variable cbrt sqrt : Qc → Qc.

Lemma detect_communities_st_frame :
  preserves (detect_communities_st greedy_modularity_communities).
Proof. unfold detect_communities_st. frame. Qed.

Lemma compute_centralities_st_frame : preserves (compute_centralities_st cbrt).
Proof. unfold compute_centralities_st. frame. Qed.

Lemma get_paper_count_frame n : preserves (get_paper_count n).
Proof. unfold get_paper_count. frame. Qed.

Lemma get_weight_frame u v : preserves (get_weight u v).
Proof. unfold get_weight. frame. Qed.

Lemma true_div_frame a b : preserves (true_div a b).
Proof. unfold true_div. frame. Qed.

Lemma checked_sqrt_frame x : preserves (checked_sqrt sqrt x).
Proof. unfold checked_sqrt. frame. Qed.

Lemma generate_network_html_frame communities min_coauthor height :
  preserves (generate_network_html sqrt communities min_coauthor height).
Proof.
  unfold generate_network_html.
  pose proof get_paper_count_frame. pose proof get_weight_frame.
  pose proof true_div_frame. pose proof checked_sqrt_frame.
  frame; auto.
Qed.

(** The state-passing functions compute what the pure ones do. *)
Lemma detect_communities_st_value G :
  (detect_communities_st greedy_modularity_communities G).1
  = inr (detect_communities greedy_modularity_communities G).
Proof.
  unfold detect_communities_st, detect_communities, mbind, M_bind, bind, read; simpl.
  destruct (bool_decide _); reflexivity.
Qed.

Lemma foldM_read_only {A B} (body : B → A → M B) (pure : Graph → B → A → B) l b g :
  (∀ b x, body b x g = (inr (pure g b x), g)) →
  foldM body b l g = (inr (foldl (pure g) b l), g).
Proof.
  intros Hb. revert b. induction l as [|x l IH]; intros b; simpl; [reflexivity|].
  unfold mbind, M_bind, bind. rewrite Hb. apply IH.
Qed.

Lemma compute_centralities_st_value G :
  (compute_centralities_st cbrt G).1 = inr (compute_centralities cbrt G).
Proof.
  unfold compute_centralities_st, compute_centralities.
  unfold mbind at 1, M_bind at 1, bind at 1, read at 1; simpl.
  destruct (bool_decide _); [reflexivity|].
  unfold mbind at 1 2 3 4 5, M_bind at 1 2 3 4 5, bind at 1 2 3 4 5, read at 1 2 3 4 5.
  simpl.
  erewrite (foldM_read_only _
    (λ g result node0, OD.set node0
       (mkCentralityRecord
          (default 0 (paper_count (node_attrs g node0)))
          (default "" (affiliation (node_attrs g node0)))
          (round4 (default 0%Qc (OD.get node0 (degree_centrality G))))
          (round4 (default 0%Qc (betweenness_centrality G !! node0)))
          (round4 (default 0%Qc (OD.get node0 (closeness_centrality G))))
          (round4 (default 0%Qc (OD.get node0 (clustering_weighted cbrt G)))))
       result)); [reflexivity|].
  intros b x. reflexivity.
Qed.
End Frame.

(** C9: whatever the graph, [detect_communities], [compute_centralities]
    and [generate_network_html] (for every community mapping, threshold
    [min_coauthor] and height) hand back the very graph they were given:
    nodes, edges, edge weights and node attributes are unchanged, also when
    the rendering raises. *)
Theorem analyses_do_not_mutate
    (greedy_modularity_communities : Graph → option (list (list string)))
    (cbrt sqrt : Qc → Qc) (G : Graph) :
  (detect_communities_st greedy_modularity_communities G).2 = G
  ∧ (compute_centralities_st cbrt G).2 = G
  ∧ (∀ communities min_coauthor height,
       (generate_network_html sqrt communities min_coauthor height G).2 = G).
Proof.
  split; [apply detect_communities_st_frame|].
  split; [apply compute_centralities_st_frame|].
  intros. apply generate_network_html_frame.
Qed.

(* ------------------------------------------------------------------ *)
(** ** Ordered dictionaries: lookup and update *)

Section OD_facts.
Context {V : Type}.
Implicit Types (d : list (string * V)) (k : string) (v : V).

Lemma od_get_Some d k v : OD.get k d = Some v → (k, v) ∈ d.
Proof.
  induction d as [|[k' v'] d IH]; simpl; [done|].
  destruct (decide (k' = k)) as [->|Hne]; intros Hg.
  - injection Hg as ->. left.
  - right. auto.
Qed.

Lemma od_get_None d k : OD.get k d = None ↔ k ∉ OD.keys d.
Proof.
  unfold OD.keys. induction d as [|[k' v'] d IH]; simpl.
  - split; [intros _; apply not_elem_of_nil | done].
  - rewrite not_elem_of_cons. case_decide; subst.
    + split; [done | intros [? _]; done].
    + rewrite IH. split; [intros; split; [congruence | done] | intros [_ ?]; done].
Qed.

Lemma od_get_is_Some d k : is_Some (OD.get k d) ↔ k ∈ OD.keys d.
Proof.
  rewrite <- not_eq_None_Some, od_get_None.
  split; [apply dec_stable | auto].
Qed.

Lemma od_mem_true d k : OD.mem k d = true ↔ k ∈ OD.keys d.
Proof. unfold OD.mem. rewrite bool_decide_eq_true. apply od_get_is_Some. Qed.

Lemma od_mem_false d k : OD.mem k d = false ↔ k ∉ OD.keys d.
Proof. unfold OD.mem. rewrite bool_decide_eq_false, od_get_is_Some. done. Qed.

Lemma od_elem_get d k v : NoDup (OD.keys d) → (k, v) ∈ d → OD.get k d = Some v.
Proof.
  unfold OD.keys. induction d as [|[k' v'] d IH]; simpl; intros Hnd Hin.
  - by apply elem_of_nil in Hin.
  - apply NoDup_cons in Hnd as [Hk Hnd]. apply elem_of_cons in Hin as [Heq|Hin].
    + injection Heq as -> ->. by rewrite decide_True.
    + case_decide; subst; [|auto].
      exfalso. apply Hk. apply list_elem_of_fmap. by exists (k, v).
Qed.

Lemma od_get_set_eq d k v : OD.get k (OD.set k v d) = Some v.
Proof.
  induction d as [|[k' v'] d IH]; simpl.
  - by rewrite decide_True.
  - case_decide; simpl; subst.
    + by rewrite decide_True.
    + by rewrite decide_False.
Qed.

Lemma od_get_set_ne d k k' v : k ≠ k' → OD.get k' (OD.set k v d) = OD.get k' d.
Proof.
  intros Hne. induction d as [|[k0 v0] d IH]; simpl.
  - by rewrite decide_False.
  - case_decide; simpl; subst.
    + by rewrite !decide_False.
    + case_decide; [done | auto].
Qed.

Lemma od_keys_set d k v :
  OD.keys (OD.set k v d) = if OD.mem k d then OD.keys d else OD.keys d ++ [k].
Proof.
  unfold OD.keys. induction d as [|[k0 v0] d IH]; csimpl; [done|].
  destruct (decide (k0 = k)) as [->|Hne]; csimpl.
  - replace (OD.mem k ((k, v0) :: d)) with true; [done|].
    symmetry. apply od_mem_true. left.
  - rewrite IH. destruct (OD.mem k d) eqn:Hm.
    + replace (OD.mem k ((k0, v0) :: d)) with true; [done|].
      symmetry. apply od_mem_true. right. by apply od_mem_true.
    + replace (OD.mem k ((k0, v0) :: d)) with false; [done|].
      symmetry. apply od_mem_false. apply od_mem_false in Hm.
      unfold OD.keys; csimpl. rewrite not_elem_of_cons. split; [congruence | done].
Qed.

Lemma od_keys_set_elem d k v x :
  x ∈ OD.keys (OD.set k v d) ↔ x = k ∨ x ∈ OD.keys d.
Proof.
  rewrite od_keys_set. destruct (OD.mem k d) eqn:Hm.
  - apply od_mem_true in Hm. split; [auto | intros [->|?]; done].
  - rewrite elem_of_app, list_elem_of_singleton. tauto.
Qed.

Lemma od_keys_set_NoDup d k v : NoDup (OD.keys d) → NoDup (OD.keys (OD.set k v d)).
Proof.
  intros Hnd. rewrite od_keys_set. destruct (OD.mem k d) eqn:Hm; [done|].
  apply od_mem_false in Hm. apply NoDup_app. split; [done|].
  split; [|apply NoDup_singleton].
  intros x Hx ->%list_elem_of_singleton. done.
Qed.

Lemma od_length_set d k v :
  length (OD.set k v d) = if OD.mem k d then length d else S (length d).
Proof.
  rewrite <- (length_fmap fst (OD.set k v d)), <- (length_fmap fst d).
  fold (OD.keys (OD.set k v d)). rewrite od_keys_set.
  destruct (OD.mem k d); [done|]. rewrite length_app. simpl. unfold OD.keys. lia.
Qed.
End OD_facts.

(* ------------------------------------------------------------------ *)
(** ** Well-formed graphs

    The invariants every [nx.Graph] object keeps: node and adjacency tables
    have the same keys, a neighbour is a node, and [_adj[u][v]] and
    [_adj[v][u]] hold the same edge data. *)

Definition wf_graph (G : Graph) : Prop :=
  NoDup (nodes G)
  ∧ OD.keys (_adj G) = nodes G
  ∧ Forall (λ kv, NoDup (OD.keys kv.2)
                  ∧ Forall (λ we, we.1 ∈ nodes G
                                  ∧ OD.get kv.1 (nbrs G we.1) = Some we.2) kv.2)
           (_adj G).

#[global] Instance wf_graph_dec G : Decision (wf_graph G).
Proof. unfold wf_graph. apply _. Defined.

(** No edge from a node to itself. *)
Definition no_self_loops (G : Graph) : Prop :=
  Forall (λ v, v ∉ neighbors G v) (nodes G).

#[global] Instance no_self_loops_dec G : Decision (no_self_loops G).
Proof. unfold no_self_loops. apply _. Defined.

Section WF.
Variable G : Graph.
Hypothesis Hwf : wf_graph G.

Lemma wf_nodes_NoDup : NoDup (nodes G).
Proof. apply Hwf. Qed.

Lemma wf_nbrs_row v : v ∈ nodes G → (v, nbrs G v) ∈ _adj G.
Proof.
  intros Hv. destruct Hwf as (_ & Hk & _). rewrite <- Hk in Hv.
  apply od_get_is_Some in Hv as [ns Hns]. unfold nbrs. rewrite Hns. simpl.
  by apply od_get_Some.
Qed.

Lemma wf_nbrs_nil v : v ∉ nodes G → nbrs G v = [].
Proof.
  intros Hv. destruct Hwf as (_ & Hk & _). rewrite <- Hk in Hv.
  apply od_get_None in Hv. unfold nbrs. by rewrite Hv.
Qed.

Lemma wf_neighbors_NoDup v : NoDup (neighbors G v).
Proof.
  destruct (decide (v ∈ nodes G)) as [Hv|Hv].
  - destruct Hwf as (_ & _ & Hall). rewrite Forall_forall in Hall.
    apply (Hall _ (wf_nbrs_row v Hv)).
  - unfold neighbors. rewrite wf_nbrs_nil by done. constructor.
Qed.

Lemma wf_neighbor_data v w d :
  (w, d) ∈ nbrs G v → w ∈ nodes G ∧ v ∈ nodes G ∧ OD.get v (nbrs G w) = Some d.
Proof.
  intros Hin. destruct (decide (v ∈ nodes G)) as [Hv|Hv].
  - destruct Hwf as (_ & _ & Hall). rewrite Forall_forall in Hall.
    destruct (Hall _ (wf_nbrs_row v Hv)) as [_ Hrow]. rewrite Forall_forall in Hrow.
    destruct (Hrow _ Hin) as [? ?]. done.
  - rewrite wf_nbrs_nil in Hin by done. by apply elem_of_nil in Hin.
Qed.

Lemma wf_neighbor v w :
  w ∈ neighbors G v → w ∈ nodes G ∧ v ∈ nodes G ∧ v ∈ neighbors G w.
Proof.
  intros Hin. apply list_elem_of_fmap in Hin as ([w' d] & -> & Hin).
  destruct (wf_neighbor_data _ _ _ Hin) as (? & ? & Hg). repeat split; try done.
  apply od_get_Some in Hg. apply list_elem_of_fmap. by exists (v, d).
Qed.

Lemma wf_weight_sym v w : edge_weight G v w = edge_weight G w v.
Proof.
  unfold edge_weight.
  destruct (OD.get w (nbrs G v)) as [d|] eqn:Hvw.
  - apply od_get_Some, wf_neighbor_data in Hvw as (_ & _ & ->). done.
  - destruct (OD.get v (nbrs G w)) as [d|] eqn:Hwv; [|done].
    apply od_get_Some, wf_neighbor_data in Hwv as (_ & _ & Hg). congruence.
Qed.
End WF.

(* ------------------------------------------------------------------ *)
(** ** Breadth-first search *)

Lemma foldl_ext {A B} (f g : A → B → A) (a : A) (l : list B) :
  (∀ a b, f a b = g a b) → foldl f a l = foldl g a l.
Proof.
  intros Hfg. revert a. induction l as [|x l IH]; intros a; simpl; [done|].
  by rewrite Hfg, IH.
Qed.

(** [w] can be reached from [u] along edges. *)
Definition reach (G : Graph) : relation string := rtc (λ u w, w ∈ neighbors G u).

Definition bfs_step (st : gset string * list string) (w : string)
  : gset string * list string :=
  if decide (w ∈ st.1) then st else ({[w]} ∪ st.1, st.2 ++ [w]).

Lemma bfs_scan_step G st v : bfs_scan G st v = foldl bfs_step st (neighbors G v).
Proof.
  unfold bfs_scan. apply foldl_ext. intros [seen next] w. unfold bfs_step; simpl.
  by destruct (decide (w ∈ seen)).
Qed.

Lemma bfs_level_step G st vs :
  foldl (bfs_scan G) st vs = foldl bfs_step st (vs ≫= neighbors G).
Proof.
  revert st. induction vs as [|v vs IH]; intros st; csimpl; [done|].
  rewrite foldl_app, <- bfs_scan_step. apply IH.
Qed.

Lemma bfs_step_spec ws seen next :
  ∃ added,
    foldl bfs_step (seen, next) ws = (seen ∪ list_to_set added, next ++ added)
    ∧ NoDup added
    ∧ (∀ x, x ∈ added ↔ x ∈ ws ∧ x ∉ seen).
Proof.
  revert seen next. induction ws as [|w ws IH]; intros seen next; simpl.
  - exists []. simpl. rewrite app_nil_r, union_empty_r_L.
    split; [done|]. split; [constructor|]. set_solver.
  - unfold bfs_step at 2; simpl. destruct (decide (w ∈ seen)) as [Hw|Hw].
    + destruct (IH seen next) as (added & -> & Hnd & Hin).
      exists added. split; [done|]. split; [done|].
      intros x. rewrite Hin. set_solver.
    + destruct (IH ({[w]} ∪ seen) (next ++ [w])) as (added & -> & Hnd & Hin).
      exists (w :: added). simpl. rewrite <- app_assoc. simpl.
      split; [f_equal; set_solver|].
      split.
      * constructor; [|done]. rewrite Hin. set_solver.
      * intros x. rewrite elem_of_cons, Hin. clear -Hw.
        destruct (decide (x = w)) as [->|?]; set_solver.
Qed.

Definition bfs_inv (G : Graph) (source : string) (seen : gset string)
    (thislevel : list string) (acc : list (string * Z)) : Prop :=
  NoDup acc.*1
  ∧ (∀ x, x ∈ seen ↔ x ∈ acc.*1)
  ∧ (∀ x, x ∈ thislevel → x ∈ acc.*1)
  ∧ (∀ u, u ∈ acc.*1 → u ∉ thislevel → ∀ w, w ∈ neighbors G u → w ∈ acc.*1)
  ∧ (∀ x, x ∈ acc.*1 → x ∈ nodes G ∧ reach G source x).

Section BFS.
Variable G : Graph.
Hypothesis Hwf : wf_graph G.

Lemma bfs_inv_level source seen thislevel acc level seen' next :
  bfs_inv G source seen thislevel acc →
  foldl (bfs_scan G) (seen, []) thislevel = (seen', next) →
  bfs_inv G source seen' next (acc ++ map (λ w, (w, level + 1)) next)
  ∧ NoDup next.
Proof.
  intros (Hnd & Hseen & Hlev & Hcl & Hnodes) Hf.
  rewrite bfs_level_step in Hf.
  destruct (bfs_step_spec (thislevel ≫= neighbors G) seen []) as (added & Hr & Hnd' & Hin).
  rewrite Hr in Hf. simpl in Hf. injection Hf as <- <-.
  assert (Hkeys : (acc ++ map (λ w, (w, level + 1)) added).*1 = acc.*1 ++ added).
  { rewrite fmap_app. f_equal. rewrite <- list_fmap_compose.
    rewrite <- (list_fmap_id added) at 2. by apply list_fmap_ext. }
  split; [|done]. unfold bfs_inv. rewrite Hkeys.
  split.
  { apply NoDup_app. split; [done|]. split; [|done].
    intros x Hx Hx'. apply Hin in Hx' as [_ Hns]. apply Hns, Hseen, Hx. }
  split.
  { intros x. rewrite elem_of_union, elem_of_list_to_set, elem_of_app, Hseen. done. }
  split.
  { intros x Hx. apply elem_of_app. by right. }
  split.
  { intros u Hu Hnu w Hw. apply elem_of_app.
    apply elem_of_app in Hu as [Hu|Hu]; [|done].
    destruct (decide (u ∈ thislevel)) as [Hul|Hul].
    - destruct (decide (w ∈ seen)) as [Hs|Hs]; [left; by apply Hseen|].
      right. apply Hin. split; [|done]. apply list_elem_of_bind. eauto.
    - left. eauto. }
  intros x Hx. apply elem_of_app in Hx as [Hx|Hx]; [auto|].
  apply Hin in Hx as [Hx _]. apply list_elem_of_bind in Hx as (u & Hxu & Hu).
  destruct (Hnodes u (Hlev u Hu)) as [_ Hru].
  split; [by apply (wf_neighbor G Hwf u x)|].
  eapply rtc_r; [exact Hru | exact Hxu].
Qed.

Lemma bfs_inv_bound source seen thislevel acc :
  bfs_inv G source seen thislevel acc → (length acc ≤ length (nodes G))%nat.
Proof.
  intros (Hnd & _ & _ & _ & Hnodes).
  rewrite <- (length_fmap fst acc). apply submseteq_length, NoDup_submseteq; [done|].
  intros x Hx. by apply Hnodes.
Qed.

Lemma bfs_levels_spec fuel source seen thislevel level acc :
  bfs_inv G source seen thislevel acc →
  (thislevel ≠ [] → length (nodes G) < fuel + length acc)%nat →
  let R := bfs_levels fuel G seen thislevel level acc in
  NoDup R.*1
  ∧ (∀ x, x ∈ acc → x ∈ R)
  ∧ (∀ u w, u ∈ R.*1 → w ∈ neighbors G u → w ∈ R.*1)
  ∧ (∀ x, x ∈ R.*1 → x ∈ nodes G ∧ reach G source x).
Proof.
  revert seen thislevel level acc.
  induction fuel as [|fuel IH]; intros seen thislevel level acc Hinv Hfuel; simpl.
  - assert (thislevel = []) as ->.
    { destruct thislevel; [done|]. exfalso.
      pose proof (bfs_inv_bound _ _ _ _ Hinv). specialize (Hfuel ltac:(done)). lia. }
    destruct Hinv as (Hnd & _ & _ & Hcl & Hnodes).
    repeat split; try done; try (by apply Hnodes).
    intros u w Hu Hw. apply (Hcl u Hu); [apply not_elem_of_nil | done].
  - destruct thislevel as [|v0 tl] eqn:Hl.
    + destruct Hinv as (Hnd & _ & _ & Hcl & Hnodes).
      repeat split; try done; try (by apply Hnodes).
      intros u w Hu Hw. apply (Hcl u Hu); [apply not_elem_of_nil | done].
    + rewrite <- Hl in *.
      destruct (foldl (bfs_scan G) (seen, []) thislevel) as [seen' next] eqn:Hf.
      destruct (bfs_inv_level _ _ _ _ level _ _ Hinv Hf) as [Hinv' Hndn].
      specialize (IH seen' next (level + 1) _ Hinv').
      destruct IH as (H1 & H2 & H3 & H4).
      { intros Hne. rewrite length_app, length_map.
        specialize (Hfuel ltac:(by rewrite Hl)).
        destruct next; [done|]. simpl. lia. }
      split; [done|]. split; [|done].
      intros x Hx. apply H2. apply elem_of_app. by left.
Qed.

(** The search from a node of the graph. *)
Lemma bfs_init_inv source :
  source ∈ nodes G → bfs_inv G source {[source]} [source] [(source, 0)].
Proof.
  intros Hs. unfold bfs_inv; simpl.
  split; [apply NoDup_singleton|].
  split; [set_solver|]. split; [done|].
  split.
  - intros u Hu Hnu. set_solver.
  - intros x ->%list_elem_of_singleton. split; [done | apply rtc_refl].
Qed.

Lemma sssp_spec source :
  source ∈ nodes G →
  let R := single_source_shortest_path_length G source in
  NoDup R.*1
  ∧ (source, 0) ∈ R
  ∧ (∀ u w, u ∈ R.*1 → w ∈ neighbors G u → w ∈ R.*1)
  ∧ (∀ x, x ∈ R.*1 → x ∈ nodes G ∧ reach G source x).
Proof.
  intros Hs. unfold single_source_shortest_path_length.
  destruct (bfs_levels_spec (length (_node G)) source {[source]} [source] 0
              [(source, 0)] (bfs_init_inv source Hs)) as (H1 & H2 & H3 & H4).
  { intros _. simpl. unfold nodes, OD.keys. rewrite length_fmap. lia. }
  repeat split; try done; try (by apply H4).
  apply H2. left.
Qed.
End BFS.

(* ------------------------------------------------------------------ *)
(** ** Connected components *)

(** [blocks] splits [universe]: no block is empty, no element occurs twice,
    and the elements are those of [universe]. *)
Definition is_partition (blocks : list (list string)) (universe : list string) : Prop :=
  Forall (λ b, b ≠ []) blocks
  ∧ NoDup (concat blocks)
  ∧ (∀ x, x ∈ concat blocks ↔ x ∈ universe).

(** A set of nodes that no edge leaves. *)
Definition closed (G : Graph) (S : gset string) : Prop :=
  ∀ u w, u ∈ S → w ∈ neighbors G u → w ∈ S.

Lemma closed_reach G S u w : closed G S → reach G u w → u ∈ S → w ∈ S.
Proof. intros Hc Hr. induction Hr as [|x y z Hxy _ IH]; [done|]. intros Hx. eauto. Qed.

Section Components.
Variable G : Graph.
Hypothesis Hwf : wf_graph G.

Lemma reach_sym u w : reach G u w → reach G w u.
Proof.
  intros Hr. induction Hr as [|x y z Hxy _ IH]; [apply rtc_refl|].
  eapply rtc_r; [exact IH|]. by apply (wf_neighbor G Hwf x y).
Qed.

Lemma plain_bfs_spec v :
  v ∈ nodes G →
  NoDup (_plain_bfs G v) ∧ v ∈ _plain_bfs G v
  ∧ closed G (list_to_set (_plain_bfs G v))
  ∧ (∀ x, x ∈ _plain_bfs G v → x ∈ nodes G ∧ reach G v x).
Proof.
  intros Hv. destruct (sssp_spec G Hwf v Hv) as (H1 & H2 & H3 & H4).
  unfold _plain_bfs. split; [done|]. split.
  { apply list_elem_of_fmap. by exists (v, 0). }
  split; [|done].
  intros u w Hu Hw. apply elem_of_list_to_set. apply elem_of_list_to_set in Hu. eauto.
Qed.

Lemma cc_loop_spec vs seen :
  (∀ v, v ∈ vs → v ∈ nodes G) → closed G seen →
  let cs := cc_loop G vs seen in
  Forall (λ c, c ≠ [] ∧ closed G (list_to_set c)) cs
  ∧ NoDup (concat cs)
  ∧ (∀ x, x ∈ concat cs → x ∉ seen ∧ x ∈ nodes G)
  ∧ (∀ v, v ∈ vs → v ∈ seen ∨ v ∈ concat cs).
Proof.
  revert seen. induction vs as [|v vs IH]; intros seen Hvs Hcl; simpl.
  - split; [constructor|]. split; [constructor|]. split; intros x Hx; by apply elem_of_nil in Hx.
  - assert (Hvs' : ∀ x, x ∈ vs → x ∈ nodes G) by (intros; apply Hvs; by right).
    destruct (decide (v ∈ seen)) as [Hv|Hv].
    + destruct (IH seen Hvs' Hcl) as (H1 & H2 & H3 & H4).
      split; [done|]. split; [done|]. split; [done|].
      intros x Hx. apply elem_of_cons in Hx as [Hx|Hx]; [subst x; by left | auto].
    + destruct (plain_bfs_spec v (Hvs v (list_elem_of_here _ _))) as (Hnd & Hin & Hclc & Hr).
      set (c := _plain_bfs G v) in *.
      assert (Hdisj : ∀ x, x ∈ c → x ∉ seen).
      { intros x Hx Hs. apply Hv. eapply closed_reach; [exact Hcl | | exact Hs].
        apply reach_sym. by apply Hr. }
      destruct (IH (seen ∪ list_to_set c)) as (H1 & H2 & H3 & H4); [done| |].
      { intros u w [Hu|Hu]%elem_of_union Hw; apply elem_of_union; [left|right]; eauto. }
      split.
      { constructor; [|done]. split; [|done]. intros ->. by apply elem_of_nil in Hin. }
      split.
      { simpl. apply NoDup_app. split; [done|]. split; [|done].
        intros x Hx Hx'. apply H3 in Hx' as [Hns _]. apply Hns.
        apply elem_of_union. right. by apply elem_of_list_to_set. }
      split.
      { simpl. intros x [Hx|Hx]%elem_of_app.
        - split; [by apply Hdisj | by apply Hr].
        - apply H3 in Hx as [Hns ?]. split; [|done]. set_solver. }
      intros x Hx. apply elem_of_cons in Hx as [Hx|Hx]; [subst x|].
      * right. simpl. apply elem_of_app. by left.
      * destruct (H4 x Hx) as [[?|Hc]%elem_of_union|?]; [by left| |].
        -- right. simpl. apply elem_of_app. left. by apply elem_of_list_to_set in Hc.
        -- right. simpl. apply elem_of_app. by right.
Qed.

(** The components split the node set, and no edge leaves a component. *)
Lemma connected_components_spec :
  is_partition (connected_components G) (nodes G)
  ∧ Forall (λ c, closed G (list_to_set c)) (connected_components G).
Proof.
  destruct (cc_loop_spec (nodes G) ∅) as (H1 & H2 & H3 & H4); [done| |].
  { intros u w Hu. set_solver. }
  split; [split; [|split]|].
  - eapply Forall_impl; [exact H1|]. by intros c [? _].
  - done.
  - intros x. split; [intros Hx; by apply H3 in Hx as [_ ?] | intros Hx].
    destruct (H4 x Hx) as [?|?]; [set_solver | done].
  - eapply Forall_impl; [exact H1|]. by intros c [_ ?].
Qed.
End Components.
(* ------------------------------------------------------------------ *)
(** ** Community detection: ids are handed out block by block *)

Lemma elem_of_concat {A} (x : A) (ls : list (list A)) :
  x ∈ concat ls ↔ ∃ l, x ∈ l ∧ l ∈ ls.
Proof.
  induction ls as [|l ls IH]; simpl.
  - split; [intros H; by apply elem_of_nil in H | intros (l & _ & H); by apply elem_of_nil in H].
  - rewrite elem_of_app, IH. split.
    + intros [H|(l' & H1 & H2)]; [exists l; split; [done | left] | exists l'; split; [done | by right]].
    + intros (l' & H1 & H2). apply elem_of_cons in H2 as [->|H2]; [by left | right; eauto].
Qed.

Lemma copy_eq G : copy G = G.
Proof. by destruct G. Qed.

Lemma assign_all_lookup m comm id v :
  assign_all m comm id !! v = if decide (v ∈ comm) then Some id else m !! v.
Proof.
  unfold assign_all. revert m. induction comm as [|x comm IH]; intros m.
  - destruct (decide (v ∈ [])) as [Hin|_]; [by apply elem_of_nil in Hin | done].
  - change (foldl (λ m0 n, <[n:=id]> m0) m (x :: comm))
      with (foldl (λ m0 n, <[n:=id]> m0) (<[x:=id]> m) comm).
    rewrite IH. destruct (decide (v ∈ comm)) as [Hin|Hin].
    + rewrite decide_True; [done | by right].
    + destruct (decide (v = x)) as [->|Hne].
      * rewrite lookup_insert_eq. rewrite decide_True; [done | left].
      * rewrite lookup_insert_ne by done. rewrite decide_False; [done|].
        rewrite not_elem_of_cons. done.
Qed.

Lemma visit_comm_counter bs m id :
  (foldl visit_comm (m, id) bs).2 = id + Z.of_nat (length bs).
Proof.
  revert m id. induction bs as [|b bs IH]; intros m id; simpl; [lia|].
  rewrite IH. lia.
Qed.

(** With disjoint blocks, a node has id [id + j] exactly when it lies in
    the [j]-th block. *)
Lemma visit_comm_lookup bs m id v i :
  NoDup (concat bs) →
  (foldl visit_comm (m, id) bs).1 !! v = Some i
  ↔ (∃ j b, bs !! j = Some b ∧ v ∈ b ∧ i = id + Z.of_nat j)
    ∨ (v ∉ concat bs ∧ m !! v = Some i).
Proof.
  revert m id. induction bs as [|b bs IH]; intros m id Hnd; simpl.
  - split.
    + intros Hm. right. split; [apply not_elem_of_nil | done].
    + intros [(j & b & Hj & _)|[_ ?]]; [by rewrite lookup_nil in Hj | done].
  - simpl in Hnd. apply NoDup_app in Hnd as (Hb & Hdisj & Hrest).
    rewrite (IH _ _ Hrest). rewrite assign_all_lookup. split.
    + intros [(j & b' & Hj & Hv & ->)|[Hn Hm]].
      * left. exists (S j), b'. split; [done|]. split; [done | lia].
      * destruct (decide (v ∈ b)) as [Hvb|Hvb].
        -- left. exists 0%nat, b. injection Hm as <-. split; [done|]. split; [done | lia].
        -- right. split; [|done]. rewrite elem_of_app. tauto.
    + intros [(j & b' & Hj & Hv & ->)|[Hn Hm]].
      * destruct j as [|j]; simpl in Hj.
        -- injection Hj as ->. right. split; [by apply Hdisj|].
           rewrite decide_True by done. f_equal. lia.
        -- left. exists j, b'. split; [done|]. split; [done | lia].
      * rewrite elem_of_app in Hn. right. split; [tauto|].
        rewrite decide_False; [done | tauto].
Qed.

Lemma partition_bind (f : list string → list (list string)) cs univ :
  is_partition cs univ →
  (∀ c, c ∈ cs → is_partition (f c) c) →
  is_partition (cs ≫= f) univ.
Proof.
  intros (Hne & Hnd & Hel) Hf.
  assert (Hsame : ∀ x, x ∈ concat (cs ≫= f) ↔ x ∈ concat cs).
  { clear Hne Hnd Hel. induction cs as [|c cs IH]; intros x; csimpl; [done|].
    rewrite concat_app, !elem_of_app.
    destruct (Hf c ltac:(apply list_elem_of_here)) as (_ & _ & Hc).
    rewrite Hc, IH; [done|]. intros c' Hc'. apply Hf. by right. }
  split; [|split].
  - apply Forall_forall. intros b Hb. apply list_elem_of_bind in Hb as (c & Hb & Hc).
    destruct (Hf c Hc) as (Hn & _). rewrite Forall_forall in Hn. by apply Hn.
  - clear Hne Hel Hsame. induction cs as [|c cs IH]; csimpl; [constructor|].
    simpl in Hnd. apply NoDup_app in Hnd as (Hc & Hdisj & Hrest).
    rewrite concat_app. apply NoDup_app.
    destruct (Hf c ltac:(apply list_elem_of_here)) as (_ & Hndc & Helc).
    split; [done|]. split.
    + intros x Hx Hx'. apply (Hdisj x); [by apply Helc|].
      clear -Hx' Hf. induction cs as [|c' cs IH]; csimpl in *; [done|].
      rewrite concat_app in Hx'. apply elem_of_app in Hx' as [Hx'|Hx'].
      * apply elem_of_app. left.
        by apply (Hf c' ltac:(set_solver)).
      * apply elem_of_app. right. apply IH; [|done].
        intros c0 Hc0. apply Hf. set_solver.
    + apply IH; [exact Hrest|]. intros c' Hc'. apply Hf. by right.
  - intros x. by rewrite Hsame.
Qed.

Lemma subgraph_nodes U comp x :
  x ∈ nodes (subgraph U comp) ↔ x ∈ comp ∧ x ∈ nodes U.
Proof.
  unfold nodes, subgraph, OD.keys; simpl. rewrite !list_elem_of_fmap. split.
  - intros ([k a] & -> & Hin). apply list_elem_of_filter in Hin as [Hc Hin]. simpl in *.
    split; [done|]. by exists (k, a).
  - intros (Hc & [k a] & -> & Hin). exists (k, a). split; [done|].
    apply list_elem_of_filter. done.
Qed.

Section Detect.
Variable greedy_modularity_communities : Graph → option (list (list string)).

(** What the library documents: the returned communities split the node
    set of the graph they were computed on. *)
Definition greedy_contract : Prop :=
  ∀ H comms, greedy_modularity_communities H = Some comms →
             is_partition comms (nodes H).

(** The groups that receive one id each while [comp] is visited. *)
Definition blocks_of (U : Graph) (comp : list string) : list (list string) :=
  if (length comp <? 3)%nat then [comp]
  else match greedy_modularity_communities (subgraph U comp) with
       | Some comms => comms
       | None => [comp]
       end.

Lemma visit_component_blocks U st comp :
  visit_component greedy_modularity_communities U st comp
  = foldl visit_comm st (blocks_of U comp).
Proof.
  unfold visit_component, blocks_of. destruct st as [m id].
  destruct (length comp <? 3)%nat; [done|].
  by destruct (greedy_modularity_communities _).
Qed.

Lemma detect_communities_blocks G :
  detect_communities greedy_modularity_communities G
  = (foldl visit_comm (∅, 0) (connected_components G ≫= blocks_of G)).1.
Proof.
  unfold detect_communities. rewrite copy_eq. case_bool_decide as Hn.
  - apply nil_length_inv in Hn. unfold connected_components. by rewrite Hn.
  - unfold detect_on. f_equal. generalize (∅ : gmap string Z, 0).
    induction (connected_components G) as [|c cs IH]; intros st; csimpl; [done|].
    rewrite foldl_app, <- visit_component_blocks. apply IH.
Qed.

Hypothesis Hgreedy : greedy_contract.
Variable G : Graph.
Hypothesis Hwf : wf_graph G.

Lemma blocks_of_partition comp :
  comp ∈ connected_components G → is_partition (blocks_of G comp) comp.
Proof.
  intros Hc. destruct (connected_components_spec G Hwf) as [(Hne & Hnd & Hel) _].
  assert (Hcne : comp ≠ []) by (rewrite Forall_forall in Hne; by apply Hne).
  assert (Hcnd : NoDup comp).
  { apply list_elem_of_split in Hc as (l1 & l2 & Heq). rewrite Heq in Hnd.
    rewrite concat_app in Hnd. simpl in Hnd.
    apply NoDup_app in Hnd as (_ & _ & Hnd). by apply NoDup_app in Hnd as (? & _). }
  assert (Hsingle : is_partition [comp] comp).
  { split; [by constructor|]. simpl. rewrite app_nil_r. done. }
  unfold blocks_of. destruct (length comp <? 3)%nat; [done|].
  destruct (greedy_modularity_communities (subgraph G comp)) as [comms|] eqn:Hg; [|done].
  destruct (Hgreedy _ _ Hg) as (H1 & H2 & H3).
  split; [done|]. split; [done|]. intros x. rewrite H3, subgraph_nodes.
  split; [tauto|]. intros Hx. split; [done|]. apply Hel.
  apply elem_of_concat. eauto.
Qed.

Lemma blocks_partition :
  is_partition (connected_components G ≫= blocks_of G) (nodes G).
Proof.
  apply partition_bind; [apply (connected_components_spec G Hwf)|].
  apply blocks_of_partition.
Qed.

Lemma detect_communities_lookup v i :
  detect_communities greedy_modularity_communities G !! v = Some i
  ↔ ∃ j b, (connected_components G ≫= blocks_of G) !! j = Some b
           ∧ v ∈ b ∧ i = Z.of_nat j.
Proof.
  rewrite detect_communities_blocks.
  destruct blocks_partition as (_ & Hnd & _).
  rewrite (visit_comm_lookup _ _ _ _ _ Hnd). split.
  - intros [(j & b & ? & ? & ->)|[_ Hm]]; [|by rewrite lookup_empty in Hm].
    exists j, b. split; [done|]. split; [done | lia].
  - intros (j & b & ? & ? & ->). left. exists j, b. split; [done|]. split; [done | lia].
Qed.

Lemma detect_communities_dom v :
  is_Some (detect_communities greedy_modularity_communities G !! v) ↔ v ∈ nodes G.
Proof.
  destruct blocks_partition as (_ & _ & Hel). rewrite <- Hel. split.
  - intros [i Hi]. apply detect_communities_lookup in Hi as (j & b & Hj & Hv & _).
    apply elem_of_concat. exists b. split; [done|]. by eapply list_elem_of_lookup_2.
  - intros Hv. apply elem_of_concat in Hv as (b & Hv & Hb).
    apply list_elem_of_lookup in Hb as [j Hj]. exists (Z.of_nat j).
    apply detect_communities_lookup. eauto.
Qed.

Lemma detect_communities_single_block comp :
  comp ∈ connected_components G → blocks_of G comp = [comp] →
  ∃ id, (∀ v, v ∈ comp → detect_communities greedy_modularity_communities G !! v = Some id)
        ∧ (∀ v, detect_communities greedy_modularity_communities G !! v = Some id → v ∈ comp).
Proof.
  intros Hc Hb.
  assert (Hin : comp ∈ connected_components G ≫= blocks_of G).
  { apply list_elem_of_bind. exists comp. split; [|done]. rewrite Hb. left. }
  apply list_elem_of_lookup in Hin as [j Hj]. exists (Z.of_nat j). split.
  - intros v Hv. apply detect_communities_lookup. eauto.
  - intros v Hv. apply detect_communities_lookup in Hv as (j' & b & Hj' & Hv & Heq).
    apply Nat2Z.inj in Heq as ->. congruence.
Qed.
End Detect.

(** The community ids in use, and the number of members of one id. *)
Definition community_ids (m : gmap string Z) : list Z :=
  remove_dups (map_to_list m).*2.
Definition community_size (m : gmap string Z) (i : Z) : nat :=
  length (filter (λ kv, kv.2 = i) (map_to_list m)).

Lemma sum_indicator (ids : list Z) (i0 : Z) :
  NoDup ids → i0 ∈ ids →
  sum_list (map (λ i, if decide (i0 = i) then 1%nat else 0%nat) ids) = 1%nat.
Proof.
  induction ids as [|i ids IH]; intros Hnd Hin; [by apply elem_of_nil in Hin|].
  apply NoDup_cons in Hnd as [Hni Hnd]. simpl.
  destruct (decide (i0 = i)) as [->|Hne].
  - assert (Hz : sum_list (map (λ j, if decide (i = j) then 1%nat else 0%nat) ids) = 0%nat).
    { clear -Hni. induction ids as [|j ids IH]; simpl; [done|].
      apply not_elem_of_cons in Hni as [? ?]. rewrite decide_False by done. simpl.
      by apply IH. }
    by rewrite Hz.
  - apply elem_of_cons in Hin as [?|Hin]; [done|]. by rewrite (IH Hnd Hin).
Qed.

Lemma count_by_id (l : list (string * Z)) (ids : list Z) :
  NoDup ids → (∀ kv, kv ∈ l → kv.2 ∈ ids) →
  sum_list (map (λ i, length (filter (λ kv, kv.2 = i) l)) ids) = length l.
Proof.
  intros Hnd. induction l as [|[k i0] l IH]; intros Hin.
  - clear. induction ids as [|i ids IHi]; simpl; [done|]. exact IHi.
  - assert (Hsplit : ∀ ids' : list Z,
              sum_list (map (λ i, length (filter (λ kv, kv.2 = i) ((k, i0) :: l))) ids')
              = (sum_list (map (λ i, if decide (i0 = i) then 1%nat else 0%nat) ids')
                 + sum_list (map (λ i, length (filter (λ kv, kv.2 = i) l)) ids'))%nat).
    { clear. induction ids' as [|i ids' IHi]; [done|].
      cbn [map sum_list foldr]. rewrite filter_cons. cbn [snd].
      change (foldr Nat.add 0%nat) with sum_list in *.
      fold (sum_list (map (λ i, length (filter (λ kv, kv.2 = i) ((k, i0) :: l))) ids')).
      rewrite IHi. destruct (decide (i0 = i)); simpl; lia. }
    rewrite Hsplit, IH by (intros; apply Hin; by right).
    rewrite (sum_indicator ids i0 Hnd) by (apply (Hin (k, i0)); left). done.
Qed.

(** A grouping routine for examples: it raises on graphs of three nodes
    and puts every node in a community of its own otherwise. *)
Definition singletons_or_fail (H : Graph) : option (list (list string)) :=
  if decide (length (nodes H) = 3%nat) then None
  else Some (map (λ v, [v]) (remove_dups (nodes H))).

Lemma singletons_or_fail_contract : greedy_contract singletons_or_fail.
Proof.
  intros H comms. unfold singletons_or_fail. case_decide; [done|].
  intros [= <-].
  assert (Hc : ∀ l : list string, concat (map (λ v, [v]) l) = l).
  { induction l as [|x l IH]; simpl; [done | by rewrite IH]. }
  split; [|split].
  - apply Forall_forall. intros b Hb. apply list_elem_of_fmap in Hb as (v & -> & _). done.
  - rewrite Hc. apply NoDup_remove_dups.
  - intros x. rewrite Hc. apply elem_of_remove_dups.
Qed.

(** Three groups: a pair, a chain of four and a triangle. *)
Definition communities_example : Graph :=
  build_coauthor_network
    [article_by ["A"; "B"]; article_by ["C"; "D"; "E"]; article_by ["E"; "F"];
     article_by ["G"; "H"; "I"]].

(** C7: with a grouping routine that meets its contract, on a well-formed
    graph: the empty graph gives the empty mapping; all members of a
    component of fewer than 3 nodes, and of a component on which the
    grouping raises, share one id that no other node has; and every node of
    the graph receives an id (the pass goes on after a fallback).  The
    function is total: no input makes it raise. *)
Theorem detect_communities_fallbacks
    (greedy_modularity_communities : Graph → option (list (list string))) (G : Graph) :
  greedy_contract greedy_modularity_communities → wf_graph G →
  let m := detect_communities greedy_modularity_communities G in
  (nodes G = [] → m = ∅)
  ∧ (∀ comp, comp ∈ connected_components G →
       (length comp < 3)%nat ∨ greedy_modularity_communities (subgraph (copy G) comp) = None →
       ∃ id, (∀ v, v ∈ comp → m !! v = Some id) ∧ (∀ v, m !! v = Some id → v ∈ comp))
  ∧ (∀ v, v ∈ nodes G → is_Some (m !! v)).
Proof.
  intros Hg Hwf m. split; [|split].
  - intros Hn. unfold m, detect_communities. by rewrite Hn.
  - intros comp Hc Hsmall.
    apply (detect_communities_single_block _ Hg G Hwf comp Hc).
    unfold blocks_of. rewrite copy_eq in Hsmall.
    destruct (length comp <? 3)%nat eqn:Hlt; [done|].
    destruct Hsmall as [Hl| ->]; [|done].
    apply Nat.ltb_ge in Hlt. lia.
  - intros v Hv. by apply (detect_communities_dom _ Hg G Hwf).
Qed.

Lemma detect_communities_fallbacks_example :
  greedy_contract singletons_or_fail ∧ wf_graph communities_example
  ∧ connected_components communities_example
    = [["A"; "B"]; ["C"; "D"; "E"; "F"]; ["G"; "H"; "I"]]
  ∧ (∀ v, v ∈ nodes communities_example →
          is_Some (detect_communities singletons_or_fail communities_example !! v)).
Proof.
  split; [apply singletons_or_fail_contract|].
  split; [by apply (bool_decide_unpack _); vm_compute|].
  split; [reflexivity|].
  apply (detect_communities_fallbacks singletons_or_fail communities_example
           singletons_or_fail_contract).
  by apply (bool_decide_unpack _); vm_compute.
Defined.

(** C8: with a grouping routine that meets its contract, on a well-formed
    graph the returned mapping is defined exactly on the nodes of the graph,
    gives each node one id, and the sizes of the communities add up to the
    number of nodes. *)
Theorem detect_communities_partition
    (greedy_modularity_communities : Graph → option (list (list string))) (G : Graph) :
  greedy_contract greedy_modularity_communities → wf_graph G →
  let m := detect_communities greedy_modularity_communities G in
  (∀ v, v ∈ nodes G ↔ is_Some (m !! v))
  ∧ (∀ v, v ∈ nodes G → ∃ i, m !! v = Some i ∧ ∀ j, m !! v = Some j → j = i)
  ∧ sum_list (map (community_size m) (community_ids m)) = length (nodes G).
Proof.
  intros Hg Hwf m.
  assert (Hdom : ∀ v, v ∈ nodes G ↔ is_Some (m !! v)).
  { intros v. symmetry. apply (detect_communities_dom _ Hg G Hwf). }
  split; [done|]. split.
  - intros v Hv. apply Hdom in Hv as [i Hi]. exists i. split; [done|]. congruence.
  - unfold community_size, community_ids.
    rewrite count_by_id.
    + rewrite length_map_to_list. rewrite <- size_dom.
      replace (dom m) with (list_to_set (C := gset string) (nodes G)).
      * apply size_list_to_set, Hwf.
      * apply set_eq. intros v. rewrite elem_of_list_to_set, elem_of_dom. apply Hdom.
    + apply NoDup_remove_dups.
    + intros kv Hkv. apply elem_of_remove_dups, list_elem_of_fmap. eauto.
Qed.

Lemma detect_communities_partition_example :
  sum_list (map (community_size (detect_communities singletons_or_fail communities_example))
                (community_ids (detect_communities singletons_or_fail communities_example)))
  = length (nodes communities_example).
Proof.
  apply (detect_communities_partition singletons_or_fail communities_example
           singletons_or_fail_contract).
  by apply (bool_decide_unpack _); vm_compute.
Defined.

Lemma detect_fold_blocks
    (greedy_modularity_communities : Graph → option (list (list string)))
    (U : Graph) (cs : list (list string)) (st : gmap string Z * Z) :
  foldl (visit_component greedy_modularity_communities U) st cs
  = foldl visit_comm st (cs ≫= blocks_of greedy_modularity_communities U).
Proof.
  revert st. induction cs as [|c cs IH]; intros st; csimpl; [done|].
  rewrite foldl_app, <- visit_component_blocks. apply IH.
Qed.

(** C10: with a grouping routine that meets its contract, on a well-formed
    graph.  The communities are, component after component, the component
    itself when it has fewer than 3 nodes or the grouping raises, and the
    groups the routine returns otherwise; they split the node set.  The
    counter starts at 0 and ends at their number k, one step per community:
    the community created j-th (from 0) receives the id j, so a node has the
    id i exactly when it lies in the i-th community.  Hence the ids in use
    are exactly 0, ..., k-1 (no gap); two nodes with the same id lie in the
    same community (no id is used twice); and the nodes that carry the id of
    a member of a community are exactly the members of that community. *)
Theorem detect_communities_ids_contiguous
    (greedy_modularity_communities : Graph → option (list (list string))) (G : Graph) :
  greedy_contract greedy_modularity_communities → wf_graph G →
  let m := detect_communities greedy_modularity_communities G in
  let communities := connected_components G ≫= blocks_of greedy_modularity_communities G in
  let k := Z.of_nat (length communities) in
  (foldl (visit_component greedy_modularity_communities (copy G))
         (∅ : gmap string Z, 0) (connected_components (copy G))).2 = k
  ∧ is_partition communities (nodes G)
  ∧ (∀ v i, m !! v = Some i
            ↔ ∃ j b, communities !! j = Some b ∧ v ∈ b ∧ i = Z.of_nat j)
  ∧ (∀ i, (∃ v, m !! v = Some i) ↔ 0 ≤ i < k)
  ∧ (∀ u v i, m !! u = Some i → m !! v = Some i →
              ∃ b, b ∈ communities ∧ u ∈ b ∧ v ∈ b)
  ∧ (∀ b u v i, b ∈ communities → u ∈ b → m !! u = Some i →
                (m !! v = Some i ↔ v ∈ b)).
Proof.
  intros Hg Hwf m communities k.
  pose proof (detect_communities_lookup _ Hg G Hwf) as Hlook.
  fold m communities in Hlook.
  pose proof (blocks_partition _ Hg G Hwf) as Hpart. fold communities in Hpart.
  split; [|split; [done|split; [done|split; [|split]]]].
  - rewrite copy_eq, detect_fold_blocks, visit_comm_counter. fold communities. lia.
  - intros i. split.
    + intros [v Hv]. apply Hlook in Hv as (j & b & Hj & _ & ->).
      apply lookup_lt_Some in Hj. lia.
    + intros [H0 Hk].
      destruct (lookup_lt_is_Some_2 communities (Z.to_nat i)) as [b Hb]; [lia|].
      destruct Hpart as (Hne & _ & _). rewrite Forall_forall in Hne.
      assert (Hbne : b ≠ []) by (apply Hne; by eapply list_elem_of_lookup_2).
      destruct b as [|v b]; [done|]. exists v.
      apply Hlook. exists (Z.to_nat i), (v :: b).
      split; [done|]. split; [left | lia].
  - intros u v i Hu Hv.
    apply Hlook in Hu as (j & b & Hj & Hub & ->).
    apply Hlook in Hv as (j' & b' & Hj' & Hvb & Heq).
    apply Nat2Z.inj in Heq as <-. rewrite Hj in Hj'. injection Hj' as <-.
    exists b. split; [by eapply list_elem_of_lookup_2 | done].
  - intros b u v i Hb Hub Hu.
    apply list_elem_of_lookup in Hb as [jb Hjb].
    assert (Hu' : m !! u = Some (Z.of_nat jb)) by (apply Hlook; eauto).
    rewrite Hu in Hu'. injection Hu' as ->. split.
    + intros Hv. apply Hlook in Hv as (j' & b' & Hj' & Hvb & Heq).
      apply Nat2Z.inj in Heq as <-. rewrite Hjb in Hj'. by injection Hj' as <-.
    + intros Hvb. apply Hlook. eauto.
Qed.

Lemma detect_communities_ids_example :
  (foldl (visit_component singletons_or_fail (copy communities_example))
         (∅ : gmap string Z, 0) (connected_components (copy communities_example))).2 = 6
  ∧ ∀ i, (∃ v, detect_communities singletons_or_fail communities_example !! v = Some i)
         ↔ 0 ≤ i < 6.
Proof.
  assert (Hwf : wf_graph communities_example)
    by (by apply (bool_decide_unpack _); vm_compute).
  pose proof (detect_communities_ids_contiguous singletons_or_fail communities_example
                singletons_or_fail_contract Hwf) as H.
  cbv zeta in H.
  assert (Hk : Z.of_nat (length (connected_components communities_example
                                   ≫= blocks_of singletons_or_fail communities_example))
               = 6) by (vm_compute; reflexivity).
  rewrite Hk in H.
  exact (conj (proj1 H) (proj1 (proj2 (proj2 (proj2 H))))).
Defined.
(* ------------------------------------------------------------------ *)
(** ** Rationals *)

Lemma this_Q2Qc (q : Q) : (this (Q2Qc q) == q)%Q.
Proof. apply Qred_correct. Qed.

Lemma Z2Qc_add a b : Z2Qc (a + b) = (Z2Qc a + Z2Qc b)%Qc.
Proof.
  apply Qc_is_canon. unfold Z2Qc, Qcplus. rewrite !this_Q2Qc.
  unfold Qeq, Qplus; simpl. lia.
Qed.


Lemma Z2Qc_mul a b : Z2Qc (a * b) = (Z2Qc a * Z2Qc b)%Qc.
Proof.
  apply Qc_is_canon. unfold Z2Qc, Qcmult. rewrite !this_Q2Qc.
  unfold Qeq, Qmult; simpl. lia.
Qed.

Lemma Z2Qc_le a b : a ≤ b → (Z2Qc a <= Z2Qc b)%Qc.
Proof.
  intros H. unfold Qcle, Z2Qc. rewrite !this_Q2Qc. unfold Qle; simpl. lia.
Qed.

Lemma Z2Qc_lt a b : a < b → (Z2Qc a < Z2Qc b)%Qc.
Proof.
  intros H. unfold Qclt, Z2Qc. rewrite !this_Q2Qc. unfold Qlt; simpl. lia.
Qed.

Lemma Z2Qc_inj a b : Z2Qc a = Z2Qc b → a = b.
Proof.
  unfold Z2Qc. intros Hq%Q2Qc_eq_iff. unfold Qeq in Hq; simpl in Hq. lia.
Qed.

(** [a / b * c] lies in [[0, 1]] when [0 <= a], [0 <= c] and [a * c <= b]. *)
Lemma Qc_frac_unit a b c :
  0 ≤ a → 0 ≤ c → 0 < b → a * c ≤ b →
  (0 <= Z2Qc a / Z2Qc b * Z2Qc c)%Qc ∧ (Z2Qc a / Z2Qc b * Z2Qc c <= 1)%Qc.
Proof.
  intros Ha Hc Hb Hle. destruct b as [|p|p]; try lia.
  unfold Qcle, Qcdiv, Qcmult, Qcinv, Z2Qc. rewrite !this_Q2Qc.
  unfold Qle, Qmult, Qinv; simpl. split; nia.
Qed.

Lemma Qc_frac_unit1 a b :
  0 ≤ a → 0 < b → a ≤ b →
  (0 <= Z2Qc a / Z2Qc b)%Qc ∧ (Z2Qc a / Z2Qc b <= 1)%Qc.
Proof.
  intros Ha Hb Hle.
  replace (Z2Qc a / Z2Qc b)%Qc with (Z2Qc a / Z2Qc b * Z2Qc 1)%Qc.
  - apply Qc_frac_unit; lia.
  - apply Qcmult_1_r.
Qed.

Lemma Qc_unit_mul (x y : Qc) :
  (0 <= x)%Qc → (x <= 1)%Qc → (0 <= y)%Qc → (y <= 1)%Qc →
  (0 <= x * y)%Qc ∧ (x * y <= 1)%Qc.
Proof.
  intros Hx0 Hx1 Hy0 Hy1. split.
  - rewrite <- (Qcmult_0_l y). by apply Qcmult_le_compat_r.
  - apply Qcle_trans with (1 * y)%Qc.
    + by apply Qcmult_le_compat_r.
    + by rewrite Qcmult_1_l.
Qed.

Lemma round_half_even_range (q : Q) (N : Z) :
  (0 <= q)%Q → (q <= inject_Z N)%Q → 0 ≤ round_half_even q ≤ N.
Proof.
  destruct q as [n d]. unfold Qle, round_half_even; simpl. intros H0 HN.
  pose proof (Z.div_mod n (Z.pos d) ltac:(lia)) as Hdm.
  pose proof (Z.mod_pos_bound n (Z.pos d) ltac:(lia)) as Hmod.
  assert (0 ≤ n / Z.pos d) by (apply Z.div_pos; lia).
  assert (n / Z.pos d ≤ N) by (apply Z.div_le_upper_bound; lia).
  destruct (Z.ltb_spec (2 * (n mod Z.pos d)) (Z.pos d)); [lia|].
  assert (n / Z.pos d < N) by nia.
  destruct (Z.ltb_spec (Z.pos d) (2 * (n mod Z.pos d))); [lia|].
  destruct (Z.even _); lia.
Qed.

Lemma round4_unit (x : Qc) :
  (0 <= x)%Qc → (x <= 1)%Qc → (0 <= round4 x)%Qc ∧ (round4 x <= 1)%Qc.
Proof.
  unfold Qcle, round4. intros H0 H1. rewrite !this_Q2Qc.
  destruct (round_half_even_range (this x * inject_Z 10000) 10000) as [Hl Hu].
  - change (this 0%Qc) with 0%Q in H0.
    rewrite <- (Qmult_0_l (inject_Z 10000)). apply Qmult_le_compat_r; [done|]. done.
  - change (this 1%Qc) with 1%Q in H1.
    rewrite <- (Qmult_1_l (inject_Z 10000)) at 2. apply Qmult_le_compat_r; [done|]. done.
  - change (this 0%Qc) with 0%Q. change (this 1%Qc) with 1%Q.
    unfold Qle; simpl. lia.
Qed.


Lemma Qc_frac_nonneg a b c :
  0 ≤ a → 0 ≤ c → 0 < b → (0 <= Z2Qc a / Z2Qc b * Z2Qc c)%Qc.
Proof.
  intros Ha Hc Hb. destruct b as [|p|p]; try lia.
  unfold Qcle, Qcdiv, Qcmult, Qcinv, Z2Qc. rewrite !this_Q2Qc.
  unfold Qle, Qmult, Qinv; simpl. nia.
Qed.

(* ------------------------------------------------------------------ *)
(** ** Ranges of the centrality values *)

Lemma od_get_map {V} (f : string → V) (l : list string) v :
  OD.get v (map (λ n, (n, f n)) l) = if decide (v ∈ l) then Some (f v) else None.
Proof.
  induction l as [|x l IH]; simpl.
  - destruct (decide (v ∈ [])) as [Hin|_]; [by apply elem_of_nil in Hin | done].
  - destruct (decide (x = v)) as [->|Hne].
    + rewrite decide_True; [done | left].
    + rewrite IH. destruct (decide (v ∈ l)) as [Hin|Hin].
      * rewrite decide_True; [done | by right].
      * rewrite decide_False; [done|]. rewrite not_elem_of_cons. split; [congruence | done].
Qed.

Lemma od_get_foldl_set {V} (f : string → V) (l : list string) d v :
  OD.get v (foldl (λ res n, OD.set n (f n) res) d l)
  = if decide (v ∈ l) then Some (f v) else OD.get v d.
Proof.
  revert d. induction l as [|x l IH]; intros d.
  - destruct (decide (v ∈ [])) as [Hin|_]; [by apply elem_of_nil in Hin | done].
  - change (foldl (λ res n, OD.set n (f n) res) d (x :: l))
      with (foldl (λ res n, OD.set n (f n) res) (OD.set x (f x) d) l).
    rewrite IH. destruct (decide (v ∈ l)) as [Hin|Hin].
    + rewrite decide_True; [done | by right].
    + destruct (decide (x = v)) as [->|Hne].
      * rewrite od_get_set_eq. rewrite decide_True; [done | left].
      * rewrite od_get_set_ne by done. rewrite decide_False; [done|].
        rewrite not_elem_of_cons. split; [congruence | done].
Qed.

Lemma number_of_nodes_length G : number_of_nodes G = Z.of_nat (length (nodes G)).
Proof. unfold number_of_nodes, nodes, OD.keys. by rewrite length_fmap. Qed.


Lemma sumZ_cons x l : sumZ (x :: l) = x + sumZ l.
Proof. done. Qed.

Lemma sumZ_bound {A} (f : A → Z) (l : list A) (lo hi : Z) :
  (∀ x, x ∈ l → lo ≤ f x ≤ hi) →
  Z.of_nat (length l) * lo ≤ sumZ (map f l) ≤ Z.of_nat (length l) * hi.
Proof.
  induction l as [|x l IH]; intros Hb; [simpl; lia|].
  destruct IH as [IH1 IH2]; [intros; apply Hb; by right|].
  destruct (Hb x ltac:(left)) as [? ?].
  rewrite map_cons, sumZ_cons. cbn [length]. lia.
Qed.

Lemma sumZ_nonneg {A} (f : A → Z) (l : list A) :
  (∀ x, x ∈ l → 0 ≤ f x) → 0 ≤ sumZ (map f l).
Proof.
  induction l as [|x l IH]; intros Hb; [simpl; lia|].
  rewrite map_cons, sumZ_cons.
  pose proof (Hb x ltac:(left)).
  assert (0 ≤ sumZ (map f l)) by (apply IH; intros; apply Hb; by right). lia.
Qed.


Lemma round4_nonneg (x : Qc) : (0 <= x)%Qc → (0 <= round4 x)%Qc.
Proof.
  unfold Qcle, round4. intros H0. rewrite !this_Q2Qc.
  change (this 0%Qc) with 0%Q in *.
  assert (Hq : (0 <= this x * inject_Z 10000)%Q).
  { rewrite <- (Qmult_0_l (inject_Z 10000)). apply Qmult_le_compat_r; done. }
  destruct (round_half_even_range (this x * inject_Z 10000)
              (Qnum (this x * inject_Z 10000))) as [Hl _]; [done| |].
  - destruct (this x * inject_Z 10000)%Q as [n d]. unfold Qle in *; simpl in *. nia.
  - unfold Qle; simpl. lia.
Qed.

Section Ranges.
Variable cbrt : Qc → Qc.
Variable G : Graph.
Hypothesis Hwf : wf_graph G.

(** The record [compute_centralities] stores for a node. *)
Definition centrality_record (n : string) : CentralityRecord :=
  mkCentralityRecord
    (default 0 (paper_count (node_attrs G n)))
    (default "" (affiliation (node_attrs G n)))
    (round4 (default 0%Qc (OD.get n (degree_centrality G))))
    (round4 (default 0%Qc (betweenness_centrality G !! n)))
    (round4 (default 0%Qc (OD.get n (closeness_centrality G))))
    (round4 (default 0%Qc (OD.get n (clustering_weighted cbrt G)))).

Lemma compute_centralities_lookup v :
  OD.get v (compute_centralities cbrt G)
  = if decide (v ∈ nodes G) then Some (centrality_record v) else None.
Proof.
  unfold compute_centralities. case_bool_decide as Hn.
  - apply nil_length_inv in Hn. rewrite Hn.
    destruct (decide (v ∈ [])) as [Hin|_]; [by apply elem_of_nil in Hin | done].
  - apply (od_get_foldl_set centrality_record).
Qed.

Lemma degree_lower v : 0 ≤ degree G v.
Proof. unfold degree. destruct (OD.mem _ _); lia. Qed.

Lemma degree_upper v :
  no_self_loops G → v ∈ nodes G → degree G v ≤ number_of_nodes G - 1.
Proof.
  intros Hns Hv. unfold no_self_loops in Hns. rewrite Forall_forall in Hns.
  specialize (Hns v Hv). unfold degree.
  replace (OD.mem v (nbrs G v)) with false by (symmetry; by apply od_mem_false).
  rewrite number_of_nodes_length.
  assert (Hlen : (length (v :: neighbors G v) ≤ length (nodes G))%nat).
  { apply submseteq_length, NoDup_submseteq.
    - constructor; [done | by apply wf_neighbors_NoDup].
    - intros x Hx. apply elem_of_cons in Hx as [->|Hx]; [done|].
      by apply (wf_neighbor G Hwf v x). }
  simpl in Hlen. unfold neighbors, OD.keys in Hlen. rewrite length_fmap in Hlen. lia.
Qed.





Lemma density_range :
  (0 <= density G)%Qc ∧ (no_self_loops G → (density G <= 1)%Qc).
Proof.
  unfold density. case_bool_decide as Hc; [split; [apply Qcle_refl | done]|].
  assert (Hm : number_of_edges G ≠ 0 ∧ 1 < number_of_nodes G) by lia. clear Hc.
  destruct Hm as [Hm Hn]. unfold number_of_edges in *.
  set (s := sumZ (map (degree G) (nodes G))) in *.
  assert (Hs0 : 0 ≤ s) by (apply sumZ_nonneg; intros; apply degree_lower).
  assert (Hm0 : 0 ≤ s / 2) by (apply Z.div_pos; lia).
  split.
  - apply Qc_frac_nonneg; nia.
  - intros Hns.
    assert (Hs : s ≤ number_of_nodes G * (number_of_nodes G - 1)).
    { destruct (sumZ_bound (degree G) (nodes G) 0 (number_of_nodes G - 1)) as [_ Hu].
      - intros x Hx. split; [apply degree_lower | by apply degree_upper].
      - rewrite <- number_of_nodes_length in Hu. unfold s. lia. }
    apply Qc_frac_unit; [lia | lia | nia |].
    pose proof (Z.mul_div_le s 2 ltac:(lia)). lia.
Qed.

Lemma stats_density :
  nodes G ≠ [] → get_network_stats G !! "density" = Some (round4 (density G)).
Proof.
  intros Hn. unfold get_network_stats. rewrite bool_decide_eq_false_2.
  - rewrite !lookup_insert_ne by done. apply lookup_insert_eq.
  - intros Hl. by apply nil_length_inv in Hl.
Qed.
End Ranges.

(** One author on one article: a graph with a single node. *)
Definition lone_author_graph : Graph := build_coauthor_network [article_by ["A"]].


(* ------------------------------------------------------------------ *)
(** ** The graph operations of the builder *)

(** Well-formedness read through lookups. *)
Definition wf_nbrs (G : Graph) : Prop :=
  NoDup (nodes G)
  ∧ OD.keys (_adj G) = nodes G
  ∧ ∀ v, NoDup (neighbors G v)
         ∧ ∀ w d, OD.get w (nbrs G v) = Some d →
                  w ∈ nodes G ∧ OD.get v (nbrs G w) = Some d.

Lemma wf_nbrs_iff G : wf_graph G ↔ wf_nbrs G.
Proof.
  split.
  - intros Hwf. split; [apply Hwf|]. split; [apply Hwf|]. intros v.
    split; [by apply wf_neighbors_NoDup|]. intros w d Hg.
    apply od_get_Some in Hg. by destruct (wf_neighbor_data G Hwf v w d Hg) as (? & _ & ?).
  - intros (Hnd & Hk & Hrows). split; [done|]. split; [done|].
    apply Forall_forall. intros [v ns] Hin.
    assert (Hg : OD.get v (_adj G) = Some ns).
    { apply od_elem_get; [by rewrite Hk | done]. }
    assert (Hns : nbrs G v = ns) by (unfold nbrs; by rewrite Hg).
    destruct (Hrows v) as [Hndv Hlk]. unfold neighbors in Hndv. rewrite Hns in *.
    split; [done|]. apply Forall_forall. intros [w d] Hwd. simpl.
    apply Hlk. by apply od_elem_get.
Qed.

Lemma nbrs_put_edge G u v d x :
  nbrs (put_edge G u v d) x
  = (if decide (x = v) then OD.set u d else id)
      ((if decide (x = u) then OD.set v d else id) (nbrs G x)).
Proof.
  unfold put_edge, nbrs; simpl.
  destruct (decide (x = v)) as [->|Hxv].
  - rewrite od_get_set_eq. simpl. destruct (decide (v = u)) as [->|Hvu].
    + by rewrite od_get_set_eq.
    + by rewrite od_get_set_ne.
  - rewrite od_get_set_ne by done. destruct (decide (x = u)) as [->|Hxu].
    + by rewrite od_get_set_eq.
    + by rewrite od_get_set_ne.
Qed.

(** After [put_edge], the edge dict is found from both ends and nothing
    else has changed. *)
Lemma get_put_edge G u v d x y :
  OD.get y (nbrs (put_edge G u v d) x)
  = if decide ((x = u ∧ y = v) ∨ (x = v ∧ y = u)) then Some d
    else OD.get y (nbrs G x).
Proof.
  rewrite nbrs_put_edge.
  destruct (decide (x = v)) as [Exv|Nxv]; destruct (decide (x = u)) as [Exu|Nxu]; simpl;
    destruct (decide (y = u)) as [Eyu|Nyu]; destruct (decide (y = v)) as [Eyv|Nyv];
    repeat match goal with
      | |- context [OD.get ?k (OD.set ?k' _ _)] =>
          first [ rewrite (od_get_set_ne _ k' k) by congruence
                | replace k with k' by congruence; rewrite od_get_set_eq ]
      end;
    case_decide; try done; exfalso; intuition congruence.
Qed.

Lemma nodes_put_edge G u v d : _node (put_edge G u v d) = _node G.
Proof. done. Qed.

Lemma keys_put_edge G u v d :
  u ∈ OD.keys (_adj G) → v ∈ OD.keys (_adj G) →
  OD.keys (_adj (put_edge G u v d)) = OD.keys (_adj G).
Proof.
  intros Hu Hv. unfold put_edge; simpl.
  rewrite od_keys_set.
  replace (OD.mem v (OD.set u _ (_adj G))) with true.
  - rewrite od_keys_set. by replace (OD.mem u (_adj G)) with true by (symmetry; by apply od_mem_true).
  - symmetry. apply od_mem_true. apply od_keys_set_elem. by right.
Qed.

Lemma put_edge_wf G u v d :
  wf_nbrs G → u ∈ nodes G → v ∈ nodes G → wf_nbrs (put_edge G u v d).
Proof.
  intros (Hnd & Hk & Hrows) Hu Hv.
  split; [done|]. split.
  { rewrite keys_put_edge; [done | by rewrite Hk..]. }
  intros x. split.
  - unfold neighbors. rewrite nbrs_put_edge.
    destruct (Hrows x) as [Hndx _]. unfold neighbors in Hndx.
    destruct (decide (x = v)), (decide (x = u)); simpl;
      repeat apply od_keys_set_NoDup; done.
  - intros y d'. rewrite !get_put_edge.
    destruct (decide ((x = u ∧ y = v) ∨ (x = v ∧ y = u))) as [Hm|Hm].
    + intros [= <-]. rewrite decide_True by tauto.
      split; [|done]. unfold nodes in *. simpl. destruct Hm as [[_ ->]|[_ ->]]; done.
    + intros Hg. rewrite decide_False by tauto.
      destruct (Hrows x) as [_ Hlk]. apply (Hlk y d' Hg).
Qed.

Lemma add_new_node_wf G n a :
  wf_nbrs G → n ∉ nodes G →
  wf_nbrs (mkGraph (OD.set n a (_node G)) (OD.set n [] (_adj G))).
Proof.
  intros (Hnd & Hk & Hrows) Hn.
  assert (Hnodes : nodes (mkGraph (OD.set n a (_node G)) (OD.set n [] (_adj G)))
                   = nodes G ++ [n]).
  { unfold nodes; simpl. rewrite od_keys_set.
    by replace (OD.mem n (_node G)) with false by (symmetry; by apply od_mem_false). }
  assert (Hnb : ∀ x, nbrs (mkGraph (OD.set n a (_node G)) (OD.set n [] (_adj G))) x
                     = nbrs G x).
  { intros x. unfold nbrs; simpl. destruct (decide (n = x)) as [->|Hne].
    - rewrite od_get_set_eq. rewrite <- Hk in Hn. apply od_get_None in Hn. by rewrite Hn.
    - by rewrite od_get_set_ne. }
  split; [|split].
  - rewrite Hnodes. apply NoDup_app. split; [done|]. split; [|apply NoDup_singleton].
    intros x Hx ->%list_elem_of_singleton. done.
  - rewrite Hnodes. simpl. rewrite od_keys_set.
    replace (OD.mem n (_adj G)) with false; [by rewrite Hk|].
    symmetry. apply od_mem_false. by rewrite Hk.
  - intros x. unfold neighbors. rewrite Hnb. destruct (Hrows x) as [Hndx Hlk].
    split; [done|]. intros w d Hg. rewrite Hnb, Hnodes.
    destruct (Hlk w d Hg) as [? ?]. split; [|done]. apply elem_of_app. by left.
Qed.

Lemma set_node_attrs_wf G n a :
  wf_nbrs G → n ∈ nodes G → wf_nbrs (set_node_attrs G n a).
Proof.
  intros (Hnd & Hk & Hrows) Hn.
  assert (Hnodes : nodes (set_node_attrs G n a) = nodes G).
  { unfold nodes, set_node_attrs; simpl. rewrite od_keys_set.
    by replace (OD.mem n (_node G)) with true by (symmetry; by apply od_mem_true). }
  split; [by rewrite Hnodes|]. split; [by rewrite Hnodes|].
  intros x. rewrite Hnodes. apply Hrows.
Qed.
(* ------------------------------------------------------------------ *)
(** ** The builder, step by step *)

(** The keys of an article's author entries, in order. *)
Definition keys_of (a : Article) : list string := map _author_key (authors a).

(** What one author entry does to the attributes stored under its key
    ([None]: the key is new). *)
Definition bump (a : Author) (o : option NodeAttrs) : NodeAttrs :=
  match o with
  | None => mkNodeAttrs (Some 1) (Some (a_affiliation a))
  | Some at0 =>
      mkNodeAttrs (Some (default 0 (paper_count at0) + 1))
        (if bool_decide (a_affiliation a ≠ "") && negb (truthy_str (affiliation at0))
         then Some (a_affiliation a) else affiliation at0)
  end.

Definition bump_if (x : string) (o : option NodeAttrs) (a : Author) : option NodeAttrs :=
  if decide (x = _author_key a) then Some (bump a o) else o.

Lemma node_attrs_get G n a : OD.get n (_node G) = Some a → node_attrs G n = a.
Proof. intros H. unfold node_attrs. by rewrite H. Qed.

Lemma node_attrs_set G n a : node_attrs (set_node_attrs G n a) n = a.
Proof. unfold node_attrs, set_node_attrs; simpl. by rewrite od_get_set_eq. Qed.

Lemma truthy_nonempty (s : string) :
  bool_decide (s ≠ "") && negb (truthy_str (Some s)) = false.
Proof. simpl. by destruct (bool_decide (s ≠ "")). Qed.

Lemma visit_author_node G ks a x :
  OD.get x (_node (visit_author (G, ks) a).1)
  = bump_if x (OD.get x (_node G)) a.
Proof.
  unfold visit_author, bump_if. cbn [fst].
  set (key := _author_key a). set (aff := a_affiliation a).
  destruct (has_node G key) eqn:Hm; cbn [negb].
  - apply od_mem_true, od_get_is_Some in Hm as [at0 Hk].
    rewrite (node_attrs_get G key at0 Hk), node_attrs_set. cbn [paper_count affiliation].
    destruct (bool_decide (aff ≠ "") && negb (truthy_str (affiliation at0))) eqn:Hc;
      cbn [_node set_node_attrs]; destruct (decide (x = key)) as [->|Hne];
      rewrite ?od_get_set_eq, ?od_get_set_ne by done; rewrite ?Hk; cbn [bump];
      fold aff; rewrite ?Hc; done.
  - unfold add_node. rewrite Hm.
    apply od_mem_false, od_get_None in Hm.
    set (G1 := mkGraph _ _).
    assert (H1 : node_attrs G1 key = mkNodeAttrs (Some 0) (Some aff)).
    { unfold node_attrs, G1; simpl. by rewrite od_get_set_eq. }
    rewrite H1, node_attrs_set. cbn [paper_count affiliation default].
    rewrite truthy_nonempty.
    cbn [_node set_node_attrs]. destruct (decide (x = key)) as [->|Hne].
    + rewrite od_get_set_eq, Hm. done.
    + rewrite od_get_set_ne by done. unfold G1; simpl. by rewrite od_get_set_ne.
Qed.

Lemma visit_author_keys G ks a : (visit_author (G, ks) a).2 = ks ++ [_author_key a].
Proof. unfold visit_author. done. Qed.

Lemma visit_author_wf G ks a :
  wf_nbrs G →
  wf_nbrs (visit_author (G, ks) a).1
  ∧ ∀ x, nbrs (visit_author (G, ks) a).1 x = nbrs G x.
Proof.
  intros Hwf. unfold visit_author. cbn [fst].
  set (key := _author_key a). set (aff := a_affiliation a).
  assert (Hstep : ∀ G1, wf_nbrs G1 → key ∈ nodes G1 → (∀ x, nbrs G1 x = nbrs G x) →
    ∀ a1 a2 (c : bool),
      wf_nbrs (if c then set_node_attrs (set_node_attrs G1 key a1) key a2
               else set_node_attrs G1 key a1)
      ∧ ∀ x, nbrs (if c then set_node_attrs (set_node_attrs G1 key a1) key a2
                   else set_node_attrs G1 key a1) x = nbrs G x).
  { intros G1 Hwf1 Hin Hnb a1 a2 c.
    pose proof (set_node_attrs_wf G1 key a1 Hwf1 Hin) as Hw2.
    assert (Hin2 : key ∈ nodes (set_node_attrs G1 key a1)).
    { unfold nodes, set_node_attrs; simpl. apply od_keys_set_elem. by left. }
    destruct c; (split; [auto using set_node_attrs_wf | intros x; apply (Hnb x)]). }
  unfold has_node. destruct (OD.mem key (_node G)) eqn:Hm; cbn [negb].
  - apply Hstep; [done | by apply od_mem_true | done].
  - apply od_mem_false in Hm. unfold add_node, has_node.
    replace (OD.mem key (_node G)) with false by (symmetry; by apply od_mem_false).
    apply Hstep.
    + by apply add_new_node_wf.
    + unfold nodes; simpl. apply od_keys_set_elem. by left.
    + intros x. unfold nbrs; simpl. destruct (decide (key = x)) as [<-|Hne].
      * rewrite od_get_set_eq. destruct Hwf as (_ & Hk & _).
        fold (nodes G) in Hm. rewrite <- Hk in Hm. apply od_get_None in Hm. by rewrite Hm.
      * by rewrite od_get_set_ne.
Qed.

Lemma visit_authors_spec l G ks :
  wf_nbrs G →
  let st := foldl visit_author (G, ks) l in
  wf_nbrs st.1
  ∧ st.2 = ks ++ map _author_key l
  ∧ (∀ x, nbrs st.1 x = nbrs G x)
  ∧ (∀ x, OD.get x (_node st.1) = foldl (bump_if x) (OD.get x (_node G)) l).
Proof.
  revert G ks. induction l as [|a l IH]; intros G ks Hwf.
  - simpl. rewrite app_nil_r. done.
  - change (foldl visit_author (G, ks) (a :: l))
      with (foldl visit_author (visit_author (G, ks) a) l).
    change (foldl (bump_if ?x) ?o (a :: l)) with (foldl (bump_if x) (bump_if x o a) l).
    cbn [map]. cbv zeta.
    destruct (visit_author (G, ks) a) as [G1 ks1] eqn:Hv.
    pose proof (visit_author_wf G ks a Hwf) as [Hwf1 Hnb1].
    pose proof (visit_author_keys G ks a) as Hk1.
    pose proof (visit_author_node G ks a) as Hn1.
    rewrite Hv in *. cbn [fst snd] in *.
    destruct (IH G1 ks1 Hwf1) as (H1 & H2 & H3 & H4).
    split; [exact H1|]. split; [rewrite H2, Hk1, <- app_assoc; done|].
    split; [intros x; rewrite H3; apply Hnb1|].
    intros x. rewrite H4, Hn1. done.
Qed.

Lemma bump_if_is_Some x l o :
  is_Some (foldl (bump_if x) o l) ↔ is_Some o ∨ x ∈ map _author_key l.
Proof.
  revert o. induction l as [|a l IH]; intros o.
  - simpl. split; [by left | intros [?|Hx]; [done | by apply elem_of_nil in Hx]].
  - change (foldl (bump_if x) o (a :: l)) with (foldl (bump_if x) (bump_if x o a) l).
    rewrite IH. cbn [map]. rewrite elem_of_cons. unfold bump_if.
    destruct (decide (x = _author_key a)) as [Heq|Hne].
    + split; [intros _; right; by left | intros _; left; by eexists].
    + split; [intros [?|?]; tauto | intros [?|[?|?]]; tauto].
Qed.

(** [visit_pair] on two nodes of the graph: one edge dict written. *)
Lemma visit_pair_eq G a1 a2 :
  a1 ∈ nodes G → a2 ∈ nodes G →
  visit_pair G (a1, a2)
  = put_edge G a1 a2 (mkEdgeAttrs (default 0 (edge_weight G a1 a2) + 1)).
Proof.
  intros H1 H2. unfold visit_pair, has_edge, incr_weight, add_edge, edge_weight, OD.mem.
  destruct (OD.get a2 (nbrs G a1)) as [d|] eqn:Hg.
  - rewrite bool_decide_eq_true_2 by done. done.
  - rewrite bool_decide_eq_false_2 by (intros [? ?]; done).
    unfold ensure_node, has_node.
    replace (OD.mem a1 (_node G)) with true by (symmetry; by apply od_mem_true).
    replace (OD.mem a2 (_node G)) with true by (symmetry; by apply od_mem_true).
    done.
Qed.

(** The pair joins [x] and [y], in either order. *)
Definition pair_matches (x y : string) (p : string * string) : Prop :=
  p = (x, y) ∨ p = (y, x).

#[global] Instance pair_matches_dec x y p : Decision (pair_matches x y p).
Proof. unfold pair_matches. apply _. Defined.

Definition count_pairs (x y : string) (ps : list (string * string)) : nat :=
  length (filter (pair_matches x y) ps).

(** A weight after [n] more increments ([None]: no edge yet). *)
Definition add_count (o : option Z) (n : nat) : option Z :=
  if decide (n = 0%nat) then o else Some (default 0 o + Z.of_nat n).

Lemma add_count_add o n m : add_count (add_count o n) m = add_count o (n + m).
Proof.
  unfold add_count. destruct (decide (n = 0%nat)) as [->|Hn]; [done|].
  destruct (decide (m = 0%nat)) as [->|Hm].
  - rewrite Nat.add_0_r. by rewrite decide_False.
  - rewrite decide_False by lia. simpl. f_equal. lia.
Qed.

Lemma count_pairs_app x y ps qs :
  count_pairs x y (ps ++ qs) = (count_pairs x y ps + count_pairs x y qs)%nat.
Proof. unfold count_pairs. by rewrite filter_app, length_app. Qed.

Lemma combinations2_elem {A} (l : list A) a b :
  (a, b) ∈ combinations2 l → a ∈ l ∧ b ∈ l.
Proof.
  induction l as [|x l IH]; simpl; [intros H; by apply elem_of_nil in H|].
  intros [H|H]%elem_of_app.
  - apply list_elem_of_fmap in H as (y & [= -> ->] & Hy). split; [left | by right].
  - destruct (IH H). split; by right.
Qed.

Lemma edge_weight_put_edge G u v d x y :
  edge_weight (put_edge G u v d) x y
  = if decide (pair_matches x y (u, v)) then Some (weight d) else edge_weight G x y.
Proof.
  unfold edge_weight. rewrite get_put_edge. unfold pair_matches.
  destruct (decide ((x = u ∧ y = v) ∨ (x = v ∧ y = u))) as [Hm|Hm].
  - rewrite decide_True; [done|]. destruct Hm as [[-> ->]|[-> ->]]; [by left | by right].
  - rewrite decide_False; [done|]. intros [[= -> ->]|[= -> ->]]; tauto.
Qed.

Lemma visit_pairs_spec ps G :
  wf_nbrs G → (∀ p, p ∈ ps → p.1 ∈ nodes G ∧ p.2 ∈ nodes G) →
  let G' := foldl visit_pair G ps in
  wf_nbrs G' ∧ _node G' = _node G
  ∧ ∀ x y, edge_weight G' x y = add_count (edge_weight G x y) (count_pairs x y ps).
Proof.
  revert G. induction ps as [|[a1 a2] ps IH]; intros G Hwf Hps.
  - simpl. done.
  - change (foldl visit_pair G ((a1, a2) :: ps))
      with (foldl visit_pair (visit_pair G (a1, a2)) ps). cbv zeta.
    destruct (Hps (a1, a2) ltac:(left)) as [H1 H2]. simpl in H1, H2.
    rewrite (visit_pair_eq G a1 a2 H1 H2).
    set (d := mkEdgeAttrs (default 0 (edge_weight G a1 a2) + 1)).
    assert (Hwf1 : wf_nbrs (put_edge G a1 a2 d)) by by apply put_edge_wf.
    destruct (IH (put_edge G a1 a2 d) Hwf1) as (Hw & Hn & He).
    { intros p Hp. apply (Hps p). by right. }
    split; [done|]. split; [done|]. intros x y.
    rewrite He, edge_weight_put_edge. unfold count_pairs. rewrite filter_cons.
    destruct (decide (pair_matches x y (a1, a2))) as [Hm|Hm]; [|done].
    assert (Hsym : edge_weight G a1 a2 = edge_weight G x y).
    { destruct Hm as [[= -> ->]|[= -> ->]]; [done|].
      apply wf_weight_sym. by apply wf_nbrs_iff. }
    cbn [length]. unfold add_count. rewrite (decide_False (P := S _ = 0%nat)) by lia.
    unfold d; simpl. rewrite Hsym. case_decide as Hz.
    + rewrite Hz. f_equal.
    + simpl. f_equal. lia.
Qed.

Lemma visit_article_spec G art :
  wf_nbrs G →
  let G' := visit_article G art in
  wf_nbrs G'
  ∧ (∀ x, OD.get x (_node G') = foldl (bump_if x) (OD.get x (_node G)) (authors art))
  ∧ (∀ x y, edge_weight G' x y
            = add_count (edge_weight G x y)
                        (count_pairs x y (combinations2 (keys_of art)))).
Proof.
  intros Hwf. unfold visit_article.
  destruct (visit_authors_spec (authors art) G [] Hwf) as (Hw1 & Hk1 & Hnb1 & Hn1).
  destruct (foldl visit_author (G, []) (authors art)) as [G1 ks] eqn:Hf.
  cbn [fst snd] in *. simpl in Hk1. subst ks. fold (keys_of art).
  destruct (visit_pairs_spec (combinations2 (keys_of art)) G1 Hw1) as (Hw2 & Hn2 & He2).
  { intros [a b] Hp. apply combinations2_elem in Hp as [Ha Hb]. simpl.
    assert (Hin : ∀ k, k ∈ keys_of art → k ∈ nodes G1).
    { intros k Hk. apply od_get_is_Some. rewrite Hn1. apply bump_if_is_Some. by right. }
    split; by apply Hin. }
  split; [done|]. split.
  - intros x. by rewrite Hn2, Hn1.
  - intros x y. rewrite He2. unfold edge_weight. by rewrite Hnb1.
Qed.

(** All author entries, and all pairs the builder visits, in order. *)
Definition all_entries (articles : list Article) : list Author :=
  concat (map authors articles).
Definition all_pairs (articles : list Article) : list (string * string) :=
  concat (map (λ a, combinations2 (keys_of a)) articles).

Lemma visit_articles_spec articles G :
  wf_nbrs G →
  let G' := foldl visit_article G articles in
  wf_nbrs G'
  ∧ (∀ x, OD.get x (_node G')
          = foldl (bump_if x) (OD.get x (_node G)) (all_entries articles))
  ∧ (∀ x y, edge_weight G' x y
            = add_count (edge_weight G x y) (count_pairs x y (all_pairs articles))).
Proof.
  revert G. induction articles as [|art arts IH]; intros G Hwf.
  - simpl. done.
  - change (foldl visit_article G (art :: arts))
      with (foldl visit_article (visit_article G art) arts). cbv zeta.
    destruct (visit_article_spec G art Hwf) as (Hw1 & Hn1 & He1).
    destruct (IH _ Hw1) as (Hw & Hn & He).
    split; [done|]. split.
    + intros x. rewrite Hn, Hn1. unfold all_entries. cbn [map concat].
      by rewrite foldl_app.
    + intros x y. rewrite He, He1, add_count_add. unfold all_pairs. cbn [map concat].
      by rewrite count_pairs_app.
Qed.

Lemma wf_nbrs_empty : wf_nbrs empty_graph.
Proof.
  split; [constructor|]. split; [done|]. intros v. split; [constructor|].
  intros w d Hg. done.
Qed.

Lemma build_spec articles :
  let G := build_coauthor_network articles in
  wf_graph G
  ∧ (∀ x, OD.get x (_node G) = foldl (bump_if x) None (all_entries articles))
  ∧ (∀ x y, edge_weight G x y = add_count None (count_pairs x y (all_pairs articles))).
Proof.
  destruct (visit_articles_spec articles empty_graph wf_nbrs_empty) as (Hw & Hn & He).
  split; [by apply wf_nbrs_iff|]. done.
Qed.
(* ------------------------------------------------------------------ *)
(** ** What the builder stores *)

(** The number of author entries, over all articles, whose key is [k]. *)
Definition entries_with_key (k : string) (articles : list Article) : Z :=
  Z.of_nat (length (filter (λ a, k = _author_key a) (all_entries articles))).

Lemma bump_if_eq x o a : x = _author_key a → bump_if x o a = Some (bump a o).
Proof. intros H. unfold bump_if. by rewrite decide_True. Qed.

Lemma bump_if_ne x o a : x ≠ _author_key a → bump_if x o a = o.
Proof. intros H. unfold bump_if. by rewrite decide_False. Qed.

Lemma bump_if_absent x l o :
  x ∉ map _author_key l →
  foldl (bump_if x) o l = o ∧ filter (λ a, x = _author_key a) l = [].
Proof.
  revert o. induction l as [|b l IH]; intros o Hl; [done|].
  cbn [map] in Hl. apply not_elem_of_cons in Hl as [Hb Hl].
  change (foldl (bump_if x) o (b :: l)) with (foldl (bump_if x) (bump_if x o b) l).
  rewrite filter_cons, bump_if_ne by done. rewrite decide_False by done. by apply IH.
Qed.

Lemma bump_if_paper_count x l o :
  x ∈ map _author_key l →
  paper_count <$> foldl (bump_if x) o l
  = Some (Some (default 0 (o ≫= paper_count)
                + Z.of_nat (length (filter (λ a, x = _author_key a) l)))).
Proof.
  revert o. induction l as [|a l IH]; intros o Hin; [by apply elem_of_nil in Hin|].
  change (foldl (bump_if x) o (a :: l)) with (foldl (bump_if x) (bump_if x o a) l).
  rewrite filter_cons. cbn [map] in Hin.
  destruct (decide (x ∈ map _author_key l)) as [Hl|Hl].
  - rewrite (IH _ Hl). destruct (decide (x = _author_key a)) as [Hx|Hx].
    + rewrite bump_if_eq by done. destruct o as [at0|]; simpl; do 2 f_equal; lia.
    + by rewrite bump_if_ne.
  - apply elem_of_cons in Hin as [Hx|?]; [|done].
    rewrite bump_if_eq, decide_True by done.
    destruct (bump_if_absent x l (Some (bump a o)) Hl) as [-> ->].
    destruct o as [at0|]; simpl; do 2 f_equal; lia.
Qed.

(** The first non-empty affiliation among the entries of [l] with key [x]
    (the empty string when there is none). *)
Definition first_nonempty (x : string) (l : list Author) : string :=
  hd "" (filter (λ s, s ≠ "") (map a_affiliation (filter (λ a, x = _author_key a) l))).

Lemma first_nonempty_cons x a l :
  first_nonempty x (a :: l)
  = if decide (x = _author_key a) then
      if decide (a_affiliation a ≠ "") then a_affiliation a else first_nonempty x l
    else first_nonempty x l.
Proof.
  unfold first_nonempty. rewrite filter_cons.
  destruct (decide (x = _author_key a)); [|done].
  cbn [map]. rewrite filter_cons. by destruct (decide (a_affiliation a ≠ "")).
Qed.

Lemma bump_if_affiliation_Some x l at0 s :
  affiliation at0 = Some s →
  affiliation <$> foldl (bump_if x) (Some at0) l
  = Some (Some (if decide (s ≠ "") then s else first_nonempty x l)).
Proof.
  revert at0 s. induction l as [|a l IH]; intros at0 s Hs.
  - simpl. rewrite Hs. destruct (decide (s ≠ "")) as [?|Hn]; [done|].
    apply dec_stable in Hn. by rewrite Hn.
  - change (foldl (bump_if x) (Some at0) (a :: l))
      with (foldl (bump_if x) (bump_if x (Some at0) a) l).
    rewrite first_nonempty_cons.
    destruct (decide (x = _author_key a)) as [Hx|Hx].
    + rewrite bump_if_eq by done. cbn [bump]. rewrite Hs. cbn [truthy_str].
      destruct (decide (s ≠ "")) as [Hne|He].
      * rewrite (bool_decide_eq_true_2 (s ≠ "")) by done.
        rewrite andb_false_r. rewrite (IH _ s) by done. by rewrite decide_True.
      * rewrite (bool_decide_eq_false_2 (s ≠ "")) by done. rewrite andb_true_r.
        destruct (decide (a_affiliation a ≠ "")) as [Ha|Ha].
        -- rewrite bool_decide_eq_true_2 by done.
           rewrite (IH _ (a_affiliation a)) by done. by rewrite decide_True.
        -- rewrite bool_decide_eq_false_2 by done.
           rewrite (IH _ s) by done. by rewrite decide_False.
    + rewrite bump_if_ne by done. by apply IH.
Qed.

Lemma bump_if_affiliation_None x l :
  x ∈ map _author_key l →
  affiliation <$> foldl (bump_if x) None l = Some (Some (first_nonempty x l)).
Proof.
  induction l as [|a l IH]; intros Hin; [by apply elem_of_nil in Hin|].
  change (foldl (bump_if x) None (a :: l)) with (foldl (bump_if x) (bump_if x None a) l).
  rewrite first_nonempty_cons. cbn [map] in Hin.
  destruct (decide (x = _author_key a)) as [Hx|Hx].
  - rewrite bump_if_eq by done. cbn [bump].
    by rewrite (bump_if_affiliation_Some x l _ (a_affiliation a)).
  - rewrite bump_if_ne by done. apply IH.
    apply elem_of_cons in Hin as [?|?]; done.
Qed.

Lemma map_concat_keys articles :
  map _author_key (all_entries articles) = concat (map keys_of articles).
Proof.
  unfold all_entries, keys_of. induction articles as [|a l IH]; simpl; [done|].
  by rewrite map_app, IH.
Qed.

Lemma build_nodes articles v :
  v ∈ nodes (build_coauthor_network articles)
  ↔ v ∈ map _author_key (all_entries articles).
Proof.
  destruct (build_spec articles) as (_ & Hn & _).
  unfold nodes. rewrite <- od_get_is_Some, Hn, bump_if_is_Some.
  split; [intros [[? ?]|?]; done | by right].
Qed.

Lemma build_facts (articles : list Article) :
  let G := build_coauthor_network articles in
  wf_graph G
  ∧ (∀ v, v ∈ nodes G ↔ ∃ a, a ∈ articles ∧ v ∈ keys_of a)
  ∧ (∀ v, v ∈ nodes G →
       ∃ c aff, node_attrs G v = mkNodeAttrs (Some c) (Some aff) ∧ 1 ≤ c)
  ∧ (∀ u v w, edge_weight G u v = Some w → 1 ≤ w ∧ edge_weight G v u = Some w).
Proof.
  destruct (build_spec articles) as (Hwf & Hn & He). cbv zeta.
  split; [done|]. split; [|split].
  - intros v. rewrite build_nodes, map_concat_keys, elem_of_concat. split.
    + intros (l & Hv & Hl). apply list_elem_of_fmap in Hl as (a & -> & Ha). eauto.
    + intros (a & Ha & Hv). exists (keys_of a). split; [done|].
      apply list_elem_of_fmap. eauto.
  - intros v Hv. apply build_nodes in Hv.
    pose proof (bump_if_paper_count v _ None Hv) as Hpc.
    pose proof (bump_if_affiliation_None v _ Hv) as Haf.
    rewrite <- Hn in Hpc, Haf. unfold node_attrs.
    destruct (OD.get v (_node (build_coauthor_network articles))) as [[pc af]|];
      [|done]. simpl in *. injection Hpc as ->. injection Haf as ->.
    eexists _, _. split; [done|].
    assert (0 < length (filter (λ a, v = _author_key a) (all_entries articles)))%nat; [|lia].
    apply list_elem_of_fmap in Hv as (a & Hk & Ha).
    assert (Hf : a ∈ filter (λ a, v = _author_key a) (all_entries articles))
      by (by apply list_elem_of_filter).
    destruct (filter _ _); [by apply elem_of_nil in Hf | simpl; lia].
  - intros u v w Hw. split.
    + rewrite He in Hw. unfold add_count in Hw. case_decide; [done|].
      injection Hw as <-. simpl. lia.
    + by rewrite <- (wf_weight_sym _ Hwf u v).
Qed.

(** The graph the builder returns is a well-formed undirected graph; its
    nodes are exactly the keys of the author entries; every node carries a
    paper_count of at least 1 and an affiliation; every edge has a weight of
    at least 1, the same from both ends. *)
Theorem build_invariants (articles : list Article) :
  let G := build_coauthor_network articles in
  wf_graph G
  ∧ (∀ v, v ∈ nodes G ↔ ∃ a, a ∈ articles ∧ v ∈ keys_of a)
  ∧ (∀ v, v ∈ nodes G →
       ∃ c aff, node_attrs G v = mkNodeAttrs (Some c) (Some aff) ∧ 1 ≤ c)
  ∧ (∀ u v w, edge_weight G u v = Some w → 1 ≤ w ∧ edge_weight G v u = Some w).
Proof. exact (build_facts articles). Qed.

Lemma count_eq_nodup (l : list string) (b : string) :
  NoDup l → length (filter (λ z, z = b) l) = if decide (b ∈ l) then 1%nat else 0%nat.
Proof.
  induction l as [|x l IH]; intros Hnd.
  - simpl. destruct (decide (b ∈ [])) as [H|_]; [by apply elem_of_nil in H | done].
  - apply NoDup_cons in Hnd as [Hx Hnd]. rewrite filter_cons.
    destruct (decide (x = b)) as [->|Hne]; cbn [length]; rewrite (IH Hnd).
    + rewrite (decide_False (P := b ∈ l)) by done. rewrite decide_True; [done | left].
    + destruct (decide (b ∈ l)) as [Hb|Hb].
      * rewrite decide_True; [done | by right].
      * rewrite decide_False; [done|]. rewrite not_elem_of_cons. split; [congruence | done].
Qed.

Lemma count_key_nodup (l : list Author) (k : string) :
  NoDup (map _author_key l) →
  length (filter (λ a, k = _author_key a) l)
  = if decide (k ∈ map _author_key l) then 1%nat else 0%nat.
Proof.
  intros Hnd. rewrite <- (count_eq_nodup _ k Hnd).
  clear. induction l as [|a l IH]; [done|].
  cbn [map]. rewrite !filter_cons.
  destruct (decide (k = _author_key a)) as [->|Hne].
  - rewrite decide_True by done. cbn [length]. by rewrite IH.
  - rewrite decide_False by congruence. done.
Qed.

Lemma entries_with_key_nodup (k : string) (articles : list Article) :
  (∀ a, a ∈ articles → NoDup (keys_of a)) →
  entries_with_key k articles = articles_with_key k articles.
Proof.
  unfold entries_with_key, articles_with_key, all_entries.
  induction articles as [|a l IH]; intros Hnd; [done|].
  cbn [map concat]. rewrite filter_app, length_app, filter_cons.
  rewrite Nat2Z.inj_add, IH by (intros; apply Hnd; by right).
  rewrite count_key_nodup by (apply Hnd; left).
  unfold article_has_key.
  destruct (decide (k ∈ map _author_key (authors a))) as [Hin|Hin].
  - rewrite decide_True by (by apply bool_decide_eq_true). cbn [length]. lia.
  - rewrite decide_False by (by rewrite bool_decide_eq_true). lia.
Qed.

Lemma build_node_lookup (articles : list Article) (k : string) :
  let G := build_coauthor_network articles in
  OD.get k (_node G)
  = if decide (entries_with_key k articles = 0) then None
    else Some (mkNodeAttrs (Some (entries_with_key k articles))
                           (Some (first_nonempty k (all_entries articles)))).
Proof.
  cbv zeta. destruct (build_spec articles) as (_ & Hn & _).
  unfold entries_with_key.
  destruct (decide (k ∈ map _author_key (all_entries articles))) as [Hin|Hin].
  - pose proof (bump_if_paper_count k _ None Hin) as Hpc.
    pose proof (bump_if_affiliation_None k _ Hin) as Haf.
    rewrite <- Hn in Hpc, Haf.
    destruct (OD.get k (_node (build_coauthor_network articles))) as [[pc af]|];
      [|done]. simpl in *. injection Hpc as ->. injection Haf as ->.
    rewrite decide_False; [by rewrite Z.add_0_l|].
    apply list_elem_of_fmap in Hin as (a & Hk & Ha).
    assert (Hf : a ∈ filter (λ a, k = _author_key a) (all_entries articles))
      by (by apply list_elem_of_filter).
    destruct (filter _ _); [by apply elem_of_nil in Hf | simpl; lia].
  - destruct (bump_if_absent k _ None Hin) as [Hf ->]. rewrite Hn, Hf. done.
Qed.

(** Every author entry counts: a node's paper_count is the number of
    author entries, over all articles, that resolve to its key, and its
    affiliation is the first non-empty affiliation among those entries
    (empty when there is none).  A key with no entry has no node. *)
Theorem build_node_attributes (articles : list Article) (k : string) :
  let G := build_coauthor_network articles in
  OD.get k (_node G)
  = if decide (entries_with_key k articles = 0) then None
    else Some (mkNodeAttrs (Some (entries_with_key k articles))
                           (Some (first_nonempty k (all_entries articles)))).
Proof. exact (build_node_lookup articles k). Qed.

(** When no article lists a key twice, paper_count is the number of
    articles on which the key appears. *)
Theorem build_paper_count_distinct (articles : list Article) (k : string) :
  (∀ a, a ∈ articles → NoDup (keys_of a)) →
  k ∈ nodes (build_coauthor_network articles) →
  paper_count (node_attrs (build_coauthor_network articles) k)
  = Some (articles_with_key k articles).
Proof.
  intros Hnd Hk. unfold node_attrs. rewrite build_node_lookup.
  apply build_nodes in Hk.
  rewrite decide_False.
  - simpl. by rewrite entries_with_key_nodup.
  - unfold entries_with_key.
    apply list_elem_of_fmap in Hk as (a & Hk & Ha).
    assert (Hf : a ∈ filter (λ a, k = _author_key a) (all_entries articles))
      by (by apply list_elem_of_filter).
    destruct (filter _ _); [by apply elem_of_nil in Hf | simpl; lia].
Qed.

Lemma build_paper_count_distinct_example :
  paper_count (node_attrs (build_coauthor_network scenario_articles) "B")
  = Some (articles_with_key "B" scenario_articles).
Proof.
  apply (build_paper_count_distinct scenario_articles "B").
  - apply Forall_forall. by apply (bool_decide_unpack _); vm_compute.
  - by apply (bool_decide_unpack _); vm_compute.
Defined.

Lemma length_filter_ext {A} (P Q : A → Prop) `{!∀ x, Decision (P x)}
    `{!∀ x, Decision (Q x)} (l : list A) :
  (∀ x, x ∈ l → (P x ↔ Q x)) → length (filter P l) = length (filter Q l).
Proof.
  induction l as [|x l IH]; intros Hpq; [done|].
  rewrite !filter_cons. pose proof (Hpq x ltac:(left)) as Hx.
  assert (IH' : length (filter P l) = length (filter Q l))
    by (apply IH; intros; apply Hpq; by right).
  destruct (decide (P x)), (decide (Q x)); cbn [length]; try tauto; by rewrite ?IH'.
Qed.

Lemma length_filter_none {A} (P : A → Prop) `{!∀ x, Decision (P x)} (l : list A) :
  (∀ x, x ∈ l → ¬ P x) → length (filter P l) = 0%nat.
Proof.
  induction l as [|x l IH]; intros Hp; [done|].
  rewrite filter_cons. rewrite decide_False by (apply Hp; left).
  apply IH. intros; apply Hp; by right.
Qed.

Lemma count_pairs_map_pair x (l : list string) a b :
  count_pairs a b (map (pair x) l)
  = length (filter (λ z, (x = a ∧ z = b) ∨ (x = b ∧ z = a)) l).
Proof.
  unfold count_pairs. induction l as [|z l IH]; [done|].
  cbn [map]. rewrite !filter_cons. unfold pair_matches at 1.
  destruct (decide ((x, z) = (a, b) ∨ (x, z) = (b, a))) as [Hm|Hm].
  - rewrite decide_True; [cbn [length]; by rewrite IH|].
    destruct Hm as [[= -> ->]|[= -> ->]]; tauto.
  - rewrite decide_False; [done|]. intros [[-> ->]|[-> ->]]; tauto.
Qed.

Lemma count_pairs_comb_distinct (l : list string) a b :
  NoDup l → a ≠ b →
  count_pairs a b (combinations2 l)
  = if decide (a ∈ l ∧ b ∈ l) then 1%nat else 0%nat.
Proof.
  intros Hnd Hab. induction l as [|x l IH].
  - destruct (decide (a ∈ [] ∧ b ∈ [])) as [[H _]|_]; [by apply elem_of_nil in H | done].
  - apply NoDup_cons in Hnd as [Hx Hnd]. cbn [combinations2].
    rewrite count_pairs_app, count_pairs_map_pair, (IH Hnd).
    destruct (decide (x = a)) as [->|Hxa]; [|destruct (decide (x = b)) as [->|Hxb]].
    + rewrite (length_filter_ext _ (λ z, z = b)) by (intros; split; [intros [[_ ?]|[? _]]; done | intros ->; by left]).
      rewrite (count_eq_nodup _ b Hnd).
      rewrite (decide_False (P := a ∈ l ∧ b ∈ l)) by tauto.
      destruct (decide (b ∈ l)) as [Hb|Hb].
      * rewrite decide_True; [done|]. split; [left | by right].
      * rewrite decide_False; [done|]. rewrite !elem_of_cons. intros [_ [?|?]]; done.
    + rewrite (length_filter_ext _ (λ z, z = a)) by (intros; split; [intros [[? _]|[_ ?]]; done | intros ->; by right]).
      rewrite (count_eq_nodup _ a Hnd).
      rewrite (decide_False (P := a ∈ l ∧ b ∈ l)) by tauto.
      destruct (decide (a ∈ l)) as [Ha|Ha].
      * rewrite decide_True; [done|]. split; [by right | left].
      * rewrite decide_False; [done|]. rewrite !elem_of_cons. intros [[?|?] _]; done.
    + rewrite length_filter_none by (intros z _ [[? _]|[? _]]; done).
      destruct (decide (a ∈ l ∧ b ∈ l)) as [Hm|Hm].
      * rewrite decide_True; [done|]. destruct Hm. split; by right.
      * rewrite decide_False; [done|]. rewrite !elem_of_cons.
        intros [[?|?] [?|?]]; try done. tauto.
Qed.

Lemma count_pairs_comb_self (l : list string) a :
  NoDup l → count_pairs a a (combinations2 l) = 0%nat.
Proof.
  intros Hnd. induction l as [|x l IH]; [done|].
  apply NoDup_cons in Hnd as [Hx Hnd]. cbn [combinations2].
  rewrite count_pairs_app, count_pairs_map_pair, (IH Hnd).
  rewrite length_filter_none; [done|].
  intros z Hz [[-> ->]|[-> ->]]; done.
Qed.

Lemma all_pairs_distinct (articles : list Article) a b :
  (∀ x, x ∈ articles → NoDup (keys_of x)) → a ≠ b →
  Z.of_nat (count_pairs a b (all_pairs articles)) = articles_with_both a b articles.
Proof.
  unfold all_pairs, articles_with_both. intros Hnd Hab.
  induction articles as [|x l IH]; [done|].
  cbn [map concat]. rewrite count_pairs_app, filter_cons, Nat2Z.inj_add.
  rewrite IH by (intros; apply Hnd; by right).
  rewrite count_pairs_comb_distinct by (try done; apply Hnd; left).
  unfold article_has_key, keys_of.
  destruct (decide (a ∈ map _author_key (authors x) ∧ b ∈ map _author_key (authors x)))
    as [Hm|Hm].
  - rewrite decide_True by (by rewrite !bool_decide_eq_true). cbn [length]. lia.
  - rewrite decide_False by (by rewrite !bool_decide_eq_true). lia.
Qed.

Lemma all_pairs_self (articles : list Article) a :
  (∀ x, x ∈ articles → NoDup (keys_of x)) →
  count_pairs a a (all_pairs articles) = 0%nat.
Proof.
  unfold all_pairs. intros Hnd. induction articles as [|x l IH]; [done|].
  cbn [map concat]. rewrite count_pairs_app.
  rewrite IH by (intros; apply Hnd; by right).
  by rewrite count_pairs_comb_self by (apply Hnd; left).
Qed.

Lemma build_weight_count (articles : list Article) (x y : string) :
  edge_weight (build_coauthor_network articles) x y
  = if decide (count_pairs x y (all_pairs articles) = 0%nat) then None
    else Some (Z.of_nat (count_pairs x y (all_pairs articles))).
Proof.
  destruct (build_spec articles) as (_ & _ & He). rewrite He. unfold add_count.
  by case_decide.
Qed.

(** The weight of an edge is the number of author pairs, over all
    articles, that join its two endpoints (in either order); endpoints no
    pair joins have no edge.  A pair of two entries with the same key counts
    for the self-loop on that key. *)
Theorem build_edge_weights (articles : list Article) (x y : string) :
  edge_weight (build_coauthor_network articles) x y
  = if decide (count_pairs x y (all_pairs articles) = 0%nat) then None
    else Some (Z.of_nat (count_pairs x y (all_pairs articles))).
Proof. exact (build_weight_count articles x y). Qed.

(** When no article lists a key twice, the graph has no self-loop and the
    weight of every edge is the number of articles on which both endpoints
    appear; two keys that share no article are not linked. *)
Theorem build_edges_distinct (articles : list Article) :
  (∀ a, a ∈ articles → NoDup (keys_of a)) →
  no_self_loops (build_coauthor_network articles)
  ∧ ∀ a b, a ≠ b →
      edge_weight (build_coauthor_network articles) a b
      = if decide (articles_with_both a b articles = 0) then None
        else Some (articles_with_both a b articles).
Proof.
  intros Hnd. split.
  - apply Forall_forall. intros v _ Hv.
    apply od_get_is_Some in Hv as [d Hd].
    pose proof (build_weight_count articles v v) as Hw.
    unfold edge_weight in Hw. rewrite Hd in Hw.
    rewrite all_pairs_self in Hw by done. done.
  - intros a b Hab. rewrite build_weight_count.
    rewrite <- (all_pairs_distinct articles a b Hnd Hab).
    destruct (decide (count_pairs a b (all_pairs articles) = 0%nat)) as [->|Hn].
    + done.
    + rewrite decide_False; [done | lia].
Qed.

Lemma build_edges_distinct_example :
  no_self_loops (build_coauthor_network scenario_articles)
  ∧ ∀ a b, a ≠ b →
      edge_weight (build_coauthor_network scenario_articles) a b
      = if decide (articles_with_both a b scenario_articles = 0) then None
        else Some (articles_with_both a b scenario_articles).
Proof.
  apply (build_edges_distinct scenario_articles).
  apply Forall_forall. by apply (bool_decide_unpack _); vm_compute.
Defined.
(* ------------------------------------------------------------------ *)
(** ** Connected components are reachability classes *)

Lemma cc_loop_rooted G vs seen :
  wf_graph G → (∀ v, v ∈ vs → v ∈ nodes G) →
  Forall (λ c, ∃ r, ∀ x, x ∈ c → reach G r x) (cc_loop G vs seen).
Proof.
  intros Hwf. revert seen. induction vs as [|v vs IH]; intros seen Hvs; simpl.
  - constructor.
  - assert (Hvs' : ∀ x, x ∈ vs → x ∈ nodes G) by (intros; apply Hvs; by right).
    destruct (decide (v ∈ seen)); [by apply IH|].
    constructor; [|by apply IH].
    exists v. intros x Hx.
    by apply (plain_bfs_spec G Hwf v (Hvs v (list_elem_of_here _ _))).
Qed.

(** Two nodes of one component are joined by a path, and no edge leaves a
    component: the components are the classes of "connected by a chain of
    edges". *)
Theorem connected_components_classes (G : Graph) :
  wf_graph G →
  is_partition (connected_components G) (nodes G)
  ∧ (∀ c u v, c ∈ connected_components G → u ∈ c → v ∈ c → reach G u v)
  ∧ (∀ c u v, c ∈ connected_components G → u ∈ c → reach G u v → v ∈ c).
Proof.
  intros Hwf. destruct (connected_components_spec G Hwf) as [Hp Hcl].
  split; [done|]. split.
  - intros c u v Hc Hu Hv.
    pose proof (cc_loop_rooted G (nodes G) ∅ Hwf ltac:(done)) as Hr.
    rewrite Forall_forall in Hr. destruct (Hr c Hc) as [r Hroot].
    eapply rtc_trans; [apply (reach_sym G Hwf), Hroot, Hu | apply Hroot, Hv].
  - intros c u v Hc Hu Hr. rewrite Forall_forall in Hcl.
    pose proof (closed_reach G _ u v (Hcl c Hc) Hr) as Hv.
    rewrite !elem_of_list_to_set in Hv. by apply Hv.
Qed.

Lemma connected_components_classes_example :
  ∀ c u v, c ∈ connected_components communities_example → u ∈ c → v ∈ c →
           reach communities_example u v.
Proof.
  apply (connected_components_classes communities_example).
  by apply (bool_decide_unpack _); vm_compute.
Defined.

(** Communities never cross components: two nodes with the same community
    id lie in one connected component, hence are joined by a chain of
    co-authorships. *)
Theorem communities_within_components
    (greedy_modularity_communities : Graph → option (list (list string))) (G : Graph) :
  greedy_contract greedy_modularity_communities → wf_graph G →
  ∀ u v i,
    detect_communities greedy_modularity_communities G !! u = Some i →
    detect_communities greedy_modularity_communities G !! v = Some i →
    (∃ c, c ∈ connected_components G ∧ u ∈ c ∧ v ∈ c) ∧ reach G u v.
Proof.
  intros Hg Hwf u v i Hu Hv.
  apply (detect_communities_lookup _ Hg G Hwf) in Hu as (j & b & Hj & Hub & ->).
  apply (detect_communities_lookup _ Hg G Hwf) in Hv as (j' & b' & Hj' & Hvb & Heq).
  apply Nat2Z.inj in Heq as <-. rewrite Hj in Hj'. injection Hj' as <-.
  apply list_elem_of_lookup_2 in Hj. apply list_elem_of_bind in Hj as (c & Hb & Hc).
  destruct (blocks_of_partition _ Hg G Hwf c Hc) as (_ & _ & Hel).
  assert (Huc : u ∈ c) by (apply Hel, elem_of_concat; eauto).
  assert (Hvc : v ∈ c) by (apply Hel, elem_of_concat; eauto).
  split; [eauto|].
  by apply (connected_components_classes G Hwf) with c.
Qed.

Lemma communities_within_components_example :
  (∃ c, c ∈ connected_components communities_example ∧ "A" ∈ c ∧ "B" ∈ c)
  ∧ reach communities_example "A" "B".
Proof.
  assert (Hwf : wf_graph communities_example)
    by (by apply (bool_decide_unpack _); vm_compute).
  assert (Ha : detect_communities singletons_or_fail communities_example !! "A" = Some 0)
    by (vm_compute; reflexivity).
  assert (Hb : detect_communities singletons_or_fail communities_example !! "B" = Some 0)
    by (vm_compute; reflexivity).
  exact (communities_within_components singletons_or_fail communities_example
           singletons_or_fail_contract Hwf "A" "B" 0 Ha Hb).
Defined.
(* ------------------------------------------------------------------ *)
(** ** Network statistics *)

Lemma max_by_len_spec cs best :
  max_by_len best cs ∈ best :: cs
  ∧ ∀ c, c ∈ best :: cs → (length c ≤ length (max_by_len best cs))%nat.
Proof.
  revert best. induction cs as [|c cs IH]; intros best; simpl.
  - split; [left|]. intros c Hc. apply list_elem_of_singleton in Hc as ->. done.
  - destruct (IH (if (length best <? length c)%nat then c else best)) as [Hin Hmax].
    split.
    + apply elem_of_cons in Hin as [->|Hin].
      * destruct (length best <? length c)%nat; [right; left | left].
      * right. by right.
    + intros c' Hc'.
      assert (Hstep : (length c' ≤ length (if (length best <? length c)%nat then c else best))%nat
                      ∨ c' ∈ cs).
      { apply elem_of_cons in Hc' as [->|Hc'].
        - left. destruct (Nat.ltb_spec (length best) (length c)); lia.
        - apply elem_of_cons in Hc' as [->|Hc']; [|by right].
          left. destruct (Nat.ltb_spec (length best) (length c)); lia. }
      destruct Hstep as [Hle|Hcs].
      * etrans; [exact Hle|]. apply Hmax. left.
      * apply Hmax. by right.
Qed.

Lemma sum_lengths_concat {A} (ls : list (list A)) :
  sum_list (map length ls) = length (concat ls).
Proof. induction ls as [|l ls IH]; simpl; [done|]. by rewrite length_app, IH. Qed.

Lemma partition_sizes blocks universe :
  NoDup universe → is_partition blocks universe →
  sum_list (map length blocks) = length universe
  ∧ (length blocks ≤ length universe)%nat
  ∧ ∀ b, b ∈ blocks → (1 ≤ length b ≤ length universe)%nat.
Proof.
  intros Hu (Hne & Hnd & Hel).
  assert (Hlen : length (concat blocks) = length universe).
  { apply Permutation_length, NoDup_Permutation; done. }
  rewrite sum_lengths_concat. split; [done|]. rewrite <- Hlen. clear Hel Hlen Hu Hnd.
  induction blocks as [|b bs IH]; simpl.
  - split; [lia|]. intros b Hb. by apply elem_of_nil in Hb.
  - apply Forall_cons in Hne as [Hb Hne]. destruct (IH Hne) as [IH1 IH2].
    rewrite length_app. assert (1 ≤ length b)%nat by (destruct b; [done | simpl; lia]).
    split; [lia|]. intros b' Hb'. apply elem_of_cons in Hb' as [->|Hb']; [lia|].
    specialize (IH2 b' Hb'). lia.
Qed.

(** On a non-empty well-formed graph the statistics count the nodes, the
    connected components (at least one, at most one per node) and the size
    of a largest component; the component sizes add up to the node count. *)
Theorem stats_components (G : Graph) :
  wf_graph G → nodes G ≠ [] →
  let s := get_network_stats G in
  let cs := connected_components G in
  s !! "nodes" = Some (Z2Qc (Z.of_nat (length (nodes G))))
  ∧ s !! "connected_components" = Some (Z2Qc (Z.of_nat (length cs)))
  ∧ (1 ≤ length cs ≤ length (nodes G))%nat
  ∧ sum_list (map length cs) = length (nodes G)
  ∧ ∃ L, s !! "largest_component_size" = Some (Z2Qc (Z.of_nat L))
         ∧ (∃ c, c ∈ cs ∧ length c = L)
         ∧ (∀ c, c ∈ cs → (length c ≤ L)%nat)
         ∧ (1 ≤ L ≤ length (nodes G))%nat.
Proof.
  intros Hwf Hne s cs.
  destruct (connected_components_spec G Hwf) as [Hp _]. fold cs in Hp.
  destruct (partition_sizes cs (nodes G) (wf_nodes_NoDup G Hwf) Hp) as (Hsum & Hlen & Hsz).
  assert (Hcs : cs ≠ []).
  { intros Hnil. rewrite Hnil in Hsum. simpl in Hsum. destruct (nodes G); done. }
  assert (Hs : s = <["nodes" := Z2Qc (number_of_nodes G)]>
                   (<["edges" := Z2Qc (number_of_edges G)]>
                   (<["density" := round4 (density G)]>
                   (<["connected_components" := Z2Qc (Z.of_nat (length cs))]>
                   (<["largest_component_size" :=
                        Z2Qc (Z.of_nat (length (max_by_len [] cs)))]>
                   {["avg_clustering" := round4 (average_clustering G)]}))))).
  { unfold s, get_network_stats. rewrite bool_decide_eq_false_2; [done|].
    intros Hl. by apply nil_length_inv in Hl. }
  rewrite Hs. split.
  { rewrite lookup_insert_eq. by rewrite number_of_nodes_length. }
  split.
  { rewrite !lookup_insert_ne by done. by rewrite lookup_insert_eq. }
  split.
  { split; [destruct cs; [done | simpl; lia] | done]. }
  split; [done|].
  exists (length (max_by_len [] cs)).
  destruct (max_by_len_spec cs []) as [Hin Hmax].
  assert (Hin' : max_by_len [] cs ∈ cs).
  { apply elem_of_cons in Hin as [Hnil|?]; [|done].
    destruct cs as [|c cs']; [done|].
    specialize (Hmax c ltac:(right; left)). rewrite Hnil in Hmax.
    specialize (Hsz c ltac:(left)). simpl in Hmax. lia. }
  split.
  { rewrite !lookup_insert_ne by done. by rewrite lookup_insert_eq. }
  split; [eauto|]. split.
  - intros c Hc. apply Hmax. by right.
  - by apply Hsz.
Qed.

Lemma stats_components_example :
  (1 ≤ length (connected_components communities_example)
   ≤ length (nodes communities_example))%nat
  ∧ sum_list (map length (connected_components communities_example))
    = length (nodes communities_example).
Proof.
  assert (Hwf : wf_graph communities_example)
    by (by apply (bool_decide_unpack _); vm_compute).
  assert (Hne : nodes communities_example ≠ []).
  { assert (H : nodes communities_example = ["A"; "B"; "C"; "D"; "E"; "F"; "G"; "H"; "I"])
      by (vm_compute; reflexivity).
    rewrite H. discriminate. }
  exact (conj (proj1 (proj2 (proj2 (stats_components communities_example Hwf Hne))))
              (proj1 (proj2 (proj2 (proj2 (stats_components communities_example Hwf Hne)))))).
Defined.

Lemma Qc_inv_nonneg n : 0 < n → (0 <= / Z2Qc n)%Qc.
Proof.
  intros Hn. destruct (Qc_frac_unit1 1 n) as [H _]; [lia..|].
  unfold Qcdiv in H. change (Z2Qc 1) with 1%Qc in H. by rewrite Qcmult_1_l in H.
Qed.

Lemma Z2Qc_nonzero n : n ≠ 0 → Z2Qc n ≠ 0%Qc.
Proof. intros Hn Heq. apply Hn. apply Z2Qc_inj. exact Heq. Qed.

Lemma sumQc_bound {A} (f : A → Qc) (l : list A) :
  (∀ x, x ∈ l → (0 <= f x)%Qc ∧ (f x <= 1)%Qc) →
  (0 <= sumQc (map f l))%Qc ∧ (sumQc (map f l) <= Z2Qc (Z.of_nat (length l)))%Qc.
Proof.
  induction l as [|x l IH]; intros Hb.
  - simpl. split; apply Qcle_refl.
  - destruct IH as [IH0 IH1]; [intros; apply Hb; by right|].
    destruct (Hb x ltac:(left)) as [Hx0 Hx1].
    cbn [map sumQc foldr length]. fold (sumQc (map f l)). split.
    + rewrite <- (Qcplus_0_l 0). by apply Qcplus_le_compat.
    + rewrite Nat2Z.inj_succ, <- Z.add_1_l, Z2Qc_add. by apply Qcplus_le_compat.
Qed.

Lemma Qc_mean_unit (s : Qc) (n : Z) :
  0 < n → (0 <= s)%Qc → (s <= Z2Qc n)%Qc →
  (0 <= s / Z2Qc n)%Qc ∧ (s / Z2Qc n <= 1)%Qc.
Proof.
  intros Hn H0 H1. pose proof (Qc_inv_nonneg n Hn) as Hinv. unfold Qcdiv. split.
  - rewrite <- (Qcmult_0_l (/ Z2Qc n)). by apply Qcmult_le_compat_r.
  - rewrite <- (Qcmult_inv_r (Z2Qc n)) by (apply Z2Qc_nonzero; lia).
    by apply Qcmult_le_compat_r.
Qed.

Section Clustering.
Variable G : Graph.

Lemma nbrs_proper_not_self v : v ∉ nbrs_proper G v.
Proof. unfold nbrs_proper. rewrite list_elem_of_filter. tauto. Qed.

Lemma triangles2_range v :
  0 ≤ triangles2 G v
  ≤ Z.of_nat (length (nbrs_proper G v)) * (Z.of_nat (length (nbrs_proper G v)) - 1).
Proof.
  unfold triangles2. set (vs := nbrs_proper G v).
  destruct (sumZ_bound (λ w, Z.of_nat (length (filter (λ x, x ∈ nbrs_proper G w) vs)))
              vs 0 (Z.of_nat (length vs) - 1)) as [? ?]; [|lia].
  intros w Hw. split; [lia|].
  pose proof (length_filter_lt (λ x, x ∈ nbrs_proper G w) vs w Hw
                (nbrs_proper_not_self w)). lia.
Qed.

Lemma clustering_of_range v :
  (0 <= clustering_of G v)%Qc ∧ (clustering_of G v <= 1)%Qc.
Proof.
  unfold clustering_of. pose proof (triangles2_range v) as [Ht0 Ht1].
  case_bool_decide; [split; [apply Qcle_refl | done]|].
  apply Qc_frac_unit1; lia.
Qed.

Lemma average_clustering_range :
  nodes G ≠ [] →
  (0 <= average_clustering G)%Qc ∧ (average_clustering G <= 1)%Qc.
Proof.
  intros Hne. unfold average_clustering.
  destruct (sumQc_bound (clustering_of G) (nodes G)) as [H0 H1].
  { intros; apply clustering_of_range. }
  rewrite number_of_nodes_length. apply Qc_mean_unit; [|done..].
  destruct (nodes G); [done | simpl; lia].
Qed.
End Clustering.

(** On a non-empty well-formed graph the reported average clustering lies
    in [0, 1], and so does the reported density when the graph has no
    self-loop. *)
Theorem stats_ranges (G : Graph) :
  wf_graph G → nodes G ≠ [] →
  (∃ a, get_network_stats G !! "avg_clustering" = Some a
        ∧ (0 <= a)%Qc ∧ (a <= 1)%Qc)
  ∧ (∃ d, get_network_stats G !! "density" = Some d
          ∧ (0 <= d)%Qc ∧ (no_self_loops G → (d <= 1)%Qc)).
Proof.
  intros Hwf Hne. split.
  - exists (round4 (average_clustering G)). split.
    + unfold get_network_stats. rewrite bool_decide_eq_false_2.
      * rewrite !lookup_insert_ne by done. apply lookup_singleton_eq.
      * intros Hl. by apply nil_length_inv in Hl.
    + destruct (average_clustering_range G Hne). by apply round4_unit.
  - exists (round4 (density G)). split; [by apply stats_density|].
    destruct (density_range G Hwf) as [Hd0 Hd1].
    split; [by apply round4_nonneg|]. intros Hns. apply round4_unit; auto.
Qed.

Lemma stats_ranges_example :
  ∃ a, get_network_stats communities_example !! "avg_clustering" = Some a
       ∧ (0 <= a)%Qc ∧ (a <= 1)%Qc.
Proof.
  assert (Hwf : wf_graph communities_example)
    by (by apply (bool_decide_unpack _); vm_compute).
  assert (Hne : nodes communities_example ≠ []).
  { assert (H : nodes communities_example = ["A"; "B"; "C"; "D"; "E"; "F"; "G"; "H"; "I"])
      by (vm_compute; reflexivity).
    rewrite H. discriminate. }
  exact (proj1 (stats_ranges communities_example Hwf Hne)).
Defined.
(* ------------------------------------------------------------------ *)
(** ** The rendering layer *)

Lemma bind_run {A B} (m : M A) (k : A → M B) g a :
  m g = (inr a, g) → (m ≫= k) g = k a g.
Proof. intros H. unfold mbind, M_bind, bind. by rewrite H. Qed.

Lemma mapM_run {A B} (f : A → M B) (h : A → B) l g :
  (∀ x, x ∈ l → f x g = (inr (h x), g)) → mapM f l g = (inr (map h l), g).
Proof.
  induction l as [|x l IH]; intros Hf; [done|].
  cbn [mapM map]. rewrite (bind_run _ _ g (h x)) by (apply Hf; left).
  rewrite (bind_run _ _ g (map h l)) by (apply IH; intros; apply Hf; by right).
  done.
Qed.

Lemma foldM_run {A B} (f : B → A → M B) (h : B → A → B) l b g :
  (∀ b x, x ∈ l → f b x g = (inr (h b x), g)) →
  foldM f b l g = (inr (foldl h b l), g).
Proof.
  revert b. induction l as [|x l IH]; intros b Hf; [done|].
  cbn [foldM]. rewrite (bind_run _ _ g (h b x)) by (apply Hf; left).
  apply IH. intros; apply Hf; by right.
Qed.

(** The edges that reach the threshold, and their endpoints in the order
    they are met. *)
Definition shown_edges (G : Graph) (min_coauthor : Z) : list (string * string) :=
  map (λ e, (e.1.1, e.1.2)) (filter (λ e, min_coauthor ≤ weight e.2) (edges G)).
Definition shown_nodes (G : Graph) (min_coauthor : Z) : list string :=
  foldl (λ s '(u, v), set_add (set_add s u) v) [] (shown_edges G min_coauthor).

Lemma set_add_elem s x y : y ∈ set_add s x ↔ y = x ∨ y ∈ s.
Proof.
  unfold set_add. case_bool_decide as Hx.
  - split; [by right | intros [->|?]; done].
  - rewrite elem_of_app, list_elem_of_singleton. tauto.
Qed.

Lemma set_add_NoDup s x : NoDup s → NoDup (set_add s x).
Proof.
  intros Hnd. unfold set_add. case_bool_decide as Hx; [done|].
  apply NoDup_app. split; [done|]. split; [|apply NoDup_singleton].
  intros y Hy ->%list_elem_of_singleton. done.
Qed.

Lemma endpoints_spec (fe : list (string * string)) s0 :
  NoDup s0 →
  let s := foldl (λ s '(u, v), set_add (set_add s u) v) s0 fe in
  NoDup s ∧ ∀ x, x ∈ s ↔ x ∈ s0 ∨ ∃ p, p ∈ fe ∧ (x = p.1 ∨ x = p.2).
Proof.
  revert s0. induction fe as [|[u v] fe IH]; intros s0 Hnd.
  - simpl. split; [done|]. intros x. split; [by left|].
    intros [?|(p & Hp & _)]; [done | by apply elem_of_nil in Hp].
  - change (foldl _ s0 ((u, v) :: fe))
      with (foldl (λ s '(u, v), set_add (set_add s u) v) (set_add (set_add s0 u) v) fe).
    destruct (IH (set_add (set_add s0 u) v)) as [H1 H2];
      [by do 2 apply set_add_NoDup|].
    split; [done|]. intros x. cbv zeta in H2. rewrite H2, !set_add_elem. split.
    + intros [[->|[->|?]]|(p & Hp & Hx)].
      * right. exists (u, v). split; [left | by right].
      * right. exists (u, v). split; [left | by left].
      * by left.
      * right. exists p. split; [by right | done].
    + intros [?|(p & Hp & Hx)]; [tauto|].
      apply elem_of_cons in Hp as [->|Hp]; [simpl in Hx; tauto|].
      right. eauto.
Qed.

Lemma shown_nodes_spec G min_coauthor :
  NoDup (shown_nodes G min_coauthor)
  ∧ ∀ x, x ∈ shown_nodes G min_coauthor
         ↔ ∃ p, p ∈ shown_edges G min_coauthor ∧ (x = p.1 ∨ x = p.2).
Proof.
  destruct (endpoints_spec (shown_edges G min_coauthor) [] (NoDup_nil_2)) as [H1 H2].
  split; [done|]. intros x. cbv zeta in H2. unfold shown_nodes. rewrite H2.
  split; [intros [H|?]; [by apply elem_of_nil in H | done] | by right].
Qed.

Lemma shown_edges_spec G min_coauthor u v :
  (u, v) ∈ shown_edges G min_coauthor
  ↔ ∃ d, (u, v, d) ∈ edges G ∧ min_coauthor ≤ weight d.
Proof.
  unfold shown_edges. rewrite list_elem_of_fmap. split.
  - intros ([[u' v'] d] & [= -> ->] & Hin). apply list_elem_of_filter in Hin as [Hw Hin].
    eauto.
  - intros (d & Hin & Hw). exists (u, v, d). split; [done|].
    apply list_elem_of_filter. done.
Qed.

(** A computation that never returns the "no nodes" message. *)
Definition never_message (m : M Html) : Prop := ∀ g, (m g).1 ≠ inr NoNodesMessage.

Lemma never_message_bind {A} (m : M A) (k : A → M Html) :
  (∀ a, never_message (k a)) → never_message (m ≫= k).
Proof.
  intros Hk g. unfold mbind, M_bind, bind. destruct (m g) as [[e|a] g']; [done|].
  apply Hk.
Qed.

(** The page is replaced by the fixed message exactly when no edge of the
    graph reaches the threshold (in particular, for a graph without edges). *)
Theorem no_nodes_message_iff (sqrt : Qc → Qc) (communities : gmap string Z)
    (min_coauthor : Z) (height : string) (G : Graph) :
  (generate_network_html sqrt communities min_coauthor height G).1 = inr NoNodesMessage
  ↔ ∀ e, e ∈ edges G → weight e.2 < min_coauthor.
Proof.
  unfold generate_network_html. rewrite (bind_run _ _ G (edges G)) by done.
  fold (shown_edges G min_coauthor). fold (shown_nodes G min_coauthor).
  assert (Hempty : shown_nodes G min_coauthor = []
                   ↔ ∀ e, e ∈ edges G → weight e.2 < min_coauthor).
  { destruct (shown_nodes_spec G min_coauthor) as [_ Hn]. split.
    - intros Hnil [[u v] d] He. simpl. destruct (decide (min_coauthor ≤ weight d)); [|lia].
      assert (Hu : u ∈ shown_nodes G min_coauthor).
      { apply Hn. exists (u, v). split; [|by left]. apply shown_edges_spec. eauto. }
      rewrite Hnil in Hu. by apply elem_of_nil in Hu.
    - intros Hall. destruct (shown_nodes G min_coauthor) as [|x l]; [done|].
      destruct (proj1 (Hn x) ltac:(left)) as ([u v] & Hp & _). apply shown_edges_spec in Hp as (d & Hd & Hw).
      specialize (Hall _ Hd). simpl in Hall. lia. }
  case_bool_decide as Hb.
  - split; [intros _; by apply Hempty | done].
  - split; [|intros Hall; by apply Hempty in Hall].
    intros Hr. exfalso. revert Hr.
    apply never_message_bind. intros pcs.
    apply never_message_bind. intros net.
    apply never_message_bind. intros ws.
    apply never_message_bind. intros net'. intros g. done.
Qed.

Lemma edges_from_elem a seen u v d :
  (u, v, d) ∈ edges_from a seen → ∃ ns, (u, ns) ∈ a ∧ (v, d) ∈ ns ∧ v ∉ seen.
Proof.
  revert seen. induction a as [|[n ns] a IH]; intros seen; simpl.
  - intros H. by apply elem_of_nil in H.
  - intros [H|H]%elem_of_app.
    + apply list_elem_of_fmap in H as ([nbr dd] & [= -> -> ->] & Hin).
      apply list_elem_of_filter in Hin as [Hs Hin]. exists ns.
      split; [left | done].
    + destruct (IH _ H) as (ns' & H1 & H2 & H3). exists ns'.
      split; [by right|]. split; [done|]. rewrite not_elem_of_cons in H3. tauto.
Qed.

Lemma edges_lookup G u v d :
  wf_graph G → (u, v, d) ∈ edges G →
  OD.get u (_adj G) = Some (nbrs G u) ∧ OD.get v (nbrs G u) = Some d
  ∧ u ∈ nodes G ∧ v ∈ nodes G.
Proof.
  intros Hwf He. apply edges_from_elem in He as (ns & Hrow & Hin & _).
  destruct Hwf as (Hnd & Hk & Hall).
  assert (Hg : OD.get u (_adj G) = Some ns) by (apply od_elem_get; [by rewrite Hk | done]).
  assert (Hns : nbrs G u = ns) by (unfold nbrs; by rewrite Hg).
  rewrite Forall_forall in Hall. destruct (Hall _ Hrow) as [Hndr Hr]. simpl in *.
  rewrite Forall_forall in Hr. destruct (Hr _ Hin) as [Hv _]. simpl in Hv.
  rewrite Hns. split; [done|]. split; [by apply od_elem_get|]. split; [|done].
  rewrite <- Hk. apply list_elem_of_fmap. by exists (u, ns).
Qed.

Lemma max_default_ge l d x : x ∈ l → x ≤ max_default l d.
Proof.
  destruct l as [|y l]; [intros H; by apply elem_of_nil in H|]. simpl.
  assert (Hmono : ∀ l a, a ≤ foldl Z.max a l ∧ ∀ x, x ∈ l → x ≤ foldl Z.max a l).
  { clear. induction l as [|z l IH]; intros a; simpl.
    - split; [lia|]. intros x H. by apply elem_of_nil in H.
    - destruct (IH (Z.max a z)) as [H1 H2]. split; [lia|].
      intros x [->|Hx]%elem_of_cons; [lia | auto]. }
  destruct (Hmono l y) as [H1 H2].
  intros [->|Hx]%elem_of_cons; [done | auto].
Qed.

Section Render.
Variable sqrt : Qc → Qc.
Variable communities : gmap string Z.
Variable G : Graph.

(** [G.nodes[n].get("paper_count", 1)] and [G[u][v].get("weight", 1)]
    when the keys are there. *)
Definition pc_of (n : string) : Z := default 1 (paper_count (node_attrs G n)).
Definition weight_of (uv : string * string) : Z := default 1 (edge_weight G uv.1 uv.2).

(** What [net.add_node] receives for [node]. *)
Definition render_node (max_papers : Z) (node : string) : NetNode :=
  let paper_count := pc_of node in
  let affiliation := default "" (affiliation (node_attrs G node)) in
  let comm_id := default 0 (communities !! node) in
  let color :=
    default "" (COMMUNITY_COLORS
                  !! Z.to_nat (comm_id `mod` Z.of_nat (length COMMUNITY_COLORS))) in
  let root := sqrt (Z2Qc paper_count / Z2Qc max_papers)%Qc in
  let size := (Z2Qc 10 + Z2Qc 30 * root)%Qc in
  let title :=
    "<b>" +:+ node +:+ "</b><br>Papers: " +:+ pretty paper_count
    +:+ "<br>Community: " +:+ pretty comm_id in
  let title :=
    if bool_decide (affiliation ≠ "")
    then title +:+ "<br>Affiliation: " +:+ String.substring 0 100 affiliation
    else title in
  mkNetNode node node size color title.

(** What [net.add_edge] receives for the edge [uv]. *)
Definition render_edge (max_weight : Z) (uv : string * string) : NetEdge :=
  let weight := weight_of uv in
  mkNetEdge uv.1 uv.2 weight (Z2Qc 1 + Z2Qc 4 * (Z2Qc weight / Z2Qc max_weight))%Qc
            ("Co-authored: " +:+ pretty weight).

(** The network handed to pyvis when nothing raises. *)
Definition render_net (min_coauthor : Z) (height : string) : Network :=
  let fe := shown_edges G min_coauthor in
  let ns := shown_nodes G min_coauthor in
  let max_papers := max_default (map pc_of ns) 1 in
  let max_weight := max_default (map weight_of fe) 1 in
  foldl (λ net uv, net_add_edge net (render_edge max_weight uv))
        (foldl (λ net n, net_add_node net (render_node max_papers n))
               (mkNetwork height [] []) ns)
        fe.

Hypothesis Hwf : wf_graph G.
Hypothesis Hpc : ∀ v, v ∈ nodes G → 1 ≤ pc_of v.
Hypothesis Hw : ∀ e, e ∈ edges G → 1 ≤ weight e.2.

Lemma shown_edge_data min_coauthor u v :
  (u, v) ∈ shown_edges G min_coauthor →
  ∃ d, OD.get u (_adj G) = Some (nbrs G u) ∧ OD.get v (nbrs G u) = Some d
       ∧ u ∈ nodes G ∧ v ∈ nodes G ∧ 1 ≤ weight d ∧ min_coauthor ≤ weight d.
Proof.
  intros (d & He & Hmin)%shown_edges_spec.
  destruct (edges_lookup G u v d Hwf He) as (H1 & H2 & H3 & H4).
  exists d. repeat split; try done. apply (Hw _ He).
Qed.

Lemma shown_node_in min_coauthor n :
  n ∈ shown_nodes G min_coauthor → n ∈ nodes G.
Proof.
  intros ([u v] & Hp & Hn)%shown_nodes_spec.
  destruct (shown_edge_data _ _ _ Hp) as (d & _ & _ & Hu & Hv & _).
  simpl in Hn. destruct Hn as [->| ->]; done.
Qed.

Lemma get_paper_count_run n :
  n ∈ nodes G → get_paper_count n G = (inr (pc_of n), G).
Proof.
  intros Hn. apply od_get_is_Some in Hn as [a Ha].
  unfold get_paper_count, pc_of, node_attrs.
  rewrite (bind_run _ _ G a); [by rewrite Ha|]. unfold read_key. by rewrite Ha.
Qed.

Lemma get_weight_run min_coauthor u v :
  (u, v) ∈ shown_edges G min_coauthor →
  get_weight u v G = (inr (weight_of (u, v)), G) ∧ 1 ≤ weight_of (u, v).
Proof.
  intros Hp. destruct (shown_edge_data _ _ _ Hp) as (d & H1 & H2 & _ & _ & Hd & _).
  unfold get_weight, weight_of, edge_weight. simpl. rewrite H2. simpl. split; [|done].
  rewrite (bind_run _ _ G (nbrs G u)) by (unfold read_key; by rewrite H1).
  rewrite (bind_run _ _ G d) by (unfold read_key; by rewrite H2). done.
Qed.

Lemma true_div_run a b : b ≠ 0 → true_div a b G = (inr (Z2Qc a / Z2Qc b)%Qc, G).
Proof. intros Hb. unfold true_div. by rewrite bool_decide_eq_false_2. Qed.

Lemma checked_sqrt_run a b :
  0 ≤ a → 0 < b →
  checked_sqrt sqrt (Z2Qc a / Z2Qc b)%Qc G = (inr (sqrt (Z2Qc a / Z2Qc b)%Qc), G).
Proof.
  intros Ha Hb. unfold checked_sqrt. rewrite bool_decide_eq_false_2; [done|].
  apply Qcle_not_lt.
  replace (Z2Qc a / Z2Qc b)%Qc with (Z2Qc a / Z2Qc b * Z2Qc 1)%Qc by apply Qcmult_1_r.
  apply Qc_frac_nonneg; lia.
Qed.

(** Under the hypotheses nothing raises, and the page is built from
    [render_net]. *)
Lemma generate_network_html_run min_coauthor height :
  generate_network_html sqrt communities min_coauthor height G
  = (inr (if bool_decide (shown_nodes G min_coauthor = []) then NoNodesMessage
          else Page (render_net min_coauthor height)), G).
Proof.
  unfold generate_network_html. rewrite (bind_run _ _ G (edges G)) by done.
  fold (shown_edges G min_coauthor). fold (shown_nodes G min_coauthor).
  case_bool_decide as Hb; [done|].
  set (ns := shown_nodes G min_coauthor). set (fe := shown_edges G min_coauthor).
  rewrite (bind_run _ _ G (map pc_of ns)).
  2:{ apply mapM_run. intros x Hx. apply get_paper_count_run.
      by apply (shown_node_in min_coauthor). }
  set (max_papers := max_default (map pc_of ns) 1).
  assert (Hmax : ∀ n, n ∈ ns → 1 ≤ pc_of n ≤ max_papers).
  { intros n Hn. split; [by apply Hpc, (shown_node_in min_coauthor)|].
    apply max_default_ge. apply list_elem_of_fmap. eauto. }
  rewrite (bind_run _ _ G (foldl (λ net n, net_add_node net (render_node max_papers n))
                                 (mkNetwork height [] []) ns)).
  2:{ apply foldM_run. intros net n Hn.
      pose proof (shown_node_in min_coauthor n Hn) as Hin.
      destruct (Hmax n Hn) as [Hp1 Hp2].
      rewrite (bind_run _ _ G (pc_of n)) by by apply get_paper_count_run.
      apply od_get_is_Some in Hin as [a Ha].
      rewrite (bind_run _ _ G a) by (unfold read_key; by rewrite Ha).
      rewrite (bind_run _ _ G (Z2Qc (pc_of n) / Z2Qc max_papers)%Qc)
        by (apply true_div_run; lia).
      rewrite (bind_run _ _ G (sqrt (Z2Qc (pc_of n) / Z2Qc max_papers)%Qc))
        by (apply checked_sqrt_run; lia).
      unfold render_node, node_attrs. rewrite Ha. done. }
  rewrite (bind_run _ _ G (map weight_of fe)).
  2:{ apply (mapM_run _ weight_of). intros [u v] Hx.
      by apply (get_weight_run min_coauthor). }
  set (max_weight := max_default (map weight_of fe) 1).
  rewrite (bind_run _ _ G (render_net min_coauthor height)); [done|].
  unfold render_net. fold ns fe max_papers max_weight.
  apply (foldM_run _ (λ net uv, net_add_edge net (render_edge max_weight uv))).
  intros net [u v] Hx.
  destruct (get_weight_run min_coauthor u v Hx) as [Hrun Hpos].
  rewrite (bind_run _ _ G (weight_of (u, v))) by done.
  assert (weight_of (u, v) ≤ max_weight).
  { apply max_default_ge. apply list_elem_of_fmap. eauto. }
  rewrite (bind_run _ _ G (Z2Qc (weight_of (u, v)) / Z2Qc max_weight)%Qc)
    by (apply true_div_run; lia).
  done.
Qed.
End Render.

(** [G.edges] yields the edge from the endpoint whose row comes first. *)
Lemma edges_from_iff a seen u v d :
  (u, v, d) ∈ edges_from a seen
  ↔ ∃ a1 ns a2, a = a1 ++ (u, ns) :: a2 ∧ (v, d) ∈ ns
                ∧ v ∉ seen ∧ v ∉ OD.keys a1.
Proof.
  revert seen. induction a as [|[n ns] a IH]; intros seen; simpl.
  - split; [intros H; by apply elem_of_nil in H|].
    intros (a1 & ns & a2 & Heq & _). by destruct a1.
  - rewrite elem_of_app, IH. split.
    + intros [H|(a1 & ns' & a2 & -> & Hin & Hs & Hk)].
      * apply list_elem_of_fmap in H as ([nbr dd] & [= -> -> ->] & Hin).
        apply list_elem_of_filter in Hin as [Hs Hin].
        exists [], ns, a. repeat split; try done. apply not_elem_of_nil.
      * apply not_elem_of_cons in Hs as [Hvn Hs].
        exists ((n, ns) :: a1), ns', a2. repeat split; try done.
        unfold OD.keys. rewrite fmap_cons. simpl. rewrite not_elem_of_cons. done.
    + intros (a1 & ns' & a2 & Heq & Hin & Hs & Hk).
      destruct a1 as [|[n1 ns1] a1]; simpl in Heq.
      * injection Heq as -> -> ->. left. apply list_elem_of_fmap.
        exists (v, d). split; [done|]. apply list_elem_of_filter. done.
      * injection Heq as -> -> ->. right.
        unfold OD.keys in Hk. rewrite fmap_cons in Hk. simpl in Hk.
        apply not_elem_of_cons in Hk as [Hvn Hk].
        exists a1, ns', a2. repeat split; try done.
        rewrite not_elem_of_cons. done.
Qed.

Lemma edges_complete G u v d :
  wf_graph G → OD.get v (nbrs G u) = Some d →
  (u, v, d) ∈ edges G ∨ (v, u, d) ∈ edges G.
Proof.
  intros Hwf Hg. pose proof Hwf as (Hnd & Hk & _).
  apply od_get_Some in Hg as Hin.
  destruct (wf_neighbor_data G Hwf u v d Hin) as (Hv & Hu & Hg').
  apply od_get_Some in Hg' as Hin'.
  pose proof (wf_nbrs_row G Hwf u Hu) as Hrow.
  apply list_elem_of_split in Hrow as (a1 & a2 & Heq).
  destruct (decide (v ∈ OD.keys a1)) as [Hva|Hva].
  - right. unfold edges. apply edges_from_iff.
    pose proof (wf_nbrs_row G Hwf v Hv) as Hrowv.
    apply list_elem_of_fmap in Hva as ([v' nsv] & Hv' & Hinv). simpl in Hv'. subst v'.
    assert (nsv = nbrs G v) as ->.
    { assert (Hgv : OD.get v (_adj G) = Some nsv).
      { apply od_elem_get; [by rewrite Hk|]. rewrite Heq. apply elem_of_app. by left. }
      unfold nbrs. by rewrite Hgv. }
    apply list_elem_of_split in Hinv as (b1 & b2 & Hb).
    exists b1, (nbrs G v), (b2 ++ (u, nbrs G u) :: a2).
    split; [rewrite Heq, Hb, <- app_assoc; done|]. split; [done|].
    split; [apply not_elem_of_nil|].
    intros Hub. rewrite <- Hk, Heq, Hb in Hnd. unfold OD.keys in Hnd.
    rewrite !fmap_app, !fmap_cons in Hnd. simpl in Hnd.
    apply NoDup_app in Hnd as (_ & Hdisj & _). apply (Hdisj u).
    + apply elem_of_app. by left.
    + left.
  - left. unfold edges. apply edges_from_iff.
    exists a1, (nbrs G u), a2. repeat split; try done. apply not_elem_of_nil.
Qed.

Lemma edge_weight_edges G u v w :
  wf_graph G →
  edge_weight G u v = Some w
  ↔ ∃ d, weight d = w ∧ ((u, v, d) ∈ edges G ∨ (v, u, d) ∈ edges G).
Proof.
  intros Hwf. unfold edge_weight. split.
  - destruct (OD.get v (nbrs G u)) as [d|] eqn:Hg; [|done]. intros [= <-].
    exists d. split; [done|]. by apply edges_complete.
  - intros (d & <- & [He|He]).
    + destruct (edges_lookup G u v d Hwf He) as (_ & -> & _). done.
    + destruct (edges_lookup G v u d Hwf He) as (_ & Hg & _).
      apply od_get_Some in Hg.
      destruct (wf_neighbor_data G Hwf v u d Hg) as (_ & _ & ->). done.
Qed.

Lemma add_nodes_ids (f : string → NetNode) (ns : list string) net :
  (∀ n, nn_id (f n) = n) →
  NoDup (map nn_id (net_nodes net) ++ ns) →
  let net' := foldl (λ net n, net_add_node net (f n)) net ns in
  map nn_id (net_nodes net') = map nn_id (net_nodes net) ++ ns
  ∧ net_edges net' = net_edges net
  ∧ ∀ x, x ∈ net_nodes net' → x ∈ net_nodes net ∨ ∃ n, n ∈ ns ∧ x = f n.
Proof.
  intros Hid. revert net. induction ns as [|n ns IH]; intros net Hnd.
  - simpl. rewrite app_nil_r. split; [done|]. split; [done|]. by left.
  - change (foldl _ net (n :: ns))
      with (foldl (λ net n, net_add_node net (f n)) (net_add_node net (f n)) ns).
    assert (Hnew : n ∉ map nn_id (net_nodes net)).
    { apply NoDup_app in Hnd as (_ & Hd & _). intros Hin. apply (Hd n Hin). left. }
    assert (Hadd : net_add_node net (f n)
                   = mkNetwork (net_height net) (net_nodes net ++ [f n]) (net_edges net)).
    { unfold net_add_node. rewrite Hid. by rewrite bool_decide_eq_false_2. }
    destruct (IH (net_add_node net (f n))) as (H1 & H2 & H3).
    { rewrite Hadd. simpl. rewrite map_app. simpl. rewrite Hid, <- app_assoc. done. }
    cbv zeta in *. split; [|split].
    { rewrite H1, Hadd. simpl. rewrite map_app. simpl.
      rewrite Hid, <- app_assoc. done. }
    { rewrite H2, Hadd. done. }
    intros x Hx. destruct (H3 x Hx) as [Hin|(m & Hm & ->)].
    + rewrite Hadd in Hin. simpl in Hin. apply elem_of_app in Hin as [?|Hin]; [by left|].
      apply list_elem_of_singleton in Hin as ->. right. exists n. split; [left | done].
    + right. exists m. split; [by right | done].
Qed.

(** [e] joins the same two nodes as [e']. *)
Definition same_ends (e e' : NetEdge) : Prop :=
  (ne_from e = ne_to e' ∧ ne_to e = ne_from e')
  ∨ (ne_from e = ne_from e' ∧ ne_to e = ne_to e').

Lemma add_edges_spec (f : string * string → NetEdge) (fe : list (string * string)) net :
  let net' := foldl (λ net uv, net_add_edge net (f uv)) net fe in
  net_nodes net' = net_nodes net
  ∧ (∀ e, e ∈ net_edges net' → e ∈ net_edges net ∨ ∃ uv, uv ∈ fe ∧ e = f uv)
  ∧ (∀ e, e ∈ net_edges net → e ∈ net_edges net')
  ∧ (∀ uv, uv ∈ fe → ∃ e, e ∈ net_edges net' ∧ same_ends (f uv) e).
Proof.
  revert net. induction fe as [|uv fe IH]; intros net.
  - simpl. split; [done|]. split; [by left|]. split; [done|].
    intros uv H. by apply elem_of_nil in H.
  - change (foldl _ net (uv :: fe))
      with (foldl (λ net uv, net_add_edge net (f uv)) (net_add_edge net (f uv)) fe).
    destruct (IH (net_add_edge net (f uv))) as (H1 & H2 & H3 & H4). cbv zeta in *.
    assert (Hstep : net_nodes (net_add_edge net (f uv)) = net_nodes net
                    ∧ (∀ e, e ∈ net_edges (net_add_edge net (f uv)) →
                            e ∈ net_edges net ∨ e = f uv)
                    ∧ (∀ e, e ∈ net_edges net → e ∈ net_edges (net_add_edge net (f uv)))
                    ∧ ∃ e, e ∈ net_edges (net_add_edge net (f uv)) ∧ same_ends (f uv) e).
    { unfold net_add_edge. case_bool_decide as Hex.
      - split; [done|]. split; [by left|]. split; [done|].
        apply Exists_exists in Hex as (e' & He' & Hs). exists e'. done.
      - simpl. split; [done|]. split.
        + intros e [?|He]%elem_of_app; [by left|].
          apply list_elem_of_singleton in He. by right.
        + split; [intros e He; apply elem_of_app; by left|].
          exists (f uv). split; [apply elem_of_app; right; left|]. by right. }
    destruct Hstep as (S1 & S2 & S3 & e0 & S4 & S5).
    split; [by rewrite H1|]. split; [|split].
    + intros e He. destruct (H2 e He) as [Hin|(uv' & Hu & ->)].
      * destruct (S2 e Hin) as [?| ->]; [by left|]. right. exists uv. split; [left | done].
      * right. exists uv'. split; [by right | done].
    + intros e He. auto.
    + intros uv' [->|Hu]%elem_of_cons; [|auto].
      exists e0. split; [auto | done].
Qed.

Lemma width_range a b :
  1 ≤ a → a ≤ b →
  (Z2Qc 1 < Z2Qc 1 + Z2Qc 4 * (Z2Qc a / Z2Qc b))%Qc
  ∧ (Z2Qc 1 + Z2Qc 4 * (Z2Qc a / Z2Qc b) <= Z2Qc 5)%Qc.
Proof.
  intros Ha Hb. destruct b as [|p|p]; try lia. split.
  - apply Qcnot_le_lt.
    unfold Qcle, Qcplus, Qcdiv, Qcmult, Qcinv, Z2Qc. rewrite !this_Q2Qc.
    unfold Qle, Qplus, Qmult, Qinv; simpl. nia.
  - unfold Qcle, Qcplus, Qcdiv, Qcmult, Qcinv, Z2Qc. rewrite !this_Q2Qc.
    unfold Qle, Qplus, Qmult, Qinv; simpl. nia.
Qed.

Lemma size_range (sqrt : Qc → Qc) a b :
  (∀ x, (0 <= x)%Qc → (x <= 1)%Qc → (0 <= sqrt x)%Qc ∧ (sqrt x <= 1)%Qc) →
  1 ≤ a → a ≤ b →
  (Z2Qc 10 <= Z2Qc 10 + Z2Qc 30 * sqrt (Z2Qc a / Z2Qc b))%Qc
  ∧ (Z2Qc 10 + Z2Qc 30 * sqrt (Z2Qc a / Z2Qc b) <= Z2Qc 40)%Qc.
Proof.
  intros Hs Ha Hb.
  destruct (Qc_frac_unit1 a b) as [H0 H1]; [lia..|].
  destruct (Hs _ H0 H1) as [S0 S1].
  assert (H30 : (0 <= Z2Qc 30)%Qc) by (apply (Z2Qc_le 0 30); lia).
  split.
  - apply Qcle_trans with (Z2Qc 10 + 0)%Qc; [rewrite Qcplus_0_r; apply Qcle_refl|].
    apply Qcplus_le_compat; [apply Qcle_refl|].
    apply Qcle_trans with (0 * sqrt (Z2Qc a / Z2Qc b))%Qc;
      [rewrite Qcmult_0_l; apply Qcle_refl|].
    by apply Qcmult_le_compat_r.
  - replace (Z2Qc 40) with (Z2Qc 10 + Z2Qc 30 * 1)%Qc
      by (rewrite Qcmult_1_r, <- Z2Qc_add; done).
    apply Qcplus_le_compat; [apply Qcle_refl|].
    rewrite !(Qcmult_comm (Z2Qc 30)). by apply Qcmult_le_compat_r.
Qed.

Lemma palette_color (comm_id : Z) :
  default "" (COMMUNITY_COLORS
                !! Z.to_nat (comm_id `mod` Z.of_nat (length COMMUNITY_COLORS)))
  ∈ COMMUNITY_COLORS.
Proof.
  pose proof (Z.mod_pos_bound comm_id (Z.of_nat (length COMMUNITY_COLORS))) as Hb.
  destruct (lookup_lt_is_Some_2 COMMUNITY_COLORS
              (Z.to_nat (comm_id `mod` Z.of_nat (length COMMUNITY_COLORS))))
    as [c Hc].
  { simpl in *. lia. }
  rewrite Hc. simpl. by apply list_elem_of_lookup_2 in Hc.
Qed.

Section Page.
Variable sqrt : Qc → Qc.
Variable communities : gmap string Z.
Variable G : Graph.
Variable min_coauthor : Z.
Variable height : string.
Hypothesis Hwf : wf_graph G.
Hypothesis Hpc : ∀ v, v ∈ nodes G → 1 ≤ pc_of G v.
Hypothesis Hw : ∀ e, e ∈ edges G → 1 ≤ weight e.2.

Lemma shown_nodes_weight x :
  x ∈ shown_nodes G min_coauthor
  ↔ ∃ y w, edge_weight G x y = Some w ∧ min_coauthor ≤ w.
Proof.
  destruct (shown_nodes_spec G min_coauthor) as [_ Hn]. rewrite Hn. split.
  - intros ([u v] & (d & He & Hmin)%shown_edges_spec & Hx). simpl in Hx.
    destruct Hx as [->| ->].
    + exists v, (weight d). split; [|done]. apply edge_weight_edges; eauto.
    + exists u, (weight d). split; [|done]. apply edge_weight_edges; eauto.
  - intros (y & w & (d & <- & [He|He])%edge_weight_edges & Hmin); [| |done].
    + exists (x, y). split; [|by left]. apply shown_edges_spec. eauto.
    + exists (y, x). split; [|by right]. apply shown_edges_spec. eauto.
Qed.

Lemma page_is_render_net net :
  (generate_network_html sqrt communities min_coauthor height G).1 = inr (Page net) →
  net = render_net sqrt communities G min_coauthor height.
Proof.
  rewrite (generate_network_html_run sqrt communities G Hwf Hpc Hw). simpl.
  case_bool_decide; [done|]. by intros [= ->].
Qed.

Lemma render_net_nodes :
  let net := render_net sqrt communities G min_coauthor height in
  let ns := shown_nodes G min_coauthor in
  map nn_id (net_nodes net) = ns
  ∧ ∀ x, x ∈ net_nodes net →
         ∃ n, n ∈ ns ∧ x = render_node sqrt communities G (max_default (map (pc_of G) ns) 1) n.
Proof.
  cbv zeta. unfold render_net.
  set (ns := shown_nodes G min_coauthor). set (fe := shown_edges G min_coauthor).
  set (mp := max_default (map (pc_of G) ns) 1).
  set (mw := max_default (map (weight_of G) fe) 1).
  destruct (add_edges_spec (render_edge G mw) fe
              (foldl (λ net n, net_add_node net (render_node sqrt communities G mp n))
                     (mkNetwork height [] []) ns)) as (E1 & _).
  cbv zeta in E1. rewrite E1.
  destruct (add_nodes_ids (render_node sqrt communities G mp) ns (mkNetwork height [] []))
    as (N1 & _ & N3).
  { done. }
  { simpl. apply shown_nodes_spec. }
  cbv zeta in N1, N3. split; [by rewrite N1|].
  intros x Hx. destruct (N3 x Hx) as [H|H]; [by apply elem_of_nil in H | done].
Qed.

Lemma render_net_edges :
  let net := render_net sqrt communities G min_coauthor height in
  let fe := shown_edges G min_coauthor in
  (∀ e, e ∈ net_edges net →
        ∃ uv, uv ∈ fe ∧ e = render_edge G (max_default (map (weight_of G) fe) 1) uv)
  ∧ (∀ uv, uv ∈ fe →
        ∃ e, e ∈ net_edges net
             ∧ same_ends (render_edge G (max_default (map (weight_of G) fe) 1) uv) e).
Proof.
  cbv zeta. unfold render_net.
  set (ns := shown_nodes G min_coauthor). set (fe := shown_edges G min_coauthor).
  set (mp := max_default (map (pc_of G) ns) 1).
  set (mw := max_default (map (weight_of G) fe) 1).
  destruct (add_edges_spec (render_edge G mw) fe
              (foldl (λ net n, net_add_node net (render_node sqrt communities G mp n))
                     (mkNetwork height [] []) ns)) as (_ & E2 & _ & E4).
  cbv zeta in E2, E4.
  destruct (add_nodes_ids (render_node sqrt communities G mp) ns (mkNetwork height [] []))
    as (_ & N2 & _).
  { done. }
  { simpl. apply shown_nodes_spec. }
  cbv zeta in N2. split; [|done].
  intros e He. destruct (E2 e He) as [H|H]; [|done].
  rewrite N2 in H. by apply elem_of_nil in H.
Qed.

Lemma shown_edge_weight uv :
  uv ∈ shown_edges G min_coauthor →
  edge_weight G uv.1 uv.2 = Some (weight_of G uv)
  ∧ min_coauthor ≤ weight_of G uv
  ∧ 1 ≤ weight_of G uv ≤ max_default (map (weight_of G) (shown_edges G min_coauthor)) 1.
Proof.
  destruct uv as [u v]. intros Hin.
  destruct (shown_edge_data G Hwf Hw _ _ _ Hin) as (d & _ & Hg & _ & _ & H1 & Hmin).
  assert (Hew : edge_weight G u v = Some (weight d)) by (unfold edge_weight; by rewrite Hg).
  unfold weight_of. simpl. rewrite Hew. simpl. split; [done|]. split; [done|].
  split; [done|]. apply max_default_ge. apply list_elem_of_fmap.
  exists (u, v). split; [|done]. unfold weight_of. simpl. by rewrite Hew.
Qed.

Lemma page_nodes_general net :
  (generate_network_html sqrt communities min_coauthor height G).1 = inr (Page net) →
  NoDup (map nn_id (net_nodes net))
  ∧ (∀ x, x ∈ map nn_id (net_nodes net)
          ↔ ∃ y w, edge_weight G x y = Some w ∧ min_coauthor ≤ w)
  ∧ (∀ n, n ∈ net_nodes net →
          nn_label n = nn_id n ∧ nn_color n ∈ COMMUNITY_COLORS
          ∧ ((∀ x, (0 <= x)%Qc → (x <= 1)%Qc → (0 <= sqrt x)%Qc ∧ (sqrt x <= 1)%Qc) →
             (Z2Qc 10 <= nn_size n)%Qc ∧ (nn_size n <= Z2Qc 40)%Qc)).
Proof.
  intros ->%page_is_render_net. destruct render_net_nodes as [H1 H2]. cbv zeta in *.
  rewrite H1. split; [apply shown_nodes_spec|]. split; [apply shown_nodes_weight|].
  intros n (x & Hx & ->)%H2. unfold render_node. cbn [nn_label nn_id nn_color nn_size].
  split; [done|]. split; [apply palette_color|].
  intros Hs. apply size_range; [done| |].
  - apply Hpc. by apply (shown_node_in G Hwf Hw min_coauthor).
  - apply max_default_ge. apply list_elem_of_fmap. eauto.
Qed.

Lemma page_edges_general net :
  (generate_network_html sqrt communities min_coauthor height G).1 = inr (Page net) →
  (∀ e, e ∈ net_edges net →
        edge_weight G (ne_from e) (ne_to e) = Some (ne_value e)
        ∧ min_coauthor ≤ ne_value e
        ∧ ne_from e ∈ map nn_id (net_nodes net) ∧ ne_to e ∈ map nn_id (net_nodes net)
        ∧ (Z2Qc 1 < ne_width e)%Qc ∧ (ne_width e <= Z2Qc 5)%Qc)
  ∧ (∀ u v w, edge_weight G u v = Some w → min_coauthor ≤ w →
        ∃ e, e ∈ net_edges net ∧ ne_value e = w
             ∧ ((ne_from e = u ∧ ne_to e = v) ∨ (ne_from e = v ∧ ne_to e = u))).
Proof.
  intros ->%page_is_render_net. destruct render_net_edges as [H1 H2].
  destruct render_net_nodes as [N1 _]. cbv zeta in *. rewrite N1. split.
  - intros e (uv & Huv & ->)%H1. unfold render_edge.
    cbn [ne_from ne_to ne_value ne_width].
    destruct (shown_edge_weight uv Huv) as (Hew & Hmin & Hlo & Hhi).
    split; [done|]. split; [done|].
    destruct (shown_nodes_spec G min_coauthor) as [_ Hn].
    split; [apply Hn; eauto|]. split; [apply Hn; eauto|]. by apply width_range.
  - intros u v w Hew Hmin.
    assert (Huv : ∃ uv, uv ∈ shown_edges G min_coauthor
                        ∧ ((uv.1 = u ∧ uv.2 = v) ∨ (uv.1 = v ∧ uv.2 = u))).
    { apply edge_weight_edges in Hew as (d & <- & [He|He]); [| |done].
      - exists (u, v). split; [apply shown_edges_spec; eauto | by left].
      - exists (v, u). split; [apply shown_edges_spec; eauto | by right]. }
    destruct Huv as (uv & Huv & Hends).
    destruct (H2 uv Huv) as (e & He & Hsame).
    exists e. split; [done|].
    destruct (H1 e He) as (uv' & Huv' & ->). unfold render_edge, same_ends in *.
    cbn [ne_from ne_to ne_value] in *.
    destruct (shown_edge_weight uv' Huv') as (Hew' & _).
    assert (Hsym := wf_weight_sym G Hwf).
    destruct uv as [a b], uv' as [a' b']. simpl in *.
    split.
    + apply (inj Some). rewrite <- Hew', <- Hew.
      destruct Hsame as [[E1 E2]|[E1 E2]], Hends as [[F1 F2]|[F1 F2]]; subst;
        first [done | apply Hsym].
    + destruct Hsame as [[E1 E2]|[E1 E2]], Hends as [[F1 F2]|[F1 F2]]; subst; tauto.
Qed.
End Page.

Lemma built_graph_renderable (articles : list Article) :
  let G := build_coauthor_network articles in
  wf_graph G
  ∧ (∀ v, v ∈ nodes G → 1 ≤ pc_of G v)
  ∧ (∀ e, e ∈ edges G → 1 ≤ weight e.2).
Proof.
  destruct (build_facts articles) as (Hwf & _ & Hattr & Hwt). cbv zeta in *.
  split; [done|]. split.
  - intros v (c & aff & Ha & Hc)%Hattr. unfold pc_of. by rewrite Ha.
  - intros [[u v] d] He. simpl.
    destruct (edges_lookup _ u v d Hwf He) as (_ & Hg & _).
    apply (Hwt u v (weight d)). unfold edge_weight. by rewrite Hg.
Qed.

(** On the graph built from any list of articles the page generator never
    raises: no lookup misses its key, no division is by zero and the square
    root never gets a negative argument, whatever the community map, the
    threshold and the height; the graph is left as it was. *)
Theorem rendering_never_raises (sqrt : Qc → Qc) (communities : gmap string Z)
    (min_coauthor : Z) (height : string) (articles : list Article) :
  ∃ html,
    generate_network_html sqrt communities min_coauthor height
      (build_coauthor_network articles)
    = (inr html, build_coauthor_network articles).
Proof.
  destruct (built_graph_renderable articles) as (Hwf & Hpc & Hw). cbv zeta in *.
  rewrite (generate_network_html_run sqrt communities _ Hwf Hpc Hw). eauto.
Qed.

(** The nodes of the page drawn for a built graph: each author with at
    least one co-authorship that reaches the threshold appears exactly once,
    and nobody else does (authors without such a link are left out).  Each
    node is labelled by its key, its colour is one of the seventeen palette
    colours whatever the community id (also a negative one), and its size
    lies between 10 and 40 as soon as the square root maps [0, 1] into
    itself. *)
Theorem page_nodes (sqrt : Qc → Qc) (communities : gmap string Z)
    (min_coauthor : Z) (height : string) (articles : list Article) (net : Network) :
  let G := build_coauthor_network articles in
  (generate_network_html sqrt communities min_coauthor height G).1 = inr (Page net) →
  NoDup (map nn_id (net_nodes net))
  ∧ (∀ x, x ∈ map nn_id (net_nodes net)
          ↔ ∃ y w, edge_weight G x y = Some w ∧ min_coauthor ≤ w)
  ∧ (∀ n, n ∈ net_nodes net →
          nn_label n = nn_id n ∧ nn_color n ∈ COMMUNITY_COLORS
          ∧ ((∀ x, (0 <= x)%Qc → (x <= 1)%Qc → (0 <= sqrt x)%Qc ∧ (sqrt x <= 1)%Qc) →
             (Z2Qc 10 <= nn_size n)%Qc ∧ (nn_size n <= Z2Qc 40)%Qc)).
Proof.
  destruct (built_graph_renderable articles) as (Hwf & Hpc & Hw). cbv zeta in *.
  by apply page_nodes_general.
Qed.

(** The edges of the page drawn for a built graph: every drawn edge is an
    edge of the graph whose weight reaches the threshold, it carries that
    weight as its value, joins two drawn nodes, and its width lies in
    (1, 5]; conversely every edge of the graph that reaches the threshold is
    drawn, in one of its two orientations. *)
Theorem page_edges (sqrt : Qc → Qc) (communities : gmap string Z)
    (min_coauthor : Z) (height : string) (articles : list Article) (net : Network) :
  let G := build_coauthor_network articles in
  (generate_network_html sqrt communities min_coauthor height G).1 = inr (Page net) →
  (∀ e, e ∈ net_edges net →
        edge_weight G (ne_from e) (ne_to e) = Some (ne_value e)
        ∧ min_coauthor ≤ ne_value e
        ∧ ne_from e ∈ map nn_id (net_nodes net) ∧ ne_to e ∈ map nn_id (net_nodes net)
        ∧ (Z2Qc 1 < ne_width e)%Qc ∧ (ne_width e <= Z2Qc 5)%Qc)
  ∧ (∀ u v w, edge_weight G u v = Some w → min_coauthor ≤ w →
        ∃ e, e ∈ net_edges net ∧ ne_value e = w
             ∧ ((ne_from e = u ∧ ne_to e = v) ∨ (ne_from e = v ∧ ne_to e = u))).
Proof.
  destruct (built_graph_renderable articles) as (Hwf & Hpc & Hw). cbv zeta in *.
  by apply page_edges_general.
Qed.

(** The page of the three-article scenario with threshold 2: only the
    links A-B and B-C remain. *)
Definition scenario_page : Network :=
  render_net (λ x, x) ∅ (build_coauthor_network scenario_articles) 2 "600px".

Lemma scenario_page_run :
  (generate_network_html (λ x, x) ∅ 2 "600px"
     (build_coauthor_network scenario_articles)).1 = inr (Page scenario_page).
Proof.
  destruct (built_graph_renderable scenario_articles) as (Hwf & Hpc & Hw). cbv zeta in *.
  rewrite (generate_network_html_run (λ x, x) ∅ _ Hwf Hpc Hw).
  assert (Hs : shown_nodes (build_coauthor_network scenario_articles) 2 = ["A"; "B"; "C"])
    by (vm_compute; reflexivity).
  rewrite Hs. done.
Defined.

Lemma page_nodes_example :
  NoDup (map nn_id (net_nodes scenario_page))
  ∧ ∀ x, x ∈ map nn_id (net_nodes scenario_page)
         ↔ ∃ y w, edge_weight (build_coauthor_network scenario_articles) x y = Some w
                  ∧ 2 ≤ w.
Proof.
  pose proof (page_nodes (λ x, x) ∅ 2 "600px" scenario_articles scenario_page
                scenario_page_run) as H.
  exact (conj (proj1 H) (proj1 (proj2 H))).
Defined.

Lemma page_edges_example :
  ∃ e, e ∈ net_edges scenario_page ∧ ne_value e = 2
       ∧ ((ne_from e = "B" ∧ ne_to e = "C") ∨ (ne_from e = "C" ∧ ne_to e = "B")).
Proof.
  assert (Hw : edge_weight (build_coauthor_network scenario_articles) "B" "C" = Some 2)
    by (vm_compute; reflexivity).
  assert (Hmin : 2 ≤ 2) by lia.
  exact (proj2 (page_edges (λ x, x) ∅ 2 "600px" scenario_articles scenario_page
                  scenario_page_run) "B" "C" 2 Hw Hmin).
Defined.

(* ================================================================== *)
(** * The PubMed client: [pubmed_client.py] *)

(** An element of the tree that [xml.etree.ElementTree] builds: its tag,
    its text ([None] when the element has none) and its children in
    document order. *)
#[warnings="-register-all"]
Inductive Element := Elem (tag : string) (text : option string) (children : list Element).

Definition tag_of (e : Element) : string := let 'Elem t _ _ := e in t.
Definition text_of (e : Element) : option string := let 'Elem _ t _ := e in t.
Definition children_of (e : Element) : list Element := let 'Elem _ _ cs := e in cs.

(** [elem.iter()]: the element and its descendants, in document order. *)
Fixpoint iter (e : Element) : list Element :=
  match e with
  | Elem _ _ cs => e :: flat_map iter cs
  end.

(** One step of a path: the children with the given tag. *)
Definition children_tagged (tag : string) (e : Element) : list Element :=
  filter (λ c, tag_of c = tag) (children_of e).

(** [elem.iterfind("a/b/c")], the path given by its steps. *)
Fixpoint iterfind (path : list string) (ctx : list Element) : list Element :=
  match path with
  | [] => ctx
  | t :: p => iterfind p (flat_map (children_tagged t) ctx)
  end.

(** [elem.find("a/b/c")] *)
Definition find (path : list string) (e : Element) : option Element :=
  head (iterfind path [e]).

(** [elem.findall("a")] *)
Definition findall (tag : string) (e : Element) : list Element :=
  iterfind [tag] [e].

(** [root.findall(".//tag")]: the proper descendants with the tag. *)
Definition findall_descendants (tag : string) (root : Element) : list Element :=
  filter (λ e, tag_of e = tag) (flat_map iter (children_of root)).

(** The dicts the parser returns.  A value read from [.text] without
    [or ""] may be [None]. *)
Record ParsedAuthor := mkParsedAuthor {
  pa_last_name : string;
  pa_first_name : option string;
  pa_affiliation : string
}.

Record ParsedArticle := mkParsedArticle {
  p_pmid : option string;
  p_title : option string;
  p_authors : list ParsedAuthor;
  p_year : option string;
  p_journal : option string
}.

(** The body of the loop over [author_list.findall("Author")]; [None] is
    [continue]. *)
Definition parse_author (author_elem : Element) : option ParsedAuthor :=
  let last := find ["LastName"] author_elem in
  let fore := find ["ForeName"] author_elem in
  match last with
  | None => None
  | Some last =>
      let last_name := default "" (text_of last) in
      let first_name :=
        match fore with
        | Some fore => text_of fore
        | None => Some ""
        end in
      let affiliation :=
        match find ["AffiliationInfo"; "Affiliation"] author_elem with
        | Some aff_elem => default "" (text_of aff_elem)
        | None => ""
        end in
      Some (mkParsedAuthor last_name first_name affiliation)
  end.

(** [text_or_empty e] is [e.text if e is not None else ""]. *)
Definition text_or_empty (e : option Element) : option string :=
  match e with
  | Some e => text_of e
  | None => Some ""
  end.

Definition _parse_single_article (elem : Element) : option ParsedArticle :=
  match find ["MedlineCitation"] elem with
  | None => None
  | Some medline =>
      let pmid := text_or_empty (find ["PMID"] medline) in
      match find ["Article"] medline with
      | None => None
      | Some article_elem =>
          let title := text_or_empty (find ["ArticleTitle"] article_elem) in
          let journal := text_or_empty (find ["Journal"; "Title"] article_elem) in
          let year :=
            match find ["Journal"; "JournalIssue"; "PubDate"; "Year"] article_elem with
            | Some year_elem => text_of year_elem
            | None =>
                match find ["Journal"; "JournalIssue"; "PubDate"; "MedlineDate"]
                           article_elem with
                | Some medline_date =>
                    match text_of medline_date with
                    | Some t => if bool_decide (t ≠ "") then Some (String.substring 0 4 t)
                                else Some ""
                    | None => Some ""
                    end
                | None => Some ""
                end
            end in
          let authors :=
            match find ["AuthorList"] article_elem with
            | Some author_list => omap parse_author (findall "Author" author_list)
            | None => []
            end in
          Some (mkParsedArticle pmid title authors year journal)
      end
  end.

(** The loop of [_parse_articles_xml] over the parsed tree. *)
Definition parse_articles_tree (root : Element) : list ParsedArticle :=
  foldl (λ articles article_elem,
           match _parse_single_article article_elem with
           | Some article =>
               if bool_decide (p_authors article ≠ []) then articles ++ [article]
               else articles
           | None => articles
           end)
        [] (findall_descendants "PubmedArticle" root).

(** What goes wrong in [fetch_articles]. *)
Inductive FetchExc :=
| RangeStepZero   (* ValueError: range() arg 3 must not be zero *)
| RequestFailed   (* requests raised, or raise_for_status did *)
| XMLParseError.  (* ET.fromstring raised *)

(** [range(0, stop, step)] for [0 ≤ stop]. *)
Fixpoint range_from (fuel : nat) (i stop step : Z) : list Z :=
  match fuel with
  | O => []
  | S fuel => if bool_decide (i < stop) then i :: range_from fuel (i + step) stop step
              else []
  end.

Definition range0 (stop step : Z) : FetchExc + list Z :=
  if bool_decide (step = 0) then inl RangeStepZero
  else if bool_decide (step < 0) then inr []
  else inr (range_from (Z.to_nat stop) 0 stop step).

(** [l[i:j]] for [0 ≤ i ≤ j]. *)
Definition slice {A} (l : list A) (i j : Z) : list A :=
  take (Z.to_nat (j - i)) (drop (Z.to_nat i) l).

Section Client.
(** The efetch request for a batch of ids: the text of the response, or
    [None] when the request raises. *)
Variable efetch : list string → option string.
(** [ET.fromstring]: the tree, or [None] when the text is not XML. *)
Variable fromstring : string → option Element.

Definition _parse_articles_xml (xml_text : string) : option (list ParsedArticle) :=
  root ← fromstring xml_text;
  Some (parse_articles_tree root).

(** The loop of [fetch_articles]; [log] records the batches requested. *)
Fixpoint fetch_loop (pmid_list : list string) (batch_size : Z) (starts : list Z)
    (articles : list ParsedArticle) (log : list (list string))
    : list (list string) * (FetchExc + list ParsedArticle) :=
  match starts with
  | [] => (log, inr articles)
  | i :: starts =>
      let batch := slice pmid_list i (i + batch_size) in
      match efetch batch with
      | None => (log ++ [batch], inl RequestFailed)
      | Some text =>
          match _parse_articles_xml text with
          | None => (log ++ [batch], inl XMLParseError)
          | Some parsed =>
              fetch_loop pmid_list batch_size starts (articles ++ parsed) (log ++ [batch])
          end
      end
  end.

Definition fetch_articles (pmid_list : list string) (batch_size : Z)
    : list (list string) * (FetchExc + list ParsedArticle) :=
  match range0 (Z.of_nat (length pmid_list)) batch_size with
  | inl e => ([], inl e)
  | inr starts => fetch_loop pmid_list batch_size starts [] []
  end.
End Client.

(** The article as the graph builder reads it: the builder only tests the
    first name for truth, so [None] and the empty string behave alike. *)
Definition to_author (a : ParsedAuthor) : Author :=
  mkAuthor (pa_last_name a) (default "" (pa_first_name a)) (pa_affiliation a).
Definition to_article (a : ParsedArticle) : Article :=
  mkArticle (default "" (p_pmid a)) (default "" (p_title a))
            (map to_author (p_authors a))
            (default "" (p_year a)) (default "" (p_journal a)).

(* ------------------------------------------------------------------ *)
(** ** The PubMed client *)

(** The parse loop keeps, in document order, the articles that parse and
    list an author. *)
Lemma parse_articles_tree_filter (root : Element) :
  parse_articles_tree root
  = filter (λ a, p_authors a ≠ [])
           (omap _parse_single_article (findall_descendants "PubmedArticle" root)).
Proof.
  unfold parse_articles_tree.
  assert (Hgen : ∀ l acc,
    foldl (λ articles article_elem,
             match _parse_single_article article_elem with
             | Some article =>
                 if bool_decide (p_authors article ≠ []) then articles ++ [article]
                 else articles
             | None => articles
             end) acc l
    = acc ++ filter (λ a, p_authors a ≠ []) (omap _parse_single_article l)).
  { induction l as [|e l IH]; intros acc; [by rewrite app_nil_r|].
    cbn [foldl omap list_omap]. rewrite IH.
    destruct (_parse_single_article e) as [a|]; [|done].
    rewrite filter_cons. destruct (decide (p_authors a ≠ [])) as [Ha|Ha].
    - rewrite bool_decide_eq_true_2 by done. by rewrite <- app_assoc.
    - rewrite bool_decide_eq_false_2 by done. done. }
  apply (Hgen _ []).
Qed.

Lemma elem_of_flat_map {A B} (f : A → list B) (l : list A) (y : B) :
  y ∈ flat_map f l ↔ ∃ x, x ∈ l ∧ y ∈ f x.
Proof.
  induction l as [|x l IH]; simpl.
  - split; [intros H; by apply elem_of_nil in H|]. intros (x & H & _).
    by apply elem_of_nil in H.
  - rewrite elem_of_app, IH. split.
    + intros [H|(x' & H1 & H2)]; [exists x; split; [left | done]|].
      exists x'. split; [by right | done].
    + intros (x' & [->|H1]%elem_of_cons & H2); [by left|]. right. eauto.
Qed.

Lemma findall_descendants_iter tag root e :
  e ∈ findall_descendants tag root → e ∈ iter root ∧ tag_of e = tag.
Proof.
  unfold findall_descendants. intros [Ht He]%list_elem_of_filter. split; [|done].
  destruct root as [t x cs]. simpl in *. by right.
Qed.

Lemma find_Some path e x :
  find path e = Some x → x ∈ iterfind path [e].
Proof. unfold find. intros H. by apply head_Some_elem_of in H. Qed.

Lemma parse_author_last (author_elem : Element) (a : ParsedAuthor) :
  parse_author author_elem = Some a →
  ∃ last, last ∈ children_of author_elem ∧ tag_of last = "LastName"
          ∧ pa_last_name a = default "" (text_of last).
Proof.
  unfold parse_author. destruct (find ["LastName"] author_elem) as [last|] eqn:Hl; [|done].
  intros [= <-]. exists last. apply find_Some in Hl. simpl in Hl.
  rewrite app_nil_r in Hl. apply list_elem_of_filter in Hl as [Ht Hin]. done.
Qed.

(** ** Batches *)

Lemma range_from_slices {A} (l : list A) (bs : Z) (fuel : nat) (i : Z) :
  0 < bs → 0 ≤ i → Z.of_nat (length l) - i ≤ Z.of_nat fuel →
  concat (map (λ j, slice l j (j + bs)) (range_from fuel i (Z.of_nat (length l)) bs))
  = drop (Z.to_nat i) l
  ∧ Forall (λ j, 0 ≤ j < Z.of_nat (length l)) (range_from fuel i (Z.of_nat (length l)) bs).
Proof.
  intros Hbs. revert i. induction fuel as [|fuel IH]; intros i Hi Hf.
  - simpl. split; [|constructor]. symmetry. apply drop_ge. lia.
  - cbn [range_from]. case_bool_decide as Hlt.
    + destruct (IH (i + bs)) as [IH1 IH2]; [lia..|].
      split; [|constructor; [lia | done]].
      cbn [map concat]. rewrite IH1. unfold slice.
      replace (Z.to_nat (i + bs - i)) with (Z.to_nat bs) by lia.
      replace (Z.to_nat (i + bs)) with (Z.to_nat i + Z.to_nat bs)%nat by lia.
      rewrite <- drop_drop. apply take_drop.
    + split; [|constructor]. simpl. symmetry. apply drop_ge. lia.
Qed.

Lemma slice_length {A} (l : list A) (bs j : Z) :
  0 < bs → 0 ≤ j < Z.of_nat (length l) →
  (1 ≤ length (slice l j (j + bs)))%nat ∧ Z.of_nat (length (slice l j (j + bs))) ≤ bs.
Proof.
  intros Hbs Hj. unfold slice. rewrite length_take, length_drop. lia.
Qed.

Section ClientFacts.
Variable efetch : list string → option string.
Variable fromstring : string → option Element.

(** The articles parsed from the response to one batch (none when the
    request or the parse fails). *)
Definition batch_articles (batch : list string) : list ParsedArticle :=
  default [] (efetch batch ≫= _parse_articles_xml fromstring).

Lemma fetch_loop_spec pmid_list batch_size starts articles log :
  let batches := map (λ i, slice pmid_list i (i + batch_size)) starts in
  let res := fetch_loop efetch fromstring pmid_list batch_size starts articles log in
  (∃ done_, res.1 = log ++ done_ ∧ done_ `prefix_of` batches)
  ∧ (∀ e, res.2 = inl e → e ≠ RangeStepZero)
  ∧ (∀ arts, res.2 = inr arts →
       res.1 = log ++ batches
       ∧ arts = articles ++ flat_map batch_articles batches
       ∧ Forall (λ b, is_Some (efetch b ≫= _parse_articles_xml fromstring)) batches).
Proof.
  cbv zeta. revert articles log.
  induction starts as [|i starts IH]; intros articles log.
  - simpl. split; [exists []; by rewrite app_nil_r|]. split; [done|].
    intros arts [= <-]. by rewrite !app_nil_r.
  - cbn [fetch_loop map]. set (batch := slice pmid_list i (i + batch_size)).
    assert (Hpre : ∀ rest, [batch] `prefix_of` batch :: rest)
      by (intros rest; by exists rest).
    cbn [flat_map].
    destruct (efetch batch) as [text|] eqn:Hf.
    2:{ simpl. split; [eauto|]. split; [by intros e [= <-] | done]. }
    destruct (_parse_articles_xml fromstring text) as [parsed|] eqn:Hp.
    2:{ simpl. split; [eauto|]. split; [by intros e [= <-] | done]. }
    destruct (IH (articles ++ parsed) (log ++ [batch])) as ((d & Hd & Hpd) & He & Hok).
    split; [|split].
    + exists (batch :: d). rewrite Hd, <- app_assoc. split; [done|].
      by apply prefix_cons.
    + done.
    + intros arts Ha. destruct (Hok arts Ha) as (H1 & H2 & H3).
      assert (Hba : batch_articles batch = parsed)
        by (unfold batch_articles; rewrite Hf; simpl; by rewrite Hp).
      rewrite H1, H2, Hba, <- !app_assoc. split; [done|]. split; [done|].
      constructor; [|done]. rewrite Hf. simpl. rewrite Hp. done.
Qed.

Lemma batch_articles_authors batch :
  Forall (λ a, p_authors a ≠ []) (batch_articles batch).
Proof.
  unfold batch_articles. destruct (efetch batch) as [text|]; [|constructor]. simpl.
  unfold _parse_articles_xml. destruct (fromstring text) as [root|]; [|constructor].
  simpl. rewrite parse_articles_tree_filter. apply Forall_forall.
  intros a Ha. by apply list_elem_of_filter in Ha as [Ha _].
Qed.
End ClientFacts.

(** The Author elements the parser reads for an article element: the
    Author children of the first AuthorList of the first Article of the
    first MedlineCitation (none when one of them is missing). *)
Definition author_elements (elem : Element) : list Element :=
  default [] (medline ← find ["MedlineCitation"] elem;
              article_elem ← find ["Article"] medline;
              author_list ← find ["AuthorList"] article_elem;
              Some (findall "Author" author_list)).

Lemma findall_child tag e x :
  x ∈ findall tag e → x ∈ children_of e ∧ tag_of x = tag.
Proof.
  unfold findall. simpl. rewrite app_nil_r. unfold children_tagged.
  intros [Ht Hin]%list_elem_of_filter. done.
Qed.

Lemma find_child tag e x :
  find [tag] e = Some x → x ∈ children_of e ∧ tag_of x = tag.
Proof. intros H%find_Some. by apply findall_child. Qed.

Lemma iter_self e : e ∈ iter e.
Proof. destruct e. simpl. left. Qed.

Lemma child_iter c e x : c ∈ children_of e → x ∈ iter c → x ∈ iter e.
Proof.
  destruct e as [t tx cs]. simpl. intros Hc Hx. right.
  apply elem_of_flat_map. eauto.
Qed.

Lemma author_elements_tree elem e :
  e ∈ author_elements elem → e ∈ iter elem ∧ tag_of e = "Author".
Proof.
  unfold author_elements.
  destruct (find ["MedlineCitation"] elem) as [medline|] eqn:H1;
    [|intros H; by apply elem_of_nil in H]. simpl.
  destruct (find ["Article"] medline) as [article_elem|] eqn:H2;
    [|intros H; by apply elem_of_nil in H]. simpl.
  destruct (find ["AuthorList"] article_elem) as [author_list|] eqn:H3;
    [|intros H; by apply elem_of_nil in H]. simpl.
  intros [H4 Ht]%findall_child. split; [|done].
  apply find_child in H1 as [H1 _]. apply find_child in H2 as [H2 _].
  apply find_child in H3 as [H3 _].
  apply (child_iter medline); [done|]. apply (child_iter article_elem); [done|].
  apply (child_iter author_list); [done|]. apply (child_iter e); [done|].
  apply iter_self.
Qed.

Lemma parse_single_authors elem a :
  _parse_single_article elem = Some a →
  p_authors a = omap parse_author (author_elements elem).
Proof.
  unfold _parse_single_article, author_elements.
  destruct (find ["MedlineCitation"] elem) as [medline|]; [|done]. simpl.
  destruct (find ["Article"] medline) as [article_elem|]; [|done]. simpl.
  intros [= <-]. simpl.
  by destruct (find ["AuthorList"] article_elem).
Qed.

Lemma parse_author_None author_elem :
  parse_author author_elem = None
  ↔ ∀ c, c ∈ children_of author_elem → tag_of c ≠ "LastName".
Proof.
  unfold parse_author, find. simpl. rewrite app_nil_r. unfold children_tagged.
  destruct (filter _ (children_of author_elem)) as [|last l] eqn:Hf; simpl.
  - split; [|done]. intros _ c Hc Ht.
    assert (Hin : c ∈ filter (λ c, tag_of c = "LastName") (children_of author_elem))
      by (by apply list_elem_of_filter).
    rewrite Hf in Hin. by apply elem_of_nil in Hin.
  - split; [done|]. intros Hall. exfalso.
    assert (Hin : last ∈ filter (λ c, tag_of c = "LastName") (children_of author_elem))
      by (rewrite Hf; left).
    apply list_elem_of_filter in Hin as [Ht Hin]. by apply (Hall last).
Qed.

(** What the parser returns for a tree: exactly the articles parsed from
    the PubmedArticle elements below the root that list at least one author
    with a LastName; an element without MedlineCitation or Article, or whose
    article lists no such author, is dropped without an error.  So there are
    at most as many articles as elements, and none has an empty author
    list.  The authors of a returned article are, in document order, those
    of the Author elements of its article element that have a LastName
    child: every returned author comes from such an Author element, below
    the PubmedArticle element of the article, and its last name is the text
    of that LastName child (the empty string when it has none); an Author
    element gives no author exactly when it has no LastName child. *)
Theorem parsed_articles (root : Element) :
  (∀ a, a ∈ parse_articles_tree root
        ↔ p_authors a ≠ []
          ∧ ∃ elem, elem ∈ findall_descendants "PubmedArticle" root
                    ∧ _parse_single_article elem = Some a)
  ∧ (length (parse_articles_tree root)
     ≤ length (findall_descendants "PubmedArticle" root))%nat
  ∧ Forall (λ a, ∃ elem,
              elem ∈ findall_descendants "PubmedArticle" root
              ∧ elem ∈ iter root
              ∧ _parse_single_article elem = Some a
              ∧ p_authors a = omap parse_author (author_elements elem)
              ∧ Forall (λ au, ∃ author_elem last,
                          author_elem ∈ author_elements elem
                          ∧ author_elem ∈ iter elem
                          ∧ tag_of author_elem = "Author"
                          ∧ parse_author author_elem = Some au
                          ∧ last ∈ children_of author_elem
                          ∧ tag_of last = "LastName"
                          ∧ pa_last_name au = default "" (text_of last))
                       (p_authors a))
           (parse_articles_tree root)
  ∧ (∀ author_elem,
       parse_author author_elem = None
       ↔ ∀ c, c ∈ children_of author_elem → tag_of c ≠ "LastName").
Proof.
  rewrite parse_articles_tree_filter. split; [|split; [|split]].
  - intros a. rewrite list_elem_of_filter, list_elem_of_omap. done.
  - etrans; [apply length_filter|].
    induction (findall_descendants "PubmedArticle" root) as [|e l IH]; [done|].
    cbn [omap list_omap]. destruct (_parse_single_article e); simpl; lia.
  - apply Forall_forall. intros a [_ Ha]%list_elem_of_filter.
    apply list_elem_of_omap in Ha as (elem & Hel & Hp).
    pose proof (parse_single_authors _ _ Hp) as Hauth.
    exists elem. split; [done|].
    split; [by apply (findall_descendants_iter "PubmedArticle")|].
    split; [done|]. split; [done|].
    rewrite Hauth. apply Forall_forall.
    intros au (author_elem & Hin & Hau)%list_elem_of_omap.
    destruct (author_elements_tree _ _ Hin) as [Hit Htag].
    destruct (parse_author_last _ _ Hau) as (last & H1 & H2 & H3).
    exists author_elem, last. done.
  - apply parse_author_None.
Qed.

Lemma prefix_concat {A} (d l : list (list A)) :
  d `prefix_of` l → concat d `prefix_of` concat l.
Proof. intros [k ->]. rewrite concat_app. by eexists. Qed.

Lemma prefix_Forall {A} (P : A → Prop) (d l : list A) :
  d `prefix_of` l → Forall P l → Forall P d.
Proof. intros [k ->] H. by apply Forall_app in H as [H _]. Qed.

Lemma Forall_flat_map {A B} (P : B → Prop) (f : A → list B) (l : list A) :
  (∀ x, Forall P (f x)) → Forall P (flat_map f l).
Proof.
  intros Hf. induction l as [|x l IH]; simpl; [constructor|].
  apply Forall_app. done.
Qed.

Lemma fetch_articles_authors efetch fromstring pmid_list batch_size arts :
  (fetch_articles efetch fromstring pmid_list batch_size).2 = inr arts →
  Forall (λ a, p_authors a ≠ []) arts.
Proof.
  unfold fetch_articles, range0. case_bool_decide; [done|].
  case_bool_decide; [by intros [= <-]|].
  set (starts := range_from _ _ _ _).
  destruct (fetch_loop_spec efetch fromstring pmid_list batch_size starts [] [])
    as (_ & _ & Hok). cbv zeta in Hok.
  intros Ha. destruct (Hok arts Ha) as (_ & -> & _). simpl.
  apply Forall_flat_map. apply batch_articles_authors.
Qed.

(** How [fetch_articles] asks for the ids.  With a zero batch size it
    raises before any request, with a negative one it returns no article
    and makes no request.  With a positive one the requested batches are
    non-empty, hold at most [batch_size] ids each and, put end to end, are a
    prefix of the id list: the ids are asked for in order, each at most
    once.  When the call returns, every id was asked for exactly once, every
    request and parse succeeded, the result is the articles of the batches
    in order, and every article lists an author. *)
Theorem fetch_articles_batches (efetch : list string → option string)
    (fromstring : string → option Element) (pmid_list : list string) (batch_size : Z) :
  let res := fetch_articles efetch fromstring pmid_list batch_size in
  (batch_size = 0 → res = ([], inl RangeStepZero))
  ∧ (batch_size < 0 → res = ([], inr []))
  ∧ (0 < batch_size →
       Forall (λ b, (1 ≤ length b)%nat ∧ Z.of_nat (length b) ≤ batch_size) res.1
       ∧ concat res.1 `prefix_of` pmid_list
       ∧ ∀ arts, res.2 = inr arts →
           concat res.1 = pmid_list
           ∧ Forall (λ b, is_Some (efetch b ≫= _parse_articles_xml fromstring)) res.1
           ∧ arts = flat_map (batch_articles efetch fromstring) res.1
           ∧ Forall (λ a, p_authors a ≠ []) arts).
Proof.
  cbv zeta. unfold fetch_articles, range0. split; [|split].
  - intros ->. done.
  - intros Hneg. rewrite bool_decide_eq_false_2 by lia.
    rewrite bool_decide_eq_true_2 by lia. done.
  - intros Hpos. rewrite !bool_decide_eq_false_2 by lia.
    set (n := Z.of_nat (length pmid_list)).
    set (starts := range_from (Z.to_nat n) 0 n batch_size).
    destruct (range_from_slices pmid_list batch_size (Z.to_nat n) 0) as [Hcat Hidx];
      [lia..|]. fold n starts in Hcat, Hidx. rewrite drop_0 in Hcat.
    assert (Hsz : Forall (λ b, (1 ≤ length b)%nat ∧ Z.of_nat (length b) ≤ batch_size)
                         (map (λ i, slice pmid_list i (i + batch_size)) starts)).
    { apply Forall_fmap. eapply Forall_impl; [apply Hidx|].
      intros j Hj. simpl. by apply slice_length. }
    destruct (fetch_loop_spec efetch fromstring pmid_list batch_size starts [] [])
      as ((d & Hd & Hpre) & _ & Hok). cbv zeta in *. simpl in Hd.
    split; [|split].
    + rewrite Hd. by apply (prefix_Forall _ _ _ Hpre).
    + rewrite Hd, <- Hcat. by apply prefix_concat.
    + intros arts Ha. destruct (Hok arts Ha) as (H1 & H2 & H3). simpl in H1, H2.
      rewrite H1. split; [done|]. split; [done|]. split; [done|].
      rewrite H2. apply Forall_flat_map. apply batch_articles_authors.
Qed.

(** A tree with one article by one author, and the client that always
    receives it. *)
Definition example_tree : Element :=
  Elem "PubmedArticleSet" None
    [Elem "PubmedArticle" None
       [Elem "MedlineCitation" None
          [Elem "PMID" (Some "1") [];
           Elem "Article" None
             [Elem "ArticleTitle" (Some "T") [];
              Elem "AuthorList" None
                [Elem "Author" None
                   [Elem "LastName" (Some "Doe") [];
                    Elem "ForeName" (Some "Jane Q") []];
                 Elem "Author" None [Elem "CollectiveName" (Some "Group") []]]]]]].

Definition example_articles : list ParsedArticle :=
  [mkParsedArticle (Some "1") (Some "T") [mkParsedAuthor "Doe" (Some "Jane Q") ""]
                   (Some "") (Some "")].

Lemma fetch_articles_batches_example :
  concat (fetch_articles (λ _, Some "") (λ _, Some example_tree) ["1"; "2"; "3"] 2).1
  `prefix_of` ["1"; "2"; "3"].
Proof.
  assert (Hpos : 0 < 2) by lia.
  exact (proj1 (proj2 (proj2 (proj2 (fetch_articles_batches
                  (λ _, Some "") (λ _, Some example_tree) ["1"; "2"; "3"] 2)) Hpos))).
Defined.


Lemma stats_keys (G : Graph) (k : string) :
  nodes G ≠ [] →
  k ∈ ["nodes"; "edges"; "density"; "connected_components";
       "largest_component_size"; "avg_clustering"] →
  is_Some (get_network_stats G !! k).
Proof.
  intros Hne Hk. unfold get_network_stats.
  rewrite bool_decide_eq_false_2 by (intros Hl; by apply nil_length_inv in Hl).
  rewrite !elem_of_cons in Hk.
  destruct Hk as [->|[->|[->|[->|[->|[->|Hk]]]]]]; [..|by apply elem_of_nil in Hk];
    rewrite ?lookup_insert_ne by done;
    first [rewrite lookup_insert_eq | rewrite lookup_singleton_eq]; eauto.
Qed.

(** From the client to the statistics: when [fetch_articles] returns at
    least one article, every article gives the built graph a node for each
    of its authors, so the graph is not empty and [get_network_stats]
    returns all six entries (the two-entry result of the empty graph cannot
    occur once the caller has checked that the article list is not
    empty). *)
Theorem fetched_graph_nonempty (efetch : list string → option string)
    (fromstring : string → option Element) (pmid_list : list string) (batch_size : Z)
    (arts : list ParsedArticle) :
  (fetch_articles efetch fromstring pmid_list batch_size).2 = inr arts →
  arts ≠ [] →
  let G := build_coauthor_network (map to_article arts) in
  nodes G ≠ []
  ∧ (∀ a au, a ∈ arts → au ∈ p_authors a → _author_key (to_author au) ∈ nodes G)
  ∧ (∀ k, k ∈ ["nodes"; "edges"; "density"; "connected_components";
               "largest_component_size"; "avg_clustering"] →
          is_Some (get_network_stats G !! k)).
Proof.
  intros Hf Hne. cbv zeta.
  pose proof (fetch_articles_authors _ _ _ _ _ Hf) as Hauth.
  destruct (build_facts (map to_article arts)) as (_ & Hn & _). cbv zeta in Hn.
  assert (Hin : ∀ a au, a ∈ arts → au ∈ p_authors a →
                        _author_key (to_author au)
                        ∈ nodes (build_coauthor_network (map to_article arts))).
  { intros a au Ha Hau. apply Hn. exists (to_article a).
    split; [apply list_elem_of_fmap; eauto|].
    unfold keys_of, to_article. cbn [authors].
    apply list_elem_of_fmap. exists (to_author au). split; [done|].
    apply list_elem_of_fmap. eauto. }
  assert (Hnodes : nodes (build_coauthor_network (map to_article arts)) ≠ []).
  { destruct arts as [|a arts']; [done|].
    apply Forall_cons in Hauth as [Ha _].
    destruct (p_authors a) as [|au aus] eqn:Hau; [done|].
    intros Hnil. specialize (Hin a au ltac:(left)). rewrite Hau in Hin.
    specialize (Hin ltac:(left)). rewrite Hnil in Hin. by apply elem_of_nil in Hin. }
  split; [done|]. split; [done|]. intros k Hk. by apply stats_keys.
Qed.

Lemma fetched_graph_nonempty_example :
  nodes (build_coauthor_network (map to_article example_articles)) ≠ [].
Proof.
  assert (Hf : (fetch_articles (λ _, Some "") (λ _, Some example_tree) ["1"] 50).2
               = inr example_articles) by (vm_compute; reflexivity).
  assert (Hne : example_articles ≠ []) by discriminate.
  exact (proj1 (fetched_graph_nonempty (λ _, Some "") (λ _, Some example_tree)
                  ["1"] 50 example_articles Hf Hne)).
Defined.

(* ------------------------------------------------------------------ *)
(** ** Author keys *)

Lemma split_ws_tokens (cur : list ascii) (s : string) :
  Forall (λ c, is_space c = false) cur →
  Forall (λ part, part ≠ "" ∧ Forall (λ c, is_space c = false) (list_ascii_of_string part))
         (split_ws cur s).
Proof.
  revert cur. induction s as [|c s IH]; intros cur Hcur.
  - simpl. destruct cur as [|x cur]; [constructor|].
    constructor; [|constructor]. split.
    + intros Heq. apply (f_equal list_ascii_of_string) in Heq.
      rewrite list_ascii_of_string_of_list_ascii in Heq. simpl in Heq.
      by apply app_nil in Heq as [_ Heq].
    + rewrite list_ascii_of_string_of_list_ascii. by apply Forall_rev.
  - cbn [split_ws]. destruct (is_space c) eqn:Hc.
    + destruct cur as [|x cur]; [apply IH; constructor|].
      constructor; [|apply IH; constructor]. split.
      * intros Heq. apply (f_equal list_ascii_of_string) in Heq.
        rewrite list_ascii_of_string_of_list_ascii in Heq. simpl in Heq.
        by apply app_nil in Heq as [_ Heq].
      * rewrite list_ascii_of_string_of_list_ascii. by apply Forall_rev.
    + apply IH. by constructor.
Qed.

Lemma append_cons (c : ascii) (s t : string) : String c s +:+ t = String c (s +:+ t).
Proof. reflexivity. Qed.

Lemma concat_empty_cons (x : string) (l : list string) :
  String.concat "" (x :: l) = x +:+ String.concat "" l.
Proof.
  destruct l as [|y l]; [|done]. simpl.
  induction x as [|c x IH]; [done|]. rewrite append_cons. by f_equal.
Qed.

Lemma list_ascii_of_string_app (s t : string) :
  list_ascii_of_string (s +:+ t) = list_ascii_of_string s ++ list_ascii_of_string t.
Proof.
  induction s as [|c s IH]; [done|]. rewrite append_cons. simpl. by rewrite IH.
Qed.

Lemma initials_spec (parts : list string) :
  Forall (λ part, part ≠ "" ∧ Forall (λ c, is_space c = false) (list_ascii_of_string part))
         parts →
  filter (λ part, part ≠ "") parts = parts
  ∧ length (list_ascii_of_string (String.concat "" (map first_char parts))) = length parts
  ∧ Forall (λ c, is_space c = false)
           (list_ascii_of_string (String.concat "" (map first_char parts))).
Proof.
  induction 1 as [|part parts [Hne Hsp] Hparts (IH1 & IH2 & IH3)]; [done|].
  rewrite filter_cons, decide_True by done. rewrite IH1. split; [done|].
  change (map first_char (part :: parts)) with (first_char part :: map first_char parts).
  rewrite concat_empty_cons, list_ascii_of_string_app, length_app, IH2.
  destruct part as [|c part]; [done|]. simpl in *.
  apply Forall_cons in Hsp as [Hc _]. split; [done|]. by constructor.
Qed.

(** The key of an author: the last name alone when the first name is
    empty; otherwise the last name, one space, and one initial per
    whitespace-separated part of the first name, none of them a space
    (every part [split] yields is non-empty, so [part[0]] exists and the
    filter in the source drops nothing).  A first name made of whitespace
    only therefore gives the last name followed by a space, which is not the
    key of the same author without first name. *)
Theorem author_key_shape (a : Author) :
  (first_name a = "" → _author_key a = last_name a)
  ∧ (first_name a ≠ "" →
       ∃ initials,
         _author_key a = last_name a +:+ " " +:+ initials
         ∧ initials = String.concat "" (map first_char (split (first_name a)))
         ∧ length (list_ascii_of_string initials) = length (split (first_name a))
         ∧ Forall (λ c, is_space c = false) (list_ascii_of_string initials)
         ∧ _author_key a ≠ last_name a).
Proof.
  unfold _author_key. split.
  - intros ->. done.
  - intros Hne. rewrite bool_decide_eq_true_2 by done.
    destruct (initials_spec (split (first_name a))) as (H1 & H2 & H3).
    { apply split_ws_tokens. constructor. }
    rewrite H1. eexists. split; [done|]. split; [done|]. split; [done|]. split; [done|].
    intros Heq. apply (f_equal list_ascii_of_string) in Heq.
    rewrite !list_ascii_of_string_app in Heq.
    apply (f_equal length) in Heq. rewrite !length_app in Heq. simpl in Heq. lia.
Qed.

Lemma author_key_shape_example :
  ∃ initials,
    _author_key (mkAuthor "Doe" "Jane  Q" "") = "Doe" +:+ " " +:+ initials
    ∧ length (list_ascii_of_string initials) = 2%nat.
Proof.
  assert (Hne : first_name (mkAuthor "Doe" "Jane  Q" "") ≠ "") by discriminate.
  destruct (proj2 (author_key_shape (mkAuthor "Doe" "Jane  Q" "")) Hne)
    as (initials & H1 & _ & H2 & _).
  exists initials. split; [exact H1 | exact H2].
Defined.

(* ------------------------------------------------------------------ *)
(** ** Counting edges *)

(** What a row of the adjacency table adds to the degree sum when the
    neighbours in [seen] are left out; a self-loop counts once more. *)
Definition row_degree (seen : list string) (row : string * list (string * EdgeAttrs)) : Z :=
  Z.of_nat (length (filter (λ '(nbr, _), nbr ∉ seen) row.2))
  + (if OD.mem row.1 row.2 then 1 else 0).

Lemma filter_seen_cons (u : string) (seen : list string) (l : list (string * EdgeAttrs)) :
  NoDup (OD.keys l) → u ∉ seen →
  length (filter (λ '(nbr, _), nbr ∉ seen) l)
  = (length (filter (λ '(nbr, _), nbr ∉ u :: seen) l)
     + (if decide (u ∈ OD.keys l) then 1 else 0))%nat.
Proof.
  intros Hnd Hu. unfold OD.keys in *. induction l as [|[k d] l IH]; [done|].
  rewrite fmap_cons in Hnd. simpl in Hnd. apply NoDup_cons in Hnd as [Hk Hnd].
  specialize (IH Hnd). rewrite !filter_cons. rewrite fmap_cons. simpl.
  destruct (decide (k = u)) as [->|Hne].
  - rewrite decide_True by done. rewrite (decide_False (P := u ∉ u :: seen)).
    2:{ intros H. apply H. left. }
    rewrite decide_True by left. rewrite decide_False in IH by done.
    simpl. lia.
  - destruct (decide (k ∈ seen)) as [Hks|Hks].
    + rewrite decide_False by (intros H; done).
      rewrite (decide_False (P := k ∉ u :: seen)).
      2:{ intros H. apply H. by right. }
      rewrite IH. destruct (decide (u ∈ l.*1)) as [H1|H1].
      * rewrite decide_True by (by right). done.
      * rewrite decide_False; [done|]. rewrite not_elem_of_cons. done.
    + rewrite decide_True by done.
      rewrite (decide_True (P := k ∉ u :: seen)).
      2:{ rewrite not_elem_of_cons. done. }
      simpl. rewrite IH. destruct (decide (u ∈ l.*1)) as [H1|H1].
      * rewrite decide_True by (by right). done.
      * rewrite decide_False; [done|]. rewrite not_elem_of_cons. done.
Qed.

Lemma length_filter_keys (P : string → Prop) `{∀ x, Decision (P x)}
    (l : list (string * EdgeAttrs)) :
  length (filter (λ '(nbr, _), P nbr) l) = length (filter P (OD.keys l)).
Proof.
  unfold OD.keys. induction l as [|[k d] l IH]; [done|].
  rewrite fmap_cons, !filter_cons. simpl. destruct (decide (P k)); simpl; by rewrite IH.
Qed.

Lemma length_filter_rows {V} (P : string * V → Prop) (Q : string → Prop)
    `{∀ x, Decision (P x)} `{∀ x, Decision (Q x)} (a : list (string * V)) :
  (∀ row, row ∈ a → (P row ↔ Q row.1)) →
  length (filter P a) = length (filter Q (OD.keys a)).
Proof.
  unfold OD.keys. induction a as [|row a IH]; intros Hin; [done|].
  rewrite fmap_cons, !filter_cons.
  specialize (IH (λ r Hr, Hin r ltac:(by right))).
  pose proof (Hin row ltac:(left)) as Hr.
  destruct (decide (P row)) as [H1|H1].
  - rewrite decide_True by (by apply Hr). simpl. by rewrite IH.
  - rewrite decide_False by (by rewrite <- Hr). done.
Qed.

(** The invariant of the scan of [G.edges]: the rows still to come have
    distinct keys, none of them seen; every neighbour is seen or still to
    come; and the rows to come are symmetric among themselves. *)
Definition scan_inv (a : list (string * list (string * EdgeAttrs))) (seen : list string)
  : Prop :=
  NoDup (OD.keys a)
  ∧ (∀ x, x ∈ OD.keys a → x ∉ seen)
  ∧ (∀ u nu, (u, nu) ∈ a →
       NoDup (OD.keys nu) ∧ ∀ v, v ∈ OD.keys nu → v ∈ seen ∨ v ∈ OD.keys a)
  ∧ (∀ u nu v nv, (u, nu) ∈ a → (v, nv) ∈ a → v ∈ OD.keys nu → u ∈ OD.keys nv).

Lemma scan_inv_tail u ns a seen :
  scan_inv ((u, ns) :: a) seen → scan_inv a (u :: seen).
Proof.
  intros (Hnd & Hdis & Hrows & Hsym). unfold OD.keys in *.
  rewrite fmap_cons in Hnd. simpl in Hnd. apply NoDup_cons in Hnd as [Hu Hnd].
  split; [done|]. split; [|split].
  - intros x Hx. rewrite not_elem_of_cons. split; [intros ->; done|].
    apply Hdis. rewrite fmap_cons. by right.
  - intros v nv Hin. destruct (Hrows v nv ltac:(by right)) as [H1 H2].
    split; [done|]. intros x Hx. destruct (H2 x Hx) as [?|Hk]; [left; by right|].
    rewrite fmap_cons in Hk. simpl in Hk.
    apply elem_of_cons in Hk as [->|?]; [left; left | by right].
  - intros x nx y ny Hx Hy. apply Hsym; by right.
Qed.

Lemma handshake_rows a seen :
  scan_inv a seen →
  2 * Z.of_nat (length (edges_from a seen)) = sumZ (map (row_degree seen) a).
Proof.
  revert seen. induction a as [|[u ns] a IH]; intros seen Hinv; [done|].
  pose proof (scan_inv_tail _ _ _ _ Hinv) as Htail.
  specialize (IH _ Htail).
  destruct Hinv as (Hnd & Hdis & Hrows & Hsym).
  cbn [edges_from]. rewrite length_app, length_map, map_cons, sumZ_cons.
  unfold OD.keys in Hnd. rewrite fmap_cons in Hnd. simpl in Hnd.
  apply NoDup_cons in Hnd as [Hu Hnd].
  assert (Huseen : u ∉ seen) by (apply Hdis; unfold OD.keys; rewrite fmap_cons; left).
  destruct (Hrows u ns ltac:(left)) as [Hns Hclosed].
  (* rows to come: leaving out [u] as well loses the entries that point to [u] *)
  assert (Hsum : sumZ (map (row_degree seen) a)
                 = sumZ (map (row_degree (u :: seen)) a)
                   + Z.of_nat (length (filter (λ row, u ∈ OD.keys row.2) a))).
  { assert (Hsub : ∀ row, row ∈ a → NoDup (OD.keys row.2)).
    { intros [v nv] Hin. apply (Hrows v nv). by right. }
    clear -Hsub Huseen. induction a as [|[v nv] a IH]; [done|].
    rewrite !map_cons, !sumZ_cons, filter_cons.
    rewrite IH by (intros; apply Hsub; by right).
    unfold row_degree at 1 3. simpl.
    rewrite (filter_seen_cons u seen nv) by (try done; apply (Hsub (v, nv)); left).
    destruct (decide (u ∈ OD.keys nv)); simpl; lia. }
  (* the entries of the row of [u] that are kept: [u] itself and the rows to come *)
  assert (Hrow : length (filter (λ '(nbr, _), nbr ∉ seen) ns)
                 = ((if OD.mem u ns then 1 else 0)
                    + length (filter (λ row, u ∈ OD.keys row.2) a))%nat).
  { rewrite (length_filter_keys (λ nbr, nbr ∉ seen)).
    assert (Hcnt : length (filter (λ row : string * list (string * EdgeAttrs),
                                     u ∈ OD.keys row.2) a)
                   = length (filter (λ v, v ∈ OD.keys ns) (OD.keys a))).
    { assert (Hin : ∀ row, row ∈ a → (u ∈ OD.keys row.2 ↔ row.1 ∈ OD.keys ns)).
      { intros [v nv] Hv. simpl. split; intros H.
        - apply (Hsym v nv u ns); [by right | left | done].
        - apply (Hsym u ns v nv); [left | by right | done]. }
      by apply length_filter_rows. }
    rewrite Hcnt.
    assert (Hperm : filter (λ nbr, nbr ∉ seen) (OD.keys ns)
                    ≡ₚ (if OD.mem u ns then [u] else [])
                       ++ filter (λ v, v ∈ OD.keys ns) (OD.keys a)).
    { apply NoDup_Permutation.
      - by apply NoDup_filter.
      - apply NoDup_app. split; [destruct (OD.mem u ns); [apply NoDup_singleton|constructor]|].
        split; [|by apply NoDup_filter].
        intros x Hx [_ Hxa]%list_elem_of_filter.
        destruct (OD.mem u ns); [|by apply elem_of_nil in Hx].
        apply list_elem_of_singleton in Hx as ->. done.
      - intros x. rewrite elem_of_app, !list_elem_of_filter. split.
        + intros [Hxs Hx]. destruct (Hclosed x Hx) as [?|Hk]; [done|].
          unfold OD.keys in Hk. rewrite fmap_cons in Hk. simpl in Hk.
          apply elem_of_cons in Hk as [->|Hk]; [left | by right].
          assert (Hm : OD.mem u ns = true) by (by apply od_mem_true).
          rewrite Hm. left.
        + intros [Hx|[Hx Hxa]].
          * destruct (OD.mem u ns) eqn:Hm; [|by apply elem_of_nil in Hx].
            apply list_elem_of_singleton in Hx as ->. split; [done|].
            by apply od_mem_true.
          * split; [|done]. apply Hdis. unfold OD.keys. rewrite fmap_cons. by right. }
    rewrite Hperm, length_app. destruct (OD.mem u ns); done. }
  rewrite Hsum. unfold row_degree at 1. simpl. rewrite Hrow in *.
  destruct (OD.mem u ns); lia.
Qed.

Lemma wf_scan_inv (G : Graph) : wf_graph G → scan_inv (_adj G) [].
Proof.
  intros Hwf. pose proof Hwf as (Hnd & Hk & Hall). rewrite Forall_forall in Hall.
  assert (Hrow : ∀ u nu, (u, nu) ∈ _adj G → u ∈ nodes G ∧ nu = nbrs G u).
  { intros u nu Hin. split.
    - rewrite <- Hk. apply list_elem_of_fmap. by exists (u, nu).
    - unfold nbrs. rewrite (od_elem_get _ u nu); [done | by rewrite Hk | done]. }
  split; [by rewrite Hk|]. split; [intros x _; apply not_elem_of_nil|]. split.
  - intros u nu Hin. destruct (Hall _ Hin) as [H1 H2]. split; [done|].
    intros v Hv. right. rewrite Hk. simpl in H2. rewrite Forall_forall in H2.
    apply list_elem_of_fmap in Hv as (we & -> & Hwe). by apply H2.
  - intros u nu v nv Hu Hv Hin.
    destruct (Hrow _ _ Hu) as [_ ->]. destruct (Hrow _ _ Hv) as [_ ->].
    by apply (wf_neighbor G Hwf u v).
Qed.

Lemma filter_unseen_nil (l : list (string * EdgeAttrs)) :
  filter (λ '(nbr, _), nbr ∉ []) l = l.
Proof.
  induction l as [|[k d] l IH]; [done|].
  rewrite filter_cons, decide_True by apply not_elem_of_nil. by rewrite IH.
Qed.

Lemma degree_rows (G : Graph) :
  wf_graph G → map (row_degree []) (_adj G) = map (degree G) (nodes G).
Proof.
  intros Hwf. pose proof Hwf as (Hnd & Hk & _).
  assert (Hrow : ∀ row, row ∈ _adj G → row_degree [] row = degree G row.1).
  { intros [u nu] Hin. unfold row_degree, degree. simpl.
    rewrite filter_unseen_nil. unfold nbrs.
    rewrite (od_elem_get _ u nu); [done | by rewrite Hk | done]. }
  rewrite <- Hk. unfold OD.keys. clear Hnd Hk. revert Hrow.
  generalize (_adj G). intros a. induction a as [|row a IH]; intros Hrow.
  - done.
  - change (row_degree [] row :: map (row_degree []) a
            = degree G row.1 :: map (degree G) a.*1).
    rewrite (Hrow row) by left. f_equal.
    apply IH. intros r Hr. apply Hrow. by right.
Qed.

(** [G.number_of_edges()] counts what [G.edges] yields. *)
Lemma number_of_edges_length (G : Graph) :
  wf_graph G → number_of_edges G = Z.of_nat (length (edges G)).
Proof.
  intros Hwf. unfold number_of_edges, edges.
  rewrite <- degree_rows, <- handshake_rows by (try done; by apply wf_scan_inv).
  rewrite Z.mul_comm. by apply Z.div_mul.
Qed.

(** [G.edges] never yields the same pair of endpoints twice. *)
Lemma edges_from_NoDup a seen :
  NoDup (OD.keys a) → Forall (λ row, NoDup (OD.keys row.2)) a →
  NoDup (map (λ e, (e.1.1, e.1.2)) (edges_from a seen)).
Proof.
  revert seen. unfold OD.keys. induction a as [|[u ns] a IH]; intros seen Hnd Hrows.
  - constructor.
  - rewrite fmap_cons in Hnd. simpl in Hnd. apply NoDup_cons in Hnd as [Hu Hnd].
    apply Forall_cons in Hrows as [Hns Hrows]. simpl in Hns.
    cbn [edges_from]. rewrite map_app. apply NoDup_app. split; [|split].
    + clear -Hns. induction ns as [|[k d] ns IH]; [constructor|].
      rewrite fmap_cons in Hns. simpl in Hns. apply NoDup_cons in Hns as [Hk Hns].
      rewrite filter_cons. destruct (decide (k ∉ seen)); [|by apply IH].
      rewrite !map_cons. simpl. constructor; [|by apply IH].
      intros Hin. apply Hk.
      apply list_elem_of_fmap in Hin as ([[u' v'] d'] & [= _ ->] & Hin). simpl in *.
      apply list_elem_of_fmap in Hin as ([k' d''] & [= _ -> _] & Hin).
      apply list_elem_of_filter in Hin as [_ Hin].
      apply list_elem_of_fmap. by exists (k', d'').
    + intros [x y] Hx Hy.
      apply list_elem_of_fmap in Hx as ([[u' v'] d'] & [= -> ->] & Hx).
      apply list_elem_of_fmap in Hx as ([k' d''] & [= -> -> ->] & _).
      apply list_elem_of_fmap in Hy as ([[u' v'] d'] & [= -> ->] & Hy).
      apply edges_from_elem in Hy as (ns' & Hrow & _).
      apply Hu. apply list_elem_of_fmap. by exists (u', ns').
    + by apply IH.
Qed.

(** When [G.edges] yields both orientations of a pair, the pair is a
    self-loop. *)
Lemma edges_one_orientation (G : Graph) u v d d' :
  (u, v, d) ∈ edges G → (v, u, d') ∈ edges G → u = v.
Proof.
  intros H1 H2.
  apply edges_from_iff in H1 as (a1 & ns & a2 & Ha & _ & _ & Hv).
  apply edges_from_iff in H2 as (b1 & ns' & b2 & Hb & _ & _ & Hu).
  assert (Hka : OD.keys (_adj G) = OD.keys a1 ++ u :: OD.keys a2).
  { rewrite Ha. unfold OD.keys. by rewrite fmap_app, fmap_cons. }
  assert (Hkb : OD.keys (_adj G) = OD.keys b1 ++ v :: OD.keys b2).
  { rewrite Hb. unfold OD.keys. by rewrite fmap_app, fmap_cons. }
  assert (Hiu : OD.keys (_adj G) !! length (OD.keys a1) = Some u)
    by (rewrite Hka; by apply list_lookup_middle).
  assert (Hiv : OD.keys (_adj G) !! length (OD.keys b1) = Some v)
    by (rewrite Hkb; by apply list_lookup_middle).
  destruct (Nat.lt_trichotomy (length (OD.keys a1)) (length (OD.keys b1)))
    as [Hlt|[Heq|Hlt]].
  - exfalso. apply Hu. rewrite Hkb, lookup_app_l in Hiu by done.
    by apply list_elem_of_lookup_2 in Hiu.
  - rewrite Heq in Hiu. congruence.
  - exfalso. apply Hv. rewrite Hka, lookup_app_l in Hiv by done.
    by apply list_elem_of_lookup_2 in Hiv.
Qed.

(** The "edges" entry of the statistics is the number of pairs [G.edges]
    yields, and on a well-formed graph these are the linked pairs of nodes,
    each once: no pair of endpoints comes twice, both orientations of a pair
    come only for a self-loop (which is counted once), and two nodes are
    linked exactly when one orientation of the pair is yielded. *)
Theorem stats_edges (G : Graph) :
  wf_graph G →
  get_network_stats G !! "edges" = Some (Z2Qc (Z.of_nat (length (edges G))))
  ∧ number_of_edges G = Z.of_nat (length (edges G))
  ∧ NoDup (map (λ e, (e.1.1, e.1.2)) (edges G))
  ∧ (∀ u v d d', (u, v, d) ∈ edges G → (v, u, d') ∈ edges G → u = v)
  ∧ (∀ u v w, edge_weight G u v = Some w
              ↔ ∃ d, weight d = w ∧ ((u, v, d) ∈ edges G ∨ (v, u, d) ∈ edges G)).
Proof.
  intros Hwf. pose proof (number_of_edges_length G Hwf) as Hn.
  split; [|split; [done|split; [|split]]].
  - unfold get_network_stats. case_bool_decide as Hl.
    + rewrite lookup_insert_ne by done. rewrite lookup_singleton_eq.
      destruct Hwf as (_ & Hk & _). unfold edges.
      apply nil_length_inv in Hl. rewrite Hl in Hk.
      destruct (_adj G); [done | discriminate].
    + rewrite lookup_insert_ne by done. rewrite lookup_insert_eq. by rewrite Hn.
  - destruct Hwf as (Hnd & Hk & Hall). apply edges_from_NoDup; [by rewrite Hk|].
    eapply Forall_impl; [apply Hall|]. by intros row [H _].
  - intros u v d d'. apply edges_one_orientation.
  - intros u v w. by apply edge_weight_edges.
Qed.

Lemma stats_edges_example :
  get_network_stats communities_example !! "edges"
  = Some (Z2Qc (Z.of_nat (length (edges communities_example)))).
Proof.
  assert (Hwf : wf_graph communities_example)
    by (by apply (bool_decide_unpack _); vm_compute).
  exact (proj1 (stats_edges communities_example Hwf)).
Defined.

(* ------------------------------------------------------------------ *)
(** ** Betweenness is never negative *)

Lemma Qc_add_nonneg (x y : Qc) : (0 <= x)%Qc → (0 <= y)%Qc → (0 <= x + y)%Qc.
Proof. intros Hx Hy. rewrite <- (Qcplus_0_l 0). by apply Qcplus_le_compat. Qed.

Lemma Qc_mul_nonneg (x y : Qc) : (0 <= x)%Qc → (0 <= y)%Qc → (0 <= x * y)%Qc.
Proof. intros Hx Hy. rewrite <- (Qcmult_0_l y). by apply Qcmult_le_compat_r. Qed.

Lemma Qc_inv_nonneg_gen (x : Qc) : (0 <= x)%Qc → (0 <= / x)%Qc.
Proof.
  unfold Qcle, Qcinv. intros Hx. change (this 0%Qc) with 0%Q in *.
  rewrite this_Q2Qc. by apply Qinv_le_0_compat.
Qed.

Lemma Qc_div_nonneg (x y : Qc) : (0 <= x)%Qc → (0 <= y)%Qc → (0 <= x / y)%Qc.
Proof. intros Hx Hy. apply Qc_mul_nonneg; [done | by apply Qc_inv_nonneg_gen]. Qed.

(** Every value of the map is at least 0. *)
Definition nonneg (m : gmap string Qc) : Prop := ∀ k x, m !! k = Some x → (0 <= x)%Qc.

Lemma nonneg_default m k : nonneg m → (0 <= default 0%Qc (m !! k))%Qc.
Proof. intros Hm. destruct (m !! k) as [x|] eqn:Hk; [by apply (Hm k) | done]. Qed.

Lemma nonneg_insert m k x : nonneg m → (0 <= x)%Qc → nonneg (<[k := x]> m).
Proof.
  intros Hm Hx k' x'. destruct (decide (k = k')) as [->|Hne].
  - rewrite lookup_insert_eq. by intros [= <-].
  - rewrite lookup_insert_ne by done. apply Hm.
Qed.

Lemma nonneg_zeros (l : list string) :
  nonneg (list_to_map (map (λ v, (v, 0%Qc)) l)).
Proof.
  intros k x Hk. apply elem_of_list_to_map_2 in Hk.
  apply list_elem_of_fmap in Hk as (v & [= _ ->] & _). done.
Qed.

Lemma relax_nonneg v dist st we :
  nonneg (dsigma st) → nonneg (dsigma (relax v dist st we)).
Proof.
  intros Hs. unfold relax. destruct we as [w edgedata].
  destruct (_ && _); [by apply nonneg_insert|].
  case_bool_decide; [|done]. simpl.
  apply nonneg_insert; [done|]. apply Qc_add_nonneg; by apply nonneg_default.
Qed.

Lemma dijkstra_step_nonneg G st e Q' :
  nonneg (dsigma st) → nonneg (dsigma (dijkstra_step G st e Q')).
Proof.
  intros Hs. unfold dijkstra_step. case_bool_decide; [done|].
  assert (Hfold : ∀ l st0, nonneg (dsigma st0) →
                   nonneg (dsigma (foldl (relax (e_node e) (e_dist e)) st0 l))).
  { induction l as [|we l IH]; intros st0 H0; [done|].
    simpl. apply IH. by apply relax_nonneg. }
  apply Hfold. simpl.
  apply nonneg_insert; [done|]. apply Qc_add_nonneg; by apply nonneg_default.
Qed.

Lemma dijkstra_loop_nonneg fuel G st :
  nonneg (dsigma st) → nonneg (dsigma (dijkstra_loop fuel G st)).
Proof.
  revert st. induction fuel as [|fuel IH]; intros st Hs; [done|].
  simpl. destruct (heappop (dQ st)) as [[e Q']|]; [|done].
  apply IH. by apply dijkstra_step_nonneg.
Qed.

Lemma dijkstra_sigma_nonneg G s :
  nonneg (dsigma (_single_source_dijkstra_path_basic G s)).
Proof.
  apply dijkstra_loop_nonneg. simpl. apply nonneg_insert; [|done]. apply nonneg_zeros.
Qed.

Lemma accumulate_loop_nonneg revS P sigma s betweenness delta :
  nonneg sigma → nonneg betweenness → nonneg delta →
  nonneg (accumulate_loop revS P sigma s betweenness delta).
Proof.
  intros Hsg. revert betweenness delta.
  induction revS as [|w revS IH]; intros betweenness delta Hb Hd; [done|].
  cbn [accumulate_loop].
  set (coeff := ((1 + default 0 (delta !! w)) / default 0 (sigma !! w))%Qc).
  assert (Hc : (0 <= coeff)%Qc).
  { apply Qc_div_nonneg; [|by apply nonneg_default].
    apply Qc_add_nonneg; [done | by apply nonneg_default]. }
  assert (Hd' : nonneg (foldl (λ delta v,
                          <[v := (default 0 (delta !! v)
                                  + default 0 (sigma !! v) * coeff)%Qc]> delta)
                        delta (default [] (P !! w)))).
  { generalize (default [] (P !! w)). intros l. clearbody coeff. revert delta Hd.
    induction l as [|v l IHl]; intros delta Hd; [done|]. simpl. apply IHl.
    apply nonneg_insert; [done|]. apply Qc_add_nonneg; [by apply nonneg_default|].
    apply Qc_mul_nonneg; [by apply nonneg_default | done]. }
  apply IH; [|done]. case_decide; [|done].
  apply nonneg_insert; [done|]. apply Qc_add_nonneg; by apply nonneg_default.
Qed.

Lemma betweenness_nonneg (G : Graph) : nonneg (betweenness_centrality G).
Proof.
  unfold betweenness_centrality.
  assert (Hb : nonneg (foldl (λ b s, _accumulate_basic b
                                       (_single_source_dijkstra_path_basic G s) s)
                             (list_to_map (map (λ v, (v, 0%Qc)) (nodes G))) (nodes G))).
  { generalize (nodes G) at 2. intros l.
    generalize (nonneg_zeros (nodes G)).
    generalize (list_to_map (map (λ v, (v, 0%Qc)) (nodes G)) : gmap string Qc).
    induction l as [|s l IH]; intros b Hb; [done|]. simpl. apply IH.
    unfold _accumulate_basic. apply accumulate_loop_nonneg; [|done|apply nonneg_zeros].
    apply dijkstra_sigma_nonneg. }
  unfold _rescale. case_bool_decide as Hn; [done|].
  intros k x. rewrite lookup_fmap. destruct (_ !! k) as [y|] eqn:Hk; [|done].
  intros [= <-]. apply Qc_mul_nonneg; [by apply (Hb k)|].
  apply Qc_div_nonneg; [done|]. apply (Z2Qc_le 0). nia.
Qed.

(* ------------------------------------------------------------------ *)
(** ** The weighted clustering coefficient lies in [0, 1] *)

Lemma foldr_max_ge (l : list Z) (x : Z) : x ∈ l → x ≤ foldr Z.max 0 l.
Proof.
  induction l as [|y l IH]; [intros H; by apply elem_of_nil in H|].
  intros [->|Hx]%elem_of_cons; simpl; [lia|]. specialize (IH Hx). lia.
Qed.

Section WeightedRange.
Variable cbrt : Qc → Qc.
Variable G : Graph.
Hypothesis Hcbrt : ∀ x, (0 <= x)%Qc → (x <= 1)%Qc → (0 <= cbrt x)%Qc ∧ (cbrt x <= 1)%Qc.
Hypothesis Hwf : wf_graph G.
Hypothesis Hw : ∀ e, e ∈ edges G → 1 ≤ weight e.2.

Lemma wt_norm_unit u v :
  v ∈ neighbors G u → (0 <= wt_norm G u v)%Qc ∧ (wt_norm G u v <= 1)%Qc.
Proof.
  intros Hv. apply list_elem_of_fmap in Hv as ([v' d] & -> & Hin). simpl.
  assert (Hg : OD.get v' (nbrs G u) = Some d).
  { apply od_elem_get; [apply (wf_neighbors_NoDup G Hwf) | done]. }
  assert (Hew : edge_weight G u v' = Some (weight d))
    by (unfold edge_weight; by rewrite Hg).
  assert (He : ∃ e, e ∈ edges G ∧ weight e.2 = weight d).
  { destruct (edges_complete G u v' d Hwf Hg) as [He|He]; eauto. }
  destruct He as (e & He & Hed).
  unfold wt_norm. rewrite Hew. simpl. unfold max_weight.
  rewrite bool_decide_eq_false_2.
  2:{ rewrite (number_of_edges_length G Hwf). destruct (edges G); [|done].
      by apply elem_of_nil in He. }
  assert (Hmax : weight d ≤ foldr Z.max 0 (map (λ e, weight e.2) (edges G))).
  { apply foldr_max_ge. rewrite <- Hed. apply list_elem_of_fmap. eauto. }
  specialize (Hw e He). apply Qc_frac_unit1; lia.
Qed.

Lemma weighted_triangles_range i inbrs js seen :
  NoDup inbrs → NoDup js →
  (∀ x, x ∈ inbrs → x ∈ neighbors G i) →
  (∀ x, x ∈ js → x ∈ inbrs) →
  (∀ x, x ∈ inbrs → x ∈ seen ∨ x ∈ js) →
  (0 <= weighted_triangles cbrt G i inbrs js seen)%Qc
  ∧ (Z2Qc 2 * weighted_triangles cbrt G i inbrs js seen
     <= Z2Qc (Z.of_nat (length js) * (Z.of_nat (length js) - 1)))%Qc.
Proof.
  intros Hnd. revert seen. induction js as [|j js IH]; intros seen Hjs Hni Hsub Hcov.
  - simpl. split; [done|]. rewrite Qcmult_0_r. done.
  - apply NoDup_cons in Hjs as [Hj Hjs]. cbn [weighted_triangles].
    set (ks := filter (λ k, k ∈ filter (λ k, k ∉ j :: seen) (neighbors G j)) inbrs).
    destruct (IH (j :: seen)) as [IH0 IH1]; [done|done| | |].
    { intros x Hx. apply Hsub. by right. }
    { intros x Hx. destruct (Hcov x Hx) as [?|[->|?]%elem_of_cons];
        [left; by right | left; left | by right]. }
    assert (Hji : j ∈ neighbors G i) by (apply Hni, Hsub; left).
    destruct (sumQc_bound (λ k, cbrt (wt_norm G i j * wt_norm G j k * wt_norm G k i)%Qc) ks)
      as [S0 S1].
    { intros k [Hk Hki]%list_elem_of_filter. apply list_elem_of_filter in Hk as [_ Hkj].
      destruct (wt_norm_unit i j Hji) as [A0 A1].
      destruct (wt_norm_unit j k Hkj) as [B0 B1].
      destruct (wt_norm_unit k i) as [C0 C1].
      { by apply (wf_neighbor G Hwf i k), Hni. }
      destruct (Qc_unit_mul _ _ A0 A1 B0 B1) as [D0 D1].
      destruct (Qc_unit_mul _ _ D0 D1 C0 C1) as [E0 E1].
      by apply Hcbrt. }
    assert (Hlen : (length ks ≤ length js)%nat).
    { apply submseteq_length, NoDup_submseteq; [by apply NoDup_filter|].
      intros k [Hk Hki]%list_elem_of_filter. apply list_elem_of_filter in Hk as [Hks _].
      apply not_elem_of_cons in Hks as [Hkj Hks].
      destruct (Hcov k Hki) as [?|[->|?]%elem_of_cons]; done. }
    split; [by apply Qc_add_nonneg|].
    rewrite Qcmult_plus_distr_r.
    replace (Z.of_nat (length (j :: js)) * (Z.of_nat (length (j :: js)) - 1))
      with (2 * Z.of_nat (length js)
            + Z.of_nat (length js) * (Z.of_nat (length js) - 1))
      by (simpl length; lia).
    rewrite Z2Qc_add. apply Qcplus_le_compat; [|done].
    rewrite Z2Qc_mul, !(Qcmult_comm (Z2Qc 2)).
    apply Qcmult_le_compat_r; [|by apply (Z2Qc_le 0)].
    eapply Qcle_trans; [apply S1|]. apply Z2Qc_le. lia.
Qed.

Lemma clustering_weighted_range v :
  (0 <= default 0%Qc (OD.get v (clustering_weighted cbrt G)))%Qc
  ∧ (default 0%Qc (OD.get v (clustering_weighted cbrt G)) <= 1)%Qc.
Proof.
  unfold clustering_weighted.
  rewrite (od_get_map (λ v,
    let inbrs := nbrs_proper G v in
    let d := Z.of_nat (length inbrs) in
    let t := (Z2Qc 2 * weighted_triangles cbrt G v inbrs inbrs [])%Qc in
    if bool_decide (t = 0%Qc) then 0%Qc else (t / Z2Qc (d * (d - 1)))%Qc)).
  destruct (decide (v ∈ nodes G)); [|done]. cbv zeta. simpl.
  destruct (weighted_triangles_range v (nbrs_proper G v) (nbrs_proper G v) []) as [H0 H1].
  { apply NoDup_filter, (wf_neighbors_NoDup G Hwf). }
  { apply NoDup_filter, (wf_neighbors_NoDup G Hwf). }
  { intros x Hx. by apply list_elem_of_filter in Hx as [_ Hx]. }
  { done. }
  { intros x Hx. by right. }
  set (d := Z.of_nat (length (nbrs_proper G v))) in *.
  set (t := (Z2Qc 2 * weighted_triangles cbrt G v (nbrs_proper G v) (nbrs_proper G v) [])%Qc)
    in *.
  assert (Ht0 : (0 <= t)%Qc) by (apply Qc_mul_nonneg; [by apply (Z2Qc_le 0) | done]).
  case_bool_decide as Ht; [done|].
  destruct (decide (d * (d - 1) ≤ 0)) as [Hd|Hd].
  - exfalso. apply Ht. apply Qcle_antisym; [|done].
    eapply Qcle_trans; [apply H1|]. by apply (Z2Qc_le _ 0).
  - apply Qc_mean_unit; [lia | done | done].
Qed.
End WeightedRange.

(** The two remaining fields of a centrality record.  The betweenness
    centrality is never negative.  On a well-formed graph whose edge weights
    are at least 1 (every built graph is one), the weighted clustering
    coefficient lies in [0, 1] as soon as the cube root maps [0, 1] into
    itself. *)
Theorem centrality_record_ranges (cbrt : Qc → Qc) (G : Graph) :
  (∀ x, (0 <= x)%Qc → (x <= 1)%Qc → (0 <= cbrt x)%Qc ∧ (cbrt x <= 1)%Qc) →
  wf_graph G →
  (∀ e, e ∈ edges G → 1 ≤ weight e.2) →
  ∀ v r, OD.get v (compute_centralities cbrt G) = Some r →
    (0 <= c_betweenness_centrality r)%Qc
    ∧ (0 <= c_clustering_coefficient r)%Qc ∧ (c_clustering_coefficient r <= 1)%Qc.
Proof.
  intros Hcbrt Hwf Hw v r. rewrite compute_centralities_lookup.
  case_decide; [|done]. intros [= <-]. unfold centrality_record.
  cbn [c_betweenness_centrality c_clustering_coefficient]. split.
  - apply round4_nonneg, nonneg_default, betweenness_nonneg.
  - destruct (clustering_weighted_range cbrt G Hcbrt Hwf Hw v). by apply round4_unit.
Qed.

Lemma centrality_record_ranges_example :
  ∃ r, OD.get "B" (compute_centralities (λ x, x) (build_coauthor_network scenario_articles))
       = Some r
       ∧ (0 <= c_betweenness_centrality r)%Qc
       ∧ (0 <= c_clustering_coefficient r)%Qc ∧ (c_clustering_coefficient r <= 1)%Qc.
Proof.
  destruct (built_graph_renderable scenario_articles) as (Hwf & _ & Hw). cbv zeta in *.
  assert (Hid : ∀ x : Qc, (0 <= x)%Qc → (x <= 1)%Qc → (0 <= x)%Qc ∧ (x <= 1)%Qc)
    by (intros x H0 H1; exact (conj H0 H1)).
  assert (Hin : "B" ∈ nodes (build_coauthor_network scenario_articles))
    by (by apply (bool_decide_unpack _); vm_compute).
  assert (Hget : OD.get "B" (compute_centralities (λ x, x)
                               (build_coauthor_network scenario_articles))
                 = Some (centrality_record (λ x, x)
                           (build_coauthor_network scenario_articles) "B")).
  { rewrite compute_centralities_lookup. by apply decide_True. }
  exists (centrality_record (λ x, x) (build_coauthor_network scenario_articles) "B").
  split; [exact Hget|].
  exact (centrality_record_ranges (λ x, x) (build_coauthor_network scenario_articles)
           Hid Hwf Hw "B" _ Hget).
Defined.

(* ------------------------------------------------------------------ *)
(** ** The order of the articles *)

Lemma concat_map_Permutation {A B} (f : A → list B) (l l' : list A) :
  l ≡ₚ l' → concat (map f l) ≡ₚ concat (map f l').
Proof.
  induction 1 as [|x l l' _ IH|x y l|l l' l'' _ IH1 _ IH2]; simpl.
  - done.
  - by rewrite IH.
  - rewrite !app_assoc. by rewrite (Permutation_app_comm (f y) (f x)).
  - by rewrite IH1.
Qed.

Lemma paper_count_entries articles v :
  paper_count (node_attrs (build_coauthor_network articles) v)
  = if decide (v ∈ map _author_key (all_entries articles))
    then Some (entries_with_key v articles) else None.
Proof.
  destruct (build_spec articles) as (_ & Hn & _). cbv zeta in Hn.
  unfold node_attrs. rewrite Hn. case_decide as Hin.
  - pose proof (bump_if_paper_count v _ None Hin) as Hpc.
    destruct (foldl (bump_if v) None (all_entries articles)) as [a|]; [|done].
    simpl in *. injection Hpc as ->. done.
  - by destruct (bump_if_absent v _ None Hin) as [-> _].
Qed.

(** The order in which the articles come does not matter for the nodes,
    the paper counts and the edge weights of the built graph (it does matter
    for the order of the nodes and for the affiliation kept, which is the
    first non-empty one met). *)
Theorem build_order_independent (articles articles' : list Article) :
  articles ≡ₚ articles' →
  let G := build_coauthor_network articles in
  let G' := build_coauthor_network articles' in
  nodes G ≡ₚ nodes G'
  ∧ (∀ v, paper_count (node_attrs G v) = paper_count (node_attrs G' v))
  ∧ (∀ u v, edge_weight G u v = edge_weight G' u v).
Proof.
  intros Hp. cbv zeta.
  assert (He : all_entries articles ≡ₚ all_entries articles')
    by (by apply concat_map_Permutation).
  assert (Hpairs : all_pairs articles ≡ₚ all_pairs articles')
    by (by apply concat_map_Permutation).
  assert (Hk : ∀ v, v ∈ map _author_key (all_entries articles)
                    ↔ v ∈ map _author_key (all_entries articles')).
  { intros v. by rewrite He. }
  split; [|split].
  - destruct (build_spec articles) as (Hwf & _). destruct (build_spec articles') as (Hwf' & _).
    apply NoDup_Permutation; [apply Hwf | apply Hwf'|].
    intros v. by rewrite !build_nodes.
  - intros v. rewrite !paper_count_entries. unfold entries_with_key.
    destruct (decide (v ∈ map _author_key (all_entries articles))) as [Hin|Hin].
    + rewrite decide_True by (by apply Hk). by rewrite He.
    + rewrite decide_False by (by rewrite <- Hk). done.
  - intros u v. destruct (build_spec articles) as (_ & _ & ->).
    destruct (build_spec articles') as (_ & _ & ->). unfold count_pairs. by rewrite Hpairs.
Qed.

Lemma build_order_independent_example :
  edge_weight (build_coauthor_network scenario_articles) "B" "C"
  = edge_weight (build_coauthor_network (reverse scenario_articles)) "B" "C".
Proof.
  assert (Hp : scenario_articles ≡ₚ reverse scenario_articles)
    by (symmetry; apply reverse_Permutation).
  exact (proj2 (proj2 (build_order_independent _ _ Hp)) "B" "C").
Defined.
